(** * RecLab: the SLIM recommender and the rating splitter

    A shallow embedding of [reclab/data_utils.py] ([split_ratings], and
    [read_movielens100k] from the table it reads) and of
    [reclab/recommenders/slim.py] ([SLIM.update], [SLIM._predict]).

    Python objects live in a store and are reached through references, so
    that in-place mutation and aliasing are visible; a call either returns
    a value or raises, and the store survives a raise. *)

From Stdlib Require Import ZArith Lia Floats Uint63.
From stdpp Require Import base option list gmap.

Set Default Proof Using "Type".

(** ** Python's control effects: a store and exceptions *)

Module Py.

Inductive exn : Type :=
| TypeError
| ValueError
| OverflowError
| IndexError
| FitError.

Inductive result (A : Type) : Type :=
| Ok (a : A)
| Raise (e : exn).
Arguments Ok {A} a.
Arguments Raise {A} e.

(** A computation over a store of type [S]: the store is returned on
    both exits. *)
Definition M (S A : Type) : Type := S → result A * S.

Definition ret {S A} (a : A) : M S A := λ s, (Ok a, s).

Definition raise {S A} (e : exn) : M S A := λ s, (Raise e, s).

Definition bind {S A B} (c : M S A) (k : A → M S B) : M S B :=
  λ s, match c s with
       | (Ok a, s') => k a s'
       | (Raise e, s') => (Raise e, s')
       end.

Definition gets {S A} (f : S → A) : M S A := λ s, (Ok (f s), s).

Definition modify {S} (f : S → S) : M S unit := λ s, (Ok tt, f s).

Definition lift_result {S A} (r : result A) : M S A := λ s, (r, s).

(** [for x in xs: body x] *)
Fixpoint for_each {S A} (xs : list A) (body : A → M S unit) : M S unit :=
  match xs with
  | [] => ret tt
  | x :: xs' => bind (body x) (λ _, for_each xs' body)
  end.

(** [enumerate(xs)], with Python's unbounded integers as the counter. *)
Fixpoint enumerate_from {A} (i : Z) (xs : list A) : list (Z * A) :=
  match xs with
  | [] => []
  | x :: xs' => (i, x) :: enumerate_from (i + 1) xs'
  end.

Definition enumerate {A} (xs : list A) : list (Z * A) := enumerate_from 0 xs.

(** A triple for both exits: from a store satisfying [P], a normal
    return satisfies [Q] and a raise satisfies [E]. *)
Definition triple {S A} (P : S → Prop) (c : M S A)
    (Q : A → S → Prop) (E : exn → S → Prop) : Prop :=
  ∀ s, P s →
    match c s with
    | (Ok a, s') => Q a s'
    | (Raise e, s') => E e s'
    end.

End Py.

Import Py.

#[global] Instance py_ret {S} : MRet (M S) := λ A, @Py.ret S A.
#[global] Instance py_bind {S} : MBind (M S) := λ A B k c, Py.bind c k.

(** ** [reclab/data_utils.py] *)

Module DataUtils.

(** *** Floats: [int(proportion * len(ratings))] *)

(** [float(n)] for the length of a container.  A length is a
    [Py_ssize_t], below [2^63]; the conversion rounds to nearest even. *)
Definition float_of_len (n : nat) : float :=
  PrimFloat.of_uint63 (Uint63.of_Z (Z.of_nat n)).

(** [int(x)] on a float: truncation toward zero; [nan] and the
    infinities raise. *)
Definition int_of_float (x : float) : result Z :=
  match Prim2SF x with
  | S754_nan => Raise ValueError
  | S754_infinity _ => Raise OverflowError
  | S754_zero _ => Ok 0%Z
  | S754_finite s m e =>
      let a := match e with
               | Zneg k => Z.shiftr (Zpos m) (Zpos k)
               | _ => (Zpos m * 2 ^ e)%Z
               end in
      Ok (if s then (- a)%Z else a)
  end.

Section SplitRatings.

Context {K Val : Type} `{EqDecision K}.
(** The state of numpy's global generator, and what [np.random.shuffle]
    does to a list with it. *)
Context {G : Type} (np_random_shuffle : G → list (K * Val) → list (K * Val) * G).

Abbreviation item := (K * Val)%type.

(** The objects the function touches.  A [dict] and an [OrderedDict]
    both keep their items in insertion order. *)
Inductive obj : Type :=
| Dict (items : list item)
| OrderedDict (items : list item)
| PyList (elems : list item).

Abbreviation ref := nat.

Record world : Type := World { heap : list obj; rng : G }.

(** Allocation of a new object: a reference no live object has. *)
Definition new (o : obj) : M world ref :=
  λ w, (Ok (length (heap w)), World (heap w ++ [o]) (rng w)).

Definition load (r : ref) : M world obj :=
  λ w, match heap w !! r with
       | Some o => (Ok o, w)
       | None => (Raise TypeError, w)
       end.

Definition store (r : ref) (o : obj) : M world unit :=
  modify (λ w, World (<[r := o]> (heap w)) (rng w)).

(** [d[key] = val] on a list of items: an existing key keeps its
    place and takes the new value, a new key goes last. *)
Fixpoint setitem_items (key : K) (val : Val) (d : list item) : list item :=
  match d with
  | [] => [(key, val)]
  | (k, v) :: d' =>
      if decide (k = key) then (k, val) :: d'
      else (k, v) :: setitem_items key val d'
  end.

Definition setitem (r : ref) (key : K) (val : Val) : M world unit :=
  (o ← load r;
   match o with
   | Dict d => store r (Dict (setitem_items key val d))
   | OrderedDict d => store r (OrderedDict (setitem_items key val d))
   | PyList _ => raise TypeError
   end).

(** [len(ratings)] *)
Definition len (r : ref) : M world nat :=
  (o ← load r;
   match o with
   | Dict d | OrderedDict d | PyList d => ret (length d)
   end).

(** [list(ratings.items())]: a new list object holding the items. *)
Definition list_items (r : ref) : M world ref :=
  (o ← load r;
   match o with
   | Dict d | OrderedDict d => new (PyList d)
   | PyList _ => raise TypeError
   end).

(** [np.random.shuffle(iterator)]: permutes the list object in place. *)
Definition shuffle_in_place (r : ref) : M world unit :=
  (o ← load r;
   match o with
   | PyList xs =>
       λ w, let '(ys, g) := np_random_shuffle (rng w) xs in
            (Ok tt, World (<[r := PyList ys]> (heap w)) g)
   | _ => raise TypeError
   end).

Definition list_elems (r : ref) : M world (list item) :=
  (o ← load r;
   match o with
   | PyList xs => ret xs
   | _ => raise TypeError
   end).

(** [int(proportion * len(ratings))] *)
Definition split_end (proportion : float) (n : nat) : result Z :=
  int_of_float (PrimFloat.mul proportion (float_of_len n)).

(** The body of the loop over [enumerate(iterator)]. *)
Definition split_step (split_1 split_2 : ref) (split_1_end : Z)
  : Z * item → M world unit :=
  λ '(i, (key, val)),
    if (i <? split_1_end)%Z then setitem split_1 key val
    else setitem split_2 key val.

Definition split_ratings (ratings : ref) (proportion : float) (shuffle : bool)
  : M world (ref * ref) :=
  split_1 ← new (OrderedDict []);
  split_2 ← new (OrderedDict []);
  n ← len ratings;
  split_1_end ← lift_result (split_end proportion n);
  iterator ← list_items ratings;
  (if shuffle then shuffle_in_place iterator else ret tt);;
  xs ← list_elems iterator;
  for_each (enumerate xs) (split_step split_1 split_2 split_1_end);;
  ret (split_1, split_2).

End SplitRatings.

End DataUtils.

(** ** [reclab/data_utils.py]: [read_movielens100k] *)

Module MovieLens.

(** The function obtains the file [u.data], downloading and unpacking
    the archive when it is missing, and reads it with [pandas.read_csv].
    Those steps are outside this development: the table [read_csv]
    returned is the argument here, and what follows is what the
    function does with it.  The first, second and fourth column of
    [u.data] hold integers, which pandas stores as 64-bit integers;
    the type of the ratings is left open. *)

Section ReadMovielens.

Context {Rt : Type}.

(** One line of the table. *)
Record line : Type := Line {
  user_id : Z;
  item_id : Z;
  rating : Rt;
  timestamp : Z;
}.

(** A value of a 64-bit integer column: arithmetic wraps around. *)
Definition int64 (x : Z) : Z := ((x + 2 ^ 63) mod 2 ^ 64 - 2 ^ 63)%Z.

(** [data['user_id'] -= 1] *)
Definition shift_user_id (data : list line) : list line :=
  (λ r, Line (int64 (user_id r - 1)) (item_id r) (rating r) (timestamp r)) <$> data.

(** [data['item_id'] -= 1] *)
Definition shift_item_id (data : list line) : list line :=
  (λ r, Line (user_id r) (int64 (item_id r - 1)) (rating r) (timestamp r)) <$> data.

(** [np.unique]: the values in increasing order, each once. *)
Fixpoint insert_sorted (x : Z) (l : list Z) : list Z :=
  match l with
  | [] => [x]
  | y :: l' =>
      if (x <? y)%Z then x :: l
      else if (x =? y)%Z then l
      else y :: insert_sorted x l'
  end.

Definition np_unique (xs : list Z) : list Z := foldr insert_sorted [] xs.

(** A numpy array of floats; [np.zeros(n)]. *)
Definition ndarray : Type := list float.

Definition np_zeros (n : nat) : ndarray := replicate n 0%float.

(** [{key: np.zeros(0) for key in keys}]: a dict, its items in
    insertion order. *)
Definition no_features (keys : list Z) : list (Z * ndarray) :=
  foldl (λ d key, DataUtils.setitem_items key (np_zeros 0) d) [] keys.

(** The loop that fills [ratings], over
    [zip(data['user_id'], data['item_id'], data['rating'])]. *)
Definition fill_ratings (data : list line) : list (Z * Z * (Rt * ndarray)) :=
  foldl (λ ratings r,
           DataUtils.setitem_items (user_id r, item_id r) (rating r, np_zeros 0) ratings)
        [] data.

(** How the call ends: with its three dicts, or at the [assert], which
    the interpreter checks unless it runs with [-O]. *)
Inductive outcome : Type :=
| Returned (users items : list (Z * ndarray)) (ratings : list (Z * Z * (Rt * ndarray)))
| AssertionError.

Definition read_movielens100k (data : list line) : outcome :=
  let data := shift_user_id data in
  let data := shift_item_id data in
  if decide (Z.of_nat (length data) = 100000%Z) then
    let users := no_features (np_unique (user_id <$> data)) in
    let items := no_features (np_unique (item_id <$> data)) in
    Returned users items (fill_ratings data)
  else AssertionError.

End ReadMovielens.

Arguments line : clear implicits.
Arguments outcome : clear implicits.

End MovieLens.

(** ** [reclab/recommenders/slim.py] *)

Module Slim.

(** *** Scalars and sparse matrices *)

(** The entries of the matrices are float64 values.  Only their zero, sum
    and product are used, so they are kept abstract. *)
Class Scalar (V : Type) : Type := {
  zero : V;
  add : V → V → V;
  mul : V → V → V;
}.

(** The storage formats of [scipy.sparse] the code goes through. *)
Inductive format : Type := DOK | CSC | CSR.

#[global] Instance format_eq_dec : EqDecision format.
Proof. solve_decision. Defined.

(** A sparse matrix: its shape and the cells it stores; a cell that is
    not stored reads as zero. *)
Record matrix (V : Type) : Type := Matrix {
  fmt : format;
  shape : nat * nat;
  cells : gmap (nat * nat) V;
}.
Arguments Matrix {V} fmt shape cells.
Arguments fmt {V} m.
Arguments shape {V} m.
Arguments cells {V} m.

Section Matrices.

Context `{Scalar V}.
Implicit Types (A B X : matrix V) (c y : list V).

Definition nrows A : nat := (shape A).1.
Definition ncols A : nat := (shape A).2.

(** [scipy.sparse.dok_matrix((m, n))]: no cell stored. *)
Definition dok_matrix (s : nat * nat) : matrix V := Matrix DOK s ∅.

(** [A[i, j]] for indices in range. *)
Definition getitem A (i j : nat) : V := default zero (cells A !! (i, j)).

(** Normalisation of a Python integer index against a dimension:
    negative indices count from the end, anything else out of
    [-n, n) raises. *)
Definition check_index (n : nat) (i : Z) : result nat :=
  if decide (- Z.of_nat n ≤ i < Z.of_nat n)%Z
  then Ok (Z.to_nat (if decide (i < 0)%Z then i + Z.of_nat n else i)%Z)
  else Raise IndexError.

(** [A[:, j].toarray()]: the dense copy of column [j]. *)
Definition column A (j : nat) : list V := (λ i, getitem A i j) <$> seq 0 (nrows A).

(** Row [i] as a dense vector. *)
Definition row A (i : nat) : list V := (λ j, getitem A i j) <$> seq 0 (ncols A).

(** Stores the values [c] in column [j], from row [i] downwards. *)
Fixpoint set_cells (j i : nat) c (m : gmap (nat * nat) V) : gmap (nat * nat) V :=
  match c with
  | [] => m
  | x :: c' => <[(i, j) := x]> (set_cells j (S i) c' m)
  end.

(** [A[:, j] = c] for a vector [c] with one value per row. *)
Definition set_column A (j : nat) c : matrix V :=
  Matrix (fmt A) (shape A) (set_cells j 0 c (cells A)).

(** [A[i, j] = x] *)
Definition set_item A (i j : nat) (x : V) : matrix V :=
  Matrix (fmt A) (shape A) (<[(i, j) := x]> (cells A)).

(** [scipy.sparse.csr_matrix(c)] of a vector [c]: a matrix with one
    row, the vector. *)
Definition row_matrix c : matrix V :=
  Matrix CSR (1, length c) (list_to_map (imap (λ j x, ((0, j), x)) c)).

(** The values written by [A[:, j] = B] for a sparse [B] whose shape
    fits the slice: a single row is repeated over the rows of [A],
    otherwise [B] has a row for each of them. *)
Definition broadcast_column A B : list V :=
  if decide (nrows B = nrows A) then column B 0
  else replicate (nrows A) (getitem B 0 0).

(** The same matrix in another storage format. *)
Definition to_format (f : format) A : matrix V := Matrix f (shape A) (cells A).

(** The dot product of two dense vectors, summed in index order. *)
Definition dot (u v : list V) : V :=
  foldl add zero (zip_with mul u v).

(** [A @ B] once the inner dimensions agree: every cell of the product
    is the dot product of a row of [A] with a column of [B]. *)
Definition product A B : matrix V :=
  foldr (λ j P, set_column P j ((λ i, dot (row A i) (column B j)) <$> seq 0 (nrows A)))
        (Matrix CSR (nrows A, ncols B) ∅) (seq 0 (ncols B)).

(** Two matrices with the same shape and the same value in every cell. *)
Definition same_values A B : Prop :=
  shape A = shape B ∧ ∀ i j, getitem A i j = getitem B i j.

End Matrices.

(** *** The regression oracle *)

Inductive selection_rule : Type := Cyclic | Random.

(** The arguments [__init__] passes to [ElasticNet]. *)
Record hyperparameters (V : Type) : Type := Hyper {
  alpha : V;
  l1_ratio : V;
  positive : bool;
  fit_intercept : bool;
  copy_X : bool;
  precompute : bool;
  selection : selection_rule;
  max_iter : Z;
  tol : V;
  random_state : Z;
}.
Arguments Hyper {V}.
Arguments alpha {V}.
Arguments l1_ratio {V}.
Arguments positive {V}.
Arguments fit_intercept {V}.
Arguments copy_X {V}.
Arguments precompute {V}.
Arguments selection {V}.
Arguments max_iter {V}.
Arguments tol {V}.
Arguments random_state {V}.

(** The elastic-net solver of scikit-learn, outside these sources: from
    the hyperparameters (the seed among them), a design matrix and a
    target it yields a coefficient vector or fails. *)
Class Solver (V : Type) : Type := {
  elastic_net : hyperparameters V → matrix V → list V → result (list V);
}.

(** The estimator object: its parameters and, once fitted, its
    coefficients. *)
Record ElasticNet (V : Type) : Type := Estimator {
  params : hyperparameters V;
  coef_ : option (list V);
}.
Arguments Estimator {V}.
Arguments params {V}.
Arguments coef_ {V}.

(** *** The recommender object and the store *)

Abbreviation ref := nat.

(** What the code asks of its collaborators, in order. *)
Inductive event (V : Type) : Type :=
| Fit (X : matrix V) (y : list V)
| MatMul (A B : matrix V).
Arguments Fit {V}.
Arguments MatMul {V}.

(** The matrices live in [heap]; the other fields are the attributes of
    [self] the two methods read.  [model] is what [self.model] evaluates
    to in [update]: an estimator whose parameters are those lines 37-46
    give.  [__init__] itself is not embedded: the module binds numpy,
    scipy.sparse and the parent's module only (lines 5-8), so the name
    [ElasticNet] of line 37 is unbound and the constructor cannot run as
    written, and it would store the estimator as [_model], a name
    [update] does not read.  The store of a recommender is therefore
    taken as it is given.  Of the registry [_items] only the length is
    used.  [calls] records the calls to the solver and to the matrix
    product. *)
Record world (V : Type) : Type := World {
  heap : list (matrix V);
  _items : nat;
  _ratings : ref;
  _weights : option ref;
  model : ElasticNet V;
  calls : list (event V);
}.
Arguments World {V}.
Arguments heap {V}.
Arguments _items {V}.
Arguments _ratings {V}.
Arguments _weights {V}.
Arguments model {V}.
Arguments calls {V}.

(** [PredictRecommender.update], outside these sources: it brings the
    registries and the rating matrix of [self] up to date. *)
Class Parent (V Args : Type) : Type := {
  super_update : Args → M (world V) unit;
}.

Section Recommender.

Context `{Scalar V, Solver V}.

Definition set_heap (h : list (matrix V)) (w : world V) : world V :=
  World h (_items w) (_ratings w) (_weights w) (model w) (calls w).

Definition set_weights (o : option ref) (w : world V) : world V :=
  World (heap w) (_items w) (_ratings w) o (model w) (calls w).

Definition set_model (m : ElasticNet V) (w : world V) : world V :=
  World (heap w) (_items w) (_ratings w) (_weights w) m (calls w).

Definition record (e : event V) (w : world V) : world V :=
  World (heap w) (_items w) (_ratings w) (_weights w) (model w) (calls w ++ [e]).

(** A new matrix object. *)
Definition new (A : matrix V) : M (world V) ref :=
  λ w, (Ok (length (heap w)), set_heap (heap w ++ [A]) w).

Definition load (r : ref) : M (world V) (matrix V) :=
  λ w, match heap w !! r with
       | Some A => (Ok A, w)
       | None => (Raise TypeError, w)
       end.

Definition store (r : ref) (A : matrix V) : M (world V) unit :=
  modify (λ w, set_heap (<[r := A]> (heap w)) w).

(** [A.tocsc()], [A.tocsr()]: the object itself when it already has the
    format, a converted copy otherwise. *)
Definition to (f : format) (r : ref) : M (world V) ref :=
  A ← load r;
  if decide (fmt A = f) then mret r else new (to_format f A).

Definition tocsc : ref → M (world V) ref := to CSC.
Definition tocsr : ref → M (world V) ref := to CSR.

(** [r[:, j].toarray()] *)
Definition column_toarray (r : ref) (j : nat) : M (world V) (list V) :=
  A ← load r;
  if decide (j < ncols A) then mret (column A j) else raise IndexError.

(** [r[:, j] = x] for a scalar [x], broadcast over the column. *)
Definition assign_column_scalar (r : ref) (j : nat) (x : V) : M (world V) unit :=
  A ← load r;
  if decide (j < ncols A) then store r (set_column A j (replicate (nrows A) x))
  else raise IndexError.

(** [r[:, j] = c] for a dense column [c], as [toarray] returns it:
    one value per row, or the shapes do not match. *)
Definition assign_column (r : ref) (j : nat) (c : list V) : M (world V) unit :=
  A ← load r;
  if decide (j < ncols A) then
    if decide (length c = nrows A) then store r (set_column A j c)
    else raise ValueError
  else raise IndexError.

(** [r[:, j] = B] for a sparse matrix [B].  The slice has one column
    and a row for every row of the matrix at [r]: scipy repeats a
    single row of [B] over the rows, and refuses any [B] that then does
    not have the shape of the slice. *)
Definition assign_column_sparse (r : ref) (j : nat) (B : matrix V) : M (world V) unit :=
  A ← load r;
  if decide (j < ncols A) then
    if decide (ncols B = 1 ∧ (nrows B = 1 ∨ nrows B = nrows A)) then
      store r (set_column A j (broadcast_column A B))
    else raise ValueError
  else raise IndexError.

(** [r[i, j] = x] *)
Definition assign_item (r : ref) (i j : nat) (x : V) : M (world V) unit :=
  A ← load r;
  if decide (i < nrows A ∧ j < ncols A) then store r (set_item A i j x)
  else raise IndexError.

(** [self.model.fit(X, y)]: the solver runs on the matrix as it is now
    and the estimator keeps the coefficients. *)
Definition fit (X : ref) (y : list V) : M (world V) unit :=
  A ← load X;
  modify (record (Fit A y));;
  m ← gets model;
  c ← lift_result (elastic_net (params m) A y);
  modify (set_model (Estimator (params m) (Some c))).

(** [self.model.sparse_coef_]: the coefficients of the last fit as a
    sparse matrix with one row and a column for every coefficient. *)
Definition sparse_coef_ : M (world V) (matrix V) :=
  m ← gets model;
  match coef_ m with
  | Some c => mret (row_matrix c)
  | None => raise TypeError
  end.

(** [self._weights], which is [None] before the first training. *)
Definition weights : M (world V) ref :=
  o ← gets _weights;
  match o with
  | Some r => mret r
  | None => raise TypeError
  end.

(** The body of the loop of [update] for one item. *)
Definition fit_item (ratings : ref) (item_id : nat) : M (world V) unit :=
  target ← column_toarray ratings item_id;
  assign_column_scalar ratings item_id zero;;
  fit ratings target;;
  coef ← sparse_coef_;
  W ← weights;
  assign_column_sparse W item_id coef;;
  assign_item W item_id item_id zero;;
  assign_column ratings item_id target.

(** The part of [update] that follows the call to the parent class. *)
Definition train : M (world V) unit :=
  num_items ← gets _items;
  W ← new (dok_matrix (num_items, num_items));
  modify (set_weights (Some W));;
  r ← gets _ratings;
  ratings ← tocsc r;
  for_each (seq 0 num_items) (fit_item ratings);;
  W ← weights;
  W' ← tocsr W;
  modify (set_weights (Some W')).

Definition update `{Parent V Args} (args : Args) : M (world V) unit :=
  super_update args;;
  train.

(** [A @ B] *)
Definition matmul (a b : ref) : M (world V) (matrix V) :=
  A ← load a;
  B ← load b;
  modify (record (MatMul A B));;
  if decide (ncols A = nrows B) then mret (product A B) else raise ValueError.

(** [all_predictions[user_id, item_id]] *)
Definition lookup_prediction (P : matrix V) (user_id item_id : Z) : result V :=
  match check_index (nrows P) user_id, check_index (ncols P) item_id with
  | Ok i, Ok j => Ok (getitem P i j)
  | _, _ => Raise IndexError
  end.

(** The loop of [_predict]: the predictions are appended in the order
    of the queries. *)
Fixpoint collect {C} (P : matrix V) (user_item : list (Z * Z * C))
    (predictions : list V) : result (list V) :=
  match user_item with
  | [] => Ok predictions
  | ((user_id, item_id), _) :: rest =>
      match lookup_prediction P user_id item_id with
      | Ok x => collect P rest (predictions ++ [x])
      | Raise e => Raise e
      end
  end.

Definition _predict {C} (user_item : list (Z * Z * C)) : M (world V) (list V) :=
  r ← gets _ratings;
  W ← weights;
  all_predictions ← matmul r W;
  lift_result (collect all_predictions user_item []).

End Recommender.

End Slim.
(** ** Reasoning rules for the store-and-exception monad *)

Section Triples.

Context {S : Type}.
Implicit Types (P : S → Prop) (E : exn → S → Prop).

Lemma triple_ret {A} (a : A) (Q : A → S → Prop) E :
  triple (Q a) (Py.ret a) Q E.
Proof. by intros s Hs. Qed.

Lemma triple_raise {A} e (Q : A → S → Prop) E :
  triple (E e) (Py.raise e) Q E.
Proof. by intros s Hs. Qed.

Lemma triple_bind {A B} P (c : M S A) (k : A → M S B)
    (Q : A → S → Prop) (R : B → S → Prop) E :
  triple P c Q E →
  (∀ a, triple (Q a) (k a) R E) →
  triple P (c ≫= k) R E.
Proof.
  intros Hc Hk s Hs. unfold mbind, py_bind, Py.bind.
  specialize (Hc s Hs). destruct (c s) as [[a|e] s']; [|done].
  by apply Hk.
Qed.

Lemma triple_conseq {A} P P' (c : M S A) (Q Q' : A → S → Prop) E E' :
  triple P' c Q' E' →
  (∀ s, P s → P' s) →
  (∀ a s, Q' a s → Q a s) →
  (∀ e s, E' e s → E e s) →
  triple P c Q E.
Proof.
  intros Hc HP HQ HE s Hs. specialize (Hc s (HP s Hs)).
  destruct (c s) as [[a|e] s']; auto.
Qed.

Lemma triple_gets {A} (f : S → A) (Q : A → S → Prop) E :
  triple (λ s, Q (f s) s) (Py.gets f) Q E.
Proof. by intros s Hs. Qed.

Lemma triple_modify (f : S → S) (Q : unit → S → Prop) E :
  triple (λ s, Q tt (f s)) (Py.modify f) Q E.
Proof. by intros s Hs. Qed.

Lemma triple_lift_result {A} (r : result A) (Q : A → S → Prop) E :
  triple (λ s, match r with Ok a => Q a s | Raise e => E e s end)
    (Py.lift_result r) Q E.
Proof. intros s Hs. unfold lift_result. by destruct r. Qed.

(** The loop rule: [I done] holds once the items of [done] have been
    processed. *)
Lemma triple_for_each {A} (I : list A → S → Prop) (xs : list A)
    (body : A → M S unit) E :
  (∀ done x rest, xs = done ++ x :: rest →
     triple (I done) (body x) (λ _, I (done ++ [x])) E) →
  triple (I []) (for_each xs body) (λ _, I xs) E.
Proof.
  intros Hbody.
  assert (∀ todo pre, xs = pre ++ todo →
            triple (I pre) (for_each todo body) (λ _, I xs) E) as H.
  { intros todo. induction todo as [|x todo IH]; intros pre Hxs; simpl.
    - rewrite app_nil_r in Hxs. subst. by intros s Hs.
    - change (triple (I pre) (body x ≫= λ _, for_each todo body) (λ _, I xs) E).
      eapply triple_bind; [by eapply Hbody|].
      intros ?. apply IH. by rewrite <- app_assoc. }
  by apply (H xs []).
Qed.

Lemma triple_pure_pre {A} (P : S → Prop) (F : Prop) (c : M S A)
    (Q : A → S → Prop) (E : exn → S → Prop) :
  (F → triple P c Q E) → triple (λ s, P s ∧ F) c Q E.
Proof. intros H s [Hs HF]. by apply H. Qed.

Lemma triple_lift_result_inv {A} (P : S → Prop) (r : result A) :
  triple P (lift_result r) (λ _, P) (λ _, P).
Proof. intros s Hs. unfold lift_result. by destruct r. Qed.

Lemma bind_ok {A B} (c : M S A) (k : A → M S B) a s s' :
  c s = (Ok a, s') → (c ≫= k) s = k a s'.
Proof. intros Hc. unfold mbind, py_bind, Py.bind. by rewrite Hc. Qed.

Lemma bind_raise {A B} (c : M S A) (k : A → M S B) e s s' :
  c s = (Raise e, s') → (c ≫= k) s = (Raise e, s').
Proof. intros Hc. unfold mbind, py_bind, Py.bind. by rewrite Hc. Qed.

Lemma lift_result_ok {A} (r : result A) a (s : S) :
  r = Ok a → lift_result r s = (Ok a, s).
Proof. by intros ->. Qed.

End Triples.
(** ** Facts about binary64 rounding *)

Section Rounding.

Local Open Scope Z_scope.

Lemma digits2_pos_size m : digits2_pos m = Pos.size m.
Proof. induction m; simpl; congruence. Qed.

Lemma digits2_upper m : Zpos m < 2 ^ Zpos (digits2_pos m).
Proof.
  rewrite digits2_pos_size. pose proof (Pos.size_gt m) as Hgt.
  apply Pos2Z.pos_lt_pos in Hgt. by rewrite Pos2Z.inj_pow in Hgt.
Qed.

Lemma digits2_lower m : 2 ^ (Zpos (digits2_pos m) - 1) <= Zpos m.
Proof.
  rewrite digits2_pos_size. pose proof (Pos.size_le m) as Hle.
  apply Pos2Z.pos_le_pos in Hle. rewrite Pos2Z.inj_pow in Hle.
  change (Zpos m~0) with (2 * Zpos m) in Hle.
  replace (Zpos (Pos.size m)) with (1 + (Zpos (Pos.size m) - 1)) in Hle by lia.
  rewrite Z.pow_add_r in Hle by lia. lia.
Qed.

(** Whether bits were lost by the shifts so far. *)
Definition inexact (mrs : shr_record) : bool := shr_r mrs || shr_s mrs.

Lemma shr_1_spec mrs :
  0 <= shr_m mrs →
  shr_m (shr_1 mrs) = shr_m mrs / 2 ∧
  (inexact mrs = false → (2 | shr_m mrs) → inexact (shr_1 mrs) = false).
Proof.
  destruct mrs as [m r s]. simpl. intros Hm.
  destruct m as [|[p|p|]|p]; simpl; try lia.
  - split; [done|]. unfold inexact. simpl. by intros ->.
  - split.
    + apply (Z.div_unique _ 2 _ 1); lia.
    + intros _ [q Hq]. lia.
  - split.
    + apply (Z.div_unique _ 2 _ 0); lia.
    + unfold inexact. simpl. by intros ->.
  - split; [done|]. intros _ [q Hq]. lia.
Qed.

(** [r] is [mrs] shifted right by [k] bits: the mantissa is halved [k]
    times, and nothing is recorded as lost when the bits shifted out
    were all zero. *)
Definition shifted (k : Z) (mrs r : shr_record) : Prop :=
  0 <= shr_m r ∧
  shr_m r = shr_m mrs / 2 ^ k ∧
  (inexact mrs = false → (2 ^ k | shr_m mrs) → inexact r = false).

Lemma shifted_compose a b x y z :
  0 <= a → 0 <= b → shifted a x y → shifted b y z → shifted (a + b) x z.
Proof.
  intros Ha Hb (Hy0 & Hy & Hyx) (Hz0 & Hz & Hzx). split_and!.
  - done.
  - rewrite Hz, Hy, Z.pow_add_r by done. apply Z.div_div; lia.
  - intros Hx [q Hq]. rewrite Z.pow_add_r in Hq by done.
    apply Hzx.
    + apply Hyx; [done|]. exists (q * 2 ^ b). lia.
    + rewrite Hy. exists q. rewrite Hq.
      replace (q * (2 ^ a * 2 ^ b)) with (q * 2 ^ b * 2 ^ a) by lia.
      apply Z.div_mul. lia.
Qed.

Lemma shifted_one mrs : 0 <= shr_m mrs → shifted 1 mrs (shr_1 mrs).
Proof.
  intros Hm. destruct (shr_1_spec mrs Hm) as [Hdiv Hex].
  split_and!; [|done|done].
  rewrite Hdiv. apply Z.div_pos; lia.
Qed.

Lemma iter_shr_1_shifted p : ∀ mrs,
  0 <= shr_m mrs → shifted (Zpos p) mrs (SpecFloat.iter_pos shr_1 p mrs).
Proof.
  induction p as [p IH|p IH|]; intros mrs Hm; simpl.
  - pose proof (shifted_one mrs Hm) as H1.
    pose proof (IH _ (proj1 H1)) as H2.
    pose proof (IH _ (proj1 H2)) as H3.
    replace (Zpos p~1) with (1 + Zpos p + Zpos p) by lia.
    eapply shifted_compose; [lia|lia| |exact H3].
    eapply shifted_compose; [lia|lia|exact H1|exact H2].
  - pose proof (IH _ Hm) as H1.
    pose proof (IH _ (proj1 H1)) as H2.
    replace (Zpos p~0) with (Zpos p + Zpos p) by lia.
    eapply shifted_compose; [lia|lia|exact H1|exact H2].
  - by apply shifted_one.
Qed.

(** Rounding to nearest even moves the shifted mantissa up by at most
    one, and not at all when no bit was lost. *)
Lemma round_nearest_even_bounds mrs :
  shr_m mrs <= round_nearest_even (shr_m mrs) (loc_of_shr_record mrs) <= shr_m mrs + 1 ∧
  (inexact mrs = false →
   round_nearest_even (shr_m mrs) (loc_of_shr_record mrs) = shr_m mrs).
Proof.
  destruct mrs as [m [|] [|]]; unfold inexact; simpl; try (split; [lia|done]).
  split; [|done]. destruct (Z.even m); lia.
Qed.

Lemma shr_shifted mrs e k :
  0 <= shr_m mrs →
  (shr mrs e k).2 = e + Z.max k 0 ∧ shifted (Z.max k 0) mrs (shr mrs e k).1.
Proof.
  intros Hm. destruct k as [|p|p]; simpl.
  - split; [lia|]. split_and!; [done| |done]. by rewrite Z.div_1_r.
  - split; [lia|]. by apply iter_shr_1_shifted.
  - split; [lia|]. split_and!; [done| |done]. by rewrite Z.div_1_r.
Qed.

(** The value [m * 2^e], scaled by a power of two large enough for every
    exponent met below to be non-negative. *)
Definition scaled (m e : Z) : Z := m * 2 ^ (e + 2200).

Lemma scaled_shift m e k :
  0 <= k → -2200 <= e → scaled (m * 2 ^ k) e = scaled m (e + k).
Proof.
  intros Hk He. unfold scaled.
  replace (e + k + 2200) with (k + (e + 2200)) by lia.
  rewrite (Z.pow_add_r 2 k (e + 2200)) by lia. ring.
Qed.

Lemma fexp_64 x : fexp prec emax x = Z.max (x - 53) (-1074).
Proof. done. Qed.

(** The first half of [binary_round_aux]: shifting the mantissa to the
    target exponent and rounding it never takes a value that is at most
    an integer [B] below [2^53] above [B]. *)
Lemma round_step M E B :
  0 < B < 2 ^ 53 → -2200 <= E →
  scaled (Zpos M) E <= scaled B 0 →
  let mrs := (shr_fexp prec emax (Zpos M) E loc_Exact).1 in
  let e' := (shr_fexp prec emax (Zpos M) E loc_Exact).2 in
  let m1 := round_nearest_even (shr_m mrs) (loc_of_shr_record mrs) in
  0 <= m1 ∧ E <= e' ∧ scaled m1 e' <= scaled B 0.
Proof.
  intros HB HE Hle mrs e' m1.
  unfold shr_fexp in mrs, e'. simpl shr_record_of_loc in mrs, e'.
  set (mrs0 := {| shr_m := Zpos M; shr_r := false; shr_s := false |}) in *.
  set (d := Zdigits2 (Zpos M)) in *.
  set (k := fexp prec emax (d + E) - E) in *.
  destruct (shr_shifted mrs0 E k ltac:(simpl; lia)) as (He' & Hq0 & Hq & Hex).
  fold mrs in Hq0, Hq, Hex. fold e' in He'. simpl in Hq.
  destruct (round_nearest_even_bounds mrs) as [Hrne Hrne_ex]. fold m1 in Hrne, Hrne_ex.
  split_and!; [lia|lia|].
  destruct (Z.le_gt_cases k 0) as [Hk|Hk].
  - rewrite Z.max_r in He', Hq, Hex by done. rewrite Z.div_1_r in Hq.
    rewrite Hrne_ex by (apply Hex; [done|apply Z.divide_1_l]).
    rewrite Hq. by replace e' with E by lia.
  - rewrite Z.max_l in He', Hq, Hex by lia.
    assert (d + E < 54) as Hd.
    { pose proof (digits2_lower M) as Hlow. fold (Zdigits2 (Zpos M)) in Hlow. fold d in Hlow.
      assert (0 < d) as Hdpos by (subst d; simpl; lia).
      assert (2 ^ (d - 1 + (E + 2200)) < 2 ^ (53 + 2200)) as Hpow.
      { rewrite (Z.pow_add_r 2 (d - 1) (E + 2200)) by lia.
        rewrite (Z.pow_add_r 2 53 2200) by lia.
        unfold scaled in Hle. rewrite Z.add_0_l in Hle.
        apply Z.le_lt_trans with (B * 2 ^ 2200).
        - etransitivity; [|exact Hle].
          apply Z.mul_le_mono_nonneg_r; [apply Z.pow_nonneg; lia|exact Hlow].
        - apply Z.mul_lt_mono_pos_r; [apply Z.pow_pos_nonneg; lia|lia]. }
      apply Z.pow_lt_mono_r_iff in Hpow; lia. }
    assert (e' <= 0 ∧ -2200 <= e') as [He0 He1].
    { subst k. rewrite fexp_64 in He'. lia. }
    set (B' := B * 2 ^ (- e')).
    assert (scaled B 0 = scaled B' e') as HB'.
    { unfold B'. rewrite scaled_shift by lia. f_equal. lia. }
    assert (Zpos M <= B' * 2 ^ k) as HM.
    { rewrite HB' in Hle. replace e' with (E + k) in Hle by lia.
      rewrite <- (scaled_shift B' E k) in Hle by lia.
      unfold scaled in Hle.
      eapply Z.mul_le_mono_pos_r; [|exact Hle]. apply Z.pow_pos_nonneg; lia. }
    assert (m1 <= B') as Hm1.
    { assert (0 < 2 ^ k) as Hpk by (apply Z.pow_pos_nonneg; lia).
      destruct (Z.eq_dec (Zpos M mod 2 ^ k) 0) as [Hmod|Hmod].
      - rewrite Hrne_ex.
        + rewrite Hq. apply Z.div_le_upper_bound; lia.
        + apply Hex; [done|]. apply Z.mod_divide; [lia|exact Hmod].
      - pose proof (Z.div_mod (Zpos M) (2 ^ k) ltac:(lia)) as Hdm.
        pose proof (Z.mod_pos_bound (Zpos M) (2 ^ k) Hpk) as Hmb.
        rewrite <- Hq in Hdm. nia. }
    rewrite HB'. unfold scaled. apply Z.mul_le_mono_nonneg_r; [apply Z.pow_nonneg; lia|done].
Qed.

(** The second half of [binary_round_aux]: the mantissa is shifted
    again, which only loses bits. *)
Lemma renormalise_step m e B :
  0 <= m → -2200 <= e → scaled m e <= scaled B 0 →
  let mrs := (shr_fexp prec emax m e loc_Exact).1 in
  let e' := (shr_fexp prec emax m e loc_Exact).2 in
  0 <= shr_m mrs ∧ e <= e' ∧ scaled (shr_m mrs) e' <= scaled B 0.
Proof.
  intros Hm He Hle mrs e'. unfold shr_fexp in mrs, e'.
  simpl shr_record_of_loc in mrs, e'.
  set (mrs0 := {| shr_m := m; shr_r := false; shr_s := false |}) in *.
  set (k := fexp prec emax (Zdigits2 m + e) - e) in *.
  destruct (shr_shifted mrs0 e k Hm) as (He' & Hq0 & Hq & _).
  fold mrs in Hq0, Hq. fold e' in He'. simpl in Hq.
  split_and!; [done|lia|].
  etransitivity; [|exact Hle].
  rewrite He', <- scaled_shift by lia.
  unfold scaled. apply Z.mul_le_mono_nonneg_r; [apply Z.pow_nonneg; lia|].
  rewrite Hq, Z.mul_comm. apply Z.mul_div_le. apply Z.pow_pos_nonneg; lia.
Qed.

(** A positive value that is at most an integer [B] below [2^53]
    rounds to a non-negative float that is at most [B]: never to an
    infinity, never to [nan]. *)
Lemma binary_round_aux_bound M E B :
  0 < B < 2 ^ 53 → -2200 <= E →
  scaled (Zpos M) E <= scaled B 0 →
  match binary_round_aux prec emax false (Zpos M) E loc_Exact with
  | S754_zero s => s = false
  | S754_finite s m e => s = false ∧ E <= e ∧ scaled (Zpos m) e <= scaled B 0
  | _ => False
  end.
Proof.
  intros HB HE Hle. unfold binary_round_aux.
  pose proof (round_step M E B HB HE Hle) as (Hm1 & He1 & Hle1).
  destruct (shr_fexp prec emax (Zpos M) E loc_Exact) as [mrs1 e1]. simpl in *.
  set (m1 := round_nearest_even (shr_m mrs1) (loc_of_shr_record mrs1)) in *.
  pose proof (renormalise_step m1 e1 B Hm1 ltac:(lia) Hle1) as (Hm2 & He2 & Hle2).
  destruct (shr_fexp prec emax m1 e1 loc_Exact) as [mrs2 e2]. simpl in *.
  destruct (shr_m mrs2) as [|m2|m2]; [done| |lia].
  assert (e2 < 53) as Hsmall.
  { assert (2 ^ (e2 + 2200) < 2 ^ (53 + 2200)) as Hpow.
    { rewrite (Z.pow_add_r 2 53 2200) by lia.
      unfold scaled in Hle2. rewrite Z.add_0_l in Hle2.
      apply Z.le_lt_trans with (B * 2 ^ 2200).
      - etransitivity; [|exact Hle2].
        rewrite <- (Z.mul_1_l (2 ^ (e2 + 2200))) at 1.
        apply Z.mul_le_mono_nonneg_r; [apply Z.pow_nonneg; lia|lia].
      - apply Z.mul_lt_mono_pos_r; [apply Z.pow_pos_nonneg; lia|lia]. }
    apply Z.pow_lt_mono_r_iff in Hpow; lia. }
  destruct (Z.leb_spec e2 (emax - prec)) as [_|Hbig].
  - split_and!; [done|lia|done].
  - change (emax - prec) with 971 in Hbig. lia.
Qed.

Lemma iter_xO_pow m d : Zpos (Pos.iter xO m d) = Zpos m * 2 ^ Zpos d.
Proof.
  revert m. induction d as [|d IH] using Pos.peano_ind; intros m.
  - simpl. lia.
  - rewrite Pos.iter_succ, Pos2Z.inj_succ, Z.pow_succ_r by lia.
    change (Zpos (Pos.iter xO m d)~0) with (2 * Zpos (Pos.iter xO m d)).
    rewrite IH. ring.
Qed.

(** The conversion of a length below [2^53] is exact or smaller. *)
Lemma float_of_len_bound (n : nat) :
  Z.of_nat n < 2 ^ 53 →
  match Prim2SF (DataUtils.float_of_len n) with
  | S754_zero s => s = false
  | S754_finite s m e =>
      s = false ∧ -1074 <= e ∧ scaled (Zpos m) e <= scaled (Z.of_nat n) 0
  | _ => False
  end.
Proof.
  intros Hn. unfold DataUtils.float_of_len.
  rewrite of_uint63_spec, Uint63.of_Z_spec.
  rewrite Z.mod_small by (change Uint63Axioms.wB with (2 ^ 63); lia).
  destruct (Z.of_nat n) as [|m|m] eqn:Hm; [done| |lia].
  unfold binary_normalize, binary_round.
  set (e' := fexp prec emax (Zpos (digits2_pos m) + 0)).
  assert (-1074 <= e') as He' by (subst e'; rewrite fexp_64; lia).
  assert (let '(mz, ez) := shl_align m 0 e' in
          -1074 <= ez ∧ ez <= 0 ∧ scaled (Zpos mz) ez = scaled (Zpos m) 0) as Hal.
  { unfold shl_align. destruct (e' - 0) as [|d|d] eqn:Hd; try (split_and!; [lia|lia|done]).
    split_and!; [lia|lia|].
    rewrite iter_xO_pow, scaled_shift by lia. f_equal. lia. }
  destruct (shl_align m 0 e') as [mz ez]. destruct Hal as (Hez & Hez0 & Hval).
  pose proof (binary_round_aux_bound mz ez (Zpos m) ltac:(lia) ltac:(lia)
                ltac:(by rewrite Hval)) as Hb.
  destruct (binary_round_aux _ _ _ _ _ _) as [s|s| |s m2 e2]; try done.
  destruct Hb as (-> & He2 & Hle). split_and!; [done|lia|done].
Qed.

(** A proportion between 0 and 1, as the docstring of [split_ratings]
    asks, in the order of the floats. *)
Definition unit_proportion (p : float) : Prop :=
  PrimFloat.leb PrimFloat.zero p = true ∧ PrimFloat.leb p PrimFloat.one = true.

(** The floor of the number a float stands for. *)
Definition floor_of_float (x : float) : option Z :=
  match Prim2SF x with
  | S754_zero _ => Some 0
  | S754_finite s m e =>
      let a := if s then Zneg m else Zpos m in
      Some (match e with
            | Zneg k => a / 2 ^ Zpos k
            | _ => a * 2 ^ e
            end)
  | _ => None
  end.

Lemma unit_proportion_bound p :
  unit_proportion p →
  match Prim2SF p with
  | S754_zero _ => True
  | S754_finite s m e => s = false ∧ -1074 <= e <= 0 ∧ Zpos m <= 2 ^ (- e)
  | _ => False
  end.
Proof.
  intros [H0 H1]. rewrite FloatAxioms.leb_spec in H0, H1.
  pose proof (Prim2SF_valid p) as Hv.
  change (Prim2SF PrimFloat.zero) with (S754_zero false) in H0.
  change (Prim2SF PrimFloat.one) with (S754_finite false 4503599627370496 (-52)) in H1.
  destruct (Prim2SF p) as [s|s| |s m e]; [done| | |].
  - destruct s; discriminate.
  - discriminate.
  - destruct s; [discriminate|]. clear H0.
    unfold SpecFloat.valid_binary, bounded, canonical_mantissa in Hv.
    apply andb_prop in Hv as [Hc _]. apply Z.eqb_eq in Hc.
    rewrite fexp_64 in Hc.
    pose proof (digits2_upper m) as Hup.
    assert (Zpos (digits2_pos m) <= 53) as Hd by lia.
    assert (Zpos m < 2 ^ 53) as Hm.
    { eapply Z.lt_le_trans; [exact Hup|]. apply Z.pow_le_mono_r; lia. }
    unfold SFleb, SFcompare in H1.
    destruct (Z.compare_spec e (-52)) as [He|He|He]; [| |discriminate].
    + subst e. split; [reflexivity|]. split; [lia|].
      change (2 ^ (- -52)) with 4503599627370496.
      rewrite Pos.compare_cont_spec in H1. clear Hc Hup Hd Hm.
      destruct (Pos.compare_spec m 4503599627370496) as [Hcmp|Hcmp|Hcmp].
      * rewrite Hcmp. apply Z.le_refl.
      * apply Z.lt_le_incl. by apply Pos2Z.pos_lt_pos.
      * discriminate H1.
    + split; [reflexivity|]. split; [lia|].
      etransitivity; [apply Z.lt_le_incl; exact Hm|].
      apply Z.pow_le_mono_r; lia.
Qed.

(** Truncation of a non-negative float that is at most [B]. *)
Lemma int_of_finite_bound x B :
  0 <= B →
  match Prim2SF x with
  | S754_zero _ => True
  | S754_finite s m e => s = false ∧ -2200 <= e ∧ scaled (Zpos m) e <= scaled B 0
  | _ => False
  end →
  ∃ k, DataUtils.int_of_float x = Ok k ∧ floor_of_float x = Some k ∧ 0 <= k <= B.
Proof.
  intros HB Hx. unfold DataUtils.int_of_float, floor_of_float.
  destruct (Prim2SF x) as [s|s| |s m e]; [|done|done|].
  - exists 0. split_and!; [done|done|lia|done].
  - destruct Hx as (-> & He & Hle). unfold scaled in Hle. rewrite Z.add_0_l in Hle.
    destruct e as [|e|e].
    + exists (Zpos m * 2 ^ 0). split_and!; [done|done|lia|].
      rewrite Z.add_0_l in Hle.
      rewrite Z.pow_0_r, Z.mul_1_r.
      eapply Z.mul_le_mono_pos_r; [|exact Hle]. apply Z.pow_pos_nonneg; lia.
    + exists (Zpos m * 2 ^ Zpos e). split_and!; [done|done| |].
      * apply Z.mul_nonneg_nonneg; [lia|apply Z.pow_nonneg; lia].
      * rewrite (Z.pow_add_r 2 (Zpos e) 2200), Z.mul_assoc in Hle by lia.
        eapply Z.mul_le_mono_pos_r; [|exact Hle]. apply Z.pow_pos_nonneg; lia.
    + exists (Zpos m / 2 ^ Zpos e). split_and!.
      * by rewrite Z.shiftr_div_pow2 by lia.
      * done.
      * apply Z.div_pos; [lia|apply Z.pow_pos_nonneg; lia].
      * apply Z.div_le_upper_bound; [apply Z.pow_pos_nonneg; lia|].
        replace 2200 with (Zpos e + (Zneg e + 2200)) in Hle at 2 by lia.
        rewrite (Z.pow_add_r 2 (Zpos e) (Zneg e + 2200)), Z.mul_assoc in Hle by lia.
        rewrite (Z.mul_comm (2 ^ Zpos e) B).
        eapply Z.mul_le_mono_pos_r; [|exact Hle]. apply Z.pow_pos_nonneg; lia.
Qed.

(** For a proportion between 0 and 1 and a length below [2^53],
    [int(proportion * len(ratings))] is an integer between 0 and the
    length, and it is the floor of the float product. *)
Lemma split_end_unit p (n : nat) :
  unit_proportion p → Z.of_nat n < 2 ^ 53 →
  ∃ k, DataUtils.split_end p n = Ok k ∧
       floor_of_float (PrimFloat.mul p (DataUtils.float_of_len n)) = Some k ∧
       0 <= k <= Z.of_nat n.
Proof.
  intros Hp Hn. unfold DataUtils.split_end.
  apply int_of_finite_bound; [lia|].
  rewrite FloatAxioms.mul_spec.
  pose proof (unit_proportion_bound p Hp) as Hx.
  pose proof (float_of_len_bound n Hn) as HN.
  destruct (Prim2SF p) as [sx|sx| |sx mx ex]; [|done|done|];
    destruct (Prim2SF (DataUtils.float_of_len n)) as [sy|sy| |sy my ey]; try done.
  destruct Hx as (-> & Hex & Hmx). destruct HN as (-> & Hey & Hmy).
  unfold SF64mul, SFmul. simpl xorb.
  destruct (Z.of_nat n) as [|B|B] eqn:HB; [| |lia].
  { exfalso. unfold scaled in Hmy. rewrite Z.mul_0_l in Hmy.
    assert (0 < Zpos my * 2 ^ (ey + 2200)); [|lia].
    apply Z.mul_pos_pos; [lia|apply Z.pow_pos_nonneg; lia]. }
  assert (scaled (Zpos (mx * my)) (ex + ey) <= scaled (Zpos B) 0) as Hle.
  { etransitivity; [|exact Hmy]. unfold scaled.
    replace (ey + 2200) with (- ex + (ex + ey + 2200)) by lia.
    rewrite (Z.pow_add_r 2 (- ex) (ex + ey + 2200)) by lia.
    rewrite Pos2Z.inj_mul.
    replace (Zpos mx * Zpos my * 2 ^ (ex + ey + 2200))
      with (Zpos mx * (Zpos my * 2 ^ (ex + ey + 2200))) by ring.
    replace (Zpos my * (2 ^ (- ex) * 2 ^ (ex + ey + 2200)))
      with (2 ^ (- ex) * (Zpos my * 2 ^ (ex + ey + 2200))) by ring.
    apply Z.mul_le_mono_nonneg_r; [|done].
    apply Z.mul_nonneg_nonneg; [lia|apply Z.pow_nonneg; lia]. }
  assert (0 < Zpos B < 2 ^ 53) as HBB by lia.
  pose proof (binary_round_aux_bound (mx * my) (ex + ey) (Zpos B) HBB
                ltac:(lia) Hle) as Hb.
  destruct (binary_round_aux _ _ _ _ _ _) as [s|s| |s m2 e2]; try done.
  destruct Hb as (-> & He2 & Hle2). split_and!; [done|lia|done].
Qed.

End Rounding.
(** ** Signs and zeros of rounded products *)

Section RoundingMore.

Local Open Scope Z_scope.

(** One shift of [binary_round_aux]: the mantissa stays non-negative,
    the exponent does not decrease, and a positive mantissa at an
    exponent of at least [-1074] stays positive. *)
Lemma shr_fexp_sign m e :
  0 <= m →
  let mrs := (shr_fexp prec emax m e loc_Exact).1 in
  let e' := (shr_fexp prec emax m e loc_Exact).2 in
  0 <= shr_m mrs ∧ e <= e' ∧ (0 < m → -1074 <= e → 0 < shr_m mrs).
Proof.
  intros Hm mrs e'. unfold shr_fexp in mrs, e'. simpl shr_record_of_loc in mrs, e'.
  set (mrs0 := {| shr_m := m; shr_r := false; shr_s := false |}) in *.
  set (k := fexp prec emax (Zdigits2 m + e) - e) in *.
  destruct (shr_shifted mrs0 e k ltac:(simpl; lia)) as (He' & Hq0 & Hq & _).
  fold mrs in Hq0, Hq. fold e' in He'. simpl in Hq.
  split_and!; [done|lia|]. intros Hpos He.
  destruct m as [|M|M]; [lia| |lia].
  pose proof (digits2_lower M) as Hlow. simpl in k.
  assert (Z.max k 0 <= Zpos (digits2_pos M) - 1) as Hk.
  { subst k. rewrite fexp_64. lia. }
  rewrite Hq.
  assert (0 < 2 ^ Z.max k 0) as Hpk by (apply Z.pow_pos_nonneg; lia).
  assert (2 ^ Z.max k 0 <= Zpos M) as Hle.
  { etransitivity; [|exact Hlow]. apply Z.pow_le_mono_r; lia. }
  apply Z.div_str_pos. lia.
Qed.

(** A rounded value carries the sign it was given and is never [nan];
    at an exponent of at least [-1074] it is not a zero either. *)
Lemma binary_round_aux_sign s M E :
  match binary_round_aux prec emax s (Zpos M) E loc_Exact with
  | S754_zero s' => s' = s ∧ E < -1074
  | S754_infinity s' => s' = s
  | S754_finite s' _ _ => s' = s
  | S754_nan => False
  end.
Proof.
  unfold binary_round_aux.
  pose proof (shr_fexp_sign (Zpos M) E ltac:(lia)) as (Hm1 & He1 & Hp1).
  destruct (shr_fexp prec emax (Zpos M) E loc_Exact) as [mrs1 e1]. simpl in *.
  destruct (round_nearest_even_bounds mrs1) as [Hrne _].
  set (m1 := round_nearest_even (shr_m mrs1) (loc_of_shr_record mrs1)) in *.
  pose proof (shr_fexp_sign m1 e1 ltac:(lia)) as (Hm2 & He2 & Hp2).
  destruct (shr_fexp prec emax m1 e1 loc_Exact) as [mrs2 e2]. simpl in *.
  destruct (shr_m mrs2) as [|m2|m2]; [|by destruct (Z.leb _ _)|lia].
  split; [done|]. destruct (Z.lt_ge_cases E (-1074)) as [|HE]; [done|].
  specialize (Hp1 ltac:(lia) HE). specialize (Hp2 ltac:(lia) ltac:(lia)). lia.
Qed.

(** The length of a non-empty container converts to a positive finite
    float. *)
Lemma float_of_len_pos (n : nat) :
  0 < Z.of_nat n < 2 ^ 53 →
  ∃ m e, Prim2SF (DataUtils.float_of_len n) = S754_finite false m e ∧
         -1074 <= e ∧ scaled (Zpos m) e <= scaled (Z.of_nat n) 0.
Proof.
  intros [Hpos Hn]. pose proof (float_of_len_bound n Hn) as Hb.
  unfold DataUtils.float_of_len in *.
  rewrite of_uint63_spec, Uint63.of_Z_spec in *.
  rewrite Z.mod_small in * by (change Uint63Axioms.wB with (2 ^ 63); lia).
  destruct (Z.of_nat n) as [|M|M] eqn:HM; [lia| |lia].
  unfold binary_normalize, binary_round in *.
  set (e' := fexp prec emax (Zpos (digits2_pos M) + 0)) in *.
  assert (-1074 <= e') as He' by (subst e'; rewrite fexp_64; lia).
  assert (-1074 <= (shl_align M 0 e').2) as Hal.
  { unfold shl_align. destruct (e' - 0) as [|d|d]; simpl; lia. }
  destruct (shl_align M 0 e') as [mz ez]. simpl in Hal.
  pose proof (binary_round_aux_sign false mz ez) as Hs.
  destruct (binary_round_aux _ _ _ _ _ _) as [s|s| |s m2 e2]; try done.
  - lia.
  - destruct Hb as (-> & He2 & Hle). by exists m2, e2.
Qed.

End RoundingMore.

(** ** Products and conversions that are exact *)

Section Exact.

Local Open Scope Z_scope.

Lemma digits2_unique m d : 2 ^ (d - 1) <= Zpos m < 2 ^ d → Zpos (digits2_pos m) = d.
Proof.
  intros [Hlo Hhi]. pose proof (digits2_lower m) as Hl. pose proof (digits2_upper m) as Hu.
  set (d' := Zpos (digits2_pos m)) in *.
  destruct (Z.lt_trichotomy d' d) as [Hlt|[Heq|Hgt]]; [|done|].
  - assert (2 ^ d' <= 2 ^ (d - 1)) by (apply Z.pow_le_mono_r; lia). lia.
  - assert (2 ^ d <= 2 ^ (d' - 1)) by (apply Z.pow_le_mono_r; lia). lia.
Qed.

(** A value [m * 2^k * 2^E] whose mantissa [m] is canonical at the
    exponent [E + k] rounds to itself. *)
Lemma binary_round_aux_exact s M E m k :
  0 <= k → Zpos M = Zpos m * 2 ^ k →
  canonical_mantissa prec emax m (E + k) = true →
  E + k <= emax - prec →
  binary_round_aux prec emax s (Zpos M) E loc_Exact = S754_finite s m (E + k).
Proof.
  intros Hk HM Hcan Hmax. unfold canonical_mantissa in Hcan.
  apply Z.eqb_eq in Hcan.
  assert (0 < 2 ^ k) as Hpk by (apply Z.pow_pos_nonneg; lia).
  assert (Zpos (digits2_pos M) = Zpos (digits2_pos m) + k) as Hd.
  { apply digits2_unique. rewrite HM.
    pose proof (digits2_lower m) as Hl. pose proof (digits2_upper m) as Hu.
    replace (Zpos (digits2_pos m) + k - 1) with (Zpos (digits2_pos m) - 1 + k) by lia.
    rewrite !Z.pow_add_r by lia. nia. }
  unfold binary_round_aux, shr_fexp. simpl shr_record_of_loc. simpl Zdigits2.
  rewrite Hd.
  replace (Zpos (digits2_pos m) + k + E) with (Zpos (digits2_pos m) + (E + k)) by lia.
  rewrite Hcan. replace (E + k - E) with k by lia.
  set (mrs0 := {| shr_m := Zpos M; shr_r := false; shr_s := false |}).
  destruct (shr_shifted mrs0 E k ltac:(simpl; lia)) as (He1 & _ & Hq & Hex).
  rewrite Z.max_l in He1, Hq, Hex by lia.
  destruct (shr mrs0 E k) as [mrs1 e1]. simpl in He1, Hq, Hex. subst e1.
  assert (shr_m mrs1 = Zpos m) as Hm1.
  { rewrite Hq, HM. by rewrite Z.div_mul by lia. }
  destruct (round_nearest_even_bounds mrs1) as [_ Hrne].
  rewrite Hrne, Hm1.
  - simpl Zdigits2. rewrite Hcan, Z.sub_diag. simpl.
    by rewrite (proj2 (Z.leb_le _ _) Hmax).
  - apply Hex; [done|]. rewrite HM. apply Z.divide_factor_r.
Qed.

(** The length of a container with fewer than [2^53] items converts
    without rounding. *)
Lemma float_of_len_exact (n : nat) :
  0 < Z.of_nat n < 2 ^ 53 →
  ∃ m e, Prim2SF (DataUtils.float_of_len n) = S754_finite false m e ∧
         -52 <= e <= 0 ∧ Zpos m = Z.of_nat n * 2 ^ (- e).
Proof.
  intros [Hpos Hn]. unfold DataUtils.float_of_len.
  rewrite of_uint63_spec, Uint63.of_Z_spec.
  rewrite Z.mod_small by (change Uint63Axioms.wB with (2 ^ 63); lia).
  destruct (Z.of_nat n) as [|M|M] eqn:HM; [lia| |lia].
  unfold binary_normalize, binary_round.
  pose proof (digits2_lower M) as Hl. pose proof (digits2_upper M) as Hu.
  set (d := Zpos (digits2_pos M)) in *.
  assert (1 <= d <= 53) as Hd.
  { split; [subst d; lia|].
    destruct (Z.le_gt_cases d 53) as [|Hgt]; [done|].
    assert (2 ^ 53 <= 2 ^ (d - 1)) by (apply Z.pow_le_mono_r; lia). lia. }
  rewrite fexp_64. rewrite Z.add_0_r, Z.max_l by lia.
  unfold shl_align. rewrite Z.sub_0_r.
  destruct (d - 53) as [|e|e] eqn:He; [| lia |].
  - exists M, 0.
    rewrite (binary_round_aux_exact false M 0 M 0).
    + split_and!; [done|lia|lia|]. simpl. lia.
    + lia.
    + simpl. lia.
    + unfold canonical_mantissa. apply Z.eqb_eq. rewrite fexp_64. fold d. lia.
    + done.
  - exists (Pos.iter xO M e), (Zneg e).
    assert (Zpos (Pos.iter xO M e) = Zpos M * 2 ^ Zpos e) as Hval
      by apply iter_xO_pow.
    assert (0 < 2 ^ Zpos e) as Hpe by (apply Z.pow_pos_nonneg; lia).
    rewrite (binary_round_aux_exact false (Pos.iter xO M e) (Zneg e)
               (Pos.iter xO M e) 0); [|lia|lia| |done].
    + rewrite Z.add_0_r. split_and!; [done|lia|lia|done].
    + unfold canonical_mantissa. apply Z.eqb_eq. rewrite fexp_64, Z.add_0_r.
      assert (Zpos (digits2_pos (Pos.iter xO M e)) = 53) as ->.
      { apply digits2_unique. rewrite Hval.
        replace 53 with (d + Zpos e) by lia.
        replace (d + Zpos e - 1) with (d - 1 + Zpos e) by lia.
        rewrite !Z.pow_add_r by lia. nia. }
      lia.
Qed.

(** The product of one and a length is the length. *)
Lemma split_end_one (n : nat) :
  Z.of_nat n < 2 ^ 53 → DataUtils.split_end PrimFloat.one n = Ok (Z.of_nat n).
Proof.
  intros Hn. unfold DataUtils.split_end, DataUtils.int_of_float.
  rewrite FloatAxioms.mul_spec.
  change (Prim2SF PrimFloat.one) with (S754_finite false 4503599627370496 (-52)).
  destruct (Z.eq_dec (Z.of_nat n) 0) as [H0|H0].
  { assert (n = 0%nat) as -> by lia. done. }
  destruct (float_of_len_exact n ltac:(lia)) as (m & e & Hf & He & Hval).
  pose proof (Prim2SF_valid (DataUtils.float_of_len n)) as Hv.
  rewrite Hf in *. unfold SpecFloat.valid_binary, bounded in Hv.
  apply andb_prop in Hv as [Hcan Hmax]. apply Z.leb_le in Hmax.
  unfold SF64mul, SFmul. simpl xorb.
  rewrite (binary_round_aux_exact false (4503599627370496 * m) (-52 + e) m 52);
    [|lia| | |].
  - replace (-52 + e + 52) with e by lia.
    assert (0 < 2 ^ (- e)) as Hpe by (apply Z.pow_pos_nonneg; lia).
    destruct e as [|e|e]; [|lia|].
    + f_equal. simpl in Hval. lia.
    + f_equal. rewrite Z.shiftr_div_pow2 by lia. rewrite Hval.
      change (- Zneg e) with (Zpos e). by rewrite Z.div_mul by lia.
  - rewrite Pos2Z.inj_mul. change (Zpos 4503599627370496) with (2 ^ 52). ring.
  - by replace (-52 + e + 52) with e by lia.
  - lia.
Qed.

End Exact.
(** ** Facts about [split_ratings] *)

Import DataUtils.

Section SplitRatingsFacts.

Context {K Val : Type} `{EqDecision K}.
Context {G : Type} (np_random_shuffle : G → list (K * Val) → list (K * Val) * G).

Implicit Types (d xs : list (K * Val)) (w : world (K:=K) (Val:=Val) (G:=G)).

Lemma setitem_items_fresh key val d :
  key ∉ d.*1 → setitem_items key val d = d ++ [(key, val)].
Proof.
  induction d as [|[k v] d IH]; simpl; [done|].
  rewrite not_elem_of_cons. intros [Hne Hd].
  rewrite decide_False by done. by rewrite IH.
Qed.

Lemma setitem_ordered_dict w r d key val :
  heap w !! r = Some (OrderedDict d) →
  setitem r key val w =
    (Ok tt, World (<[r := OrderedDict (setitem_items key val d)]> (heap w)) (rng w)).
Proof.
  intros Hr. unfold setitem, mbind, py_bind, Py.bind, load. by rewrite Hr.
Qed.

Lemma nodup_keys_step d (x : K * Val) xs :
  NoDup (d ++ x :: xs).*1 →
  (x.1 ∉ d.*1) ∧ NoDup ((d ++ [x]) ++ xs).*1 ∧ NoDup (d ++ xs).*1.
Proof.
  rewrite <- app_assoc. simpl. rewrite !fmap_app, !fmap_cons.
  rewrite <- Permutation_middle. rewrite NoDup_cons, not_elem_of_app.
  intros [[? ?] ?]. done.
Qed.

Lemma split_loop xs : ∀ i w d1 d2 l1 l2 k,
  l1 ≠ l2 →
  heap w !! l1 = Some (OrderedDict d1) →
  heap w !! l2 = Some (OrderedDict d2) →
  NoDup (d1 ++ xs).*1 → NoDup (d2 ++ xs).*1 →
  for_each (enumerate_from i xs) (split_step l1 l2 k) w =
    (Ok tt,
     World (<[l2 := OrderedDict (d2 ++ drop (Z.to_nat (k - i)) xs)]>
              (<[l1 := OrderedDict (d1 ++ take (Z.to_nat (k - i)) xs)]> (heap w)))
           (rng w)).
Proof.
  induction xs as [|[key val] xs IH]; intros i w d1 d2 l1 l2 k Hne H1 H2 N1 N2.
  - simpl. rewrite take_nil, drop_nil, !app_nil_r.
    rewrite !list_insert_id by (by rewrite ?list_lookup_insert_ne).
    by destruct w.
  - simpl. unfold Py.bind.
    apply nodup_keys_step in N1 as (F1 & N1 & N1').
    apply nodup_keys_step in N2 as (F2 & N2 & N2').
    pose proof (lookup_lt_Some _ _ _ H1) as L1.
    pose proof (lookup_lt_Some _ _ _ H2) as L2.
    destruct (Z.ltb_spec i k) as [Hlt|Hge].
    + rewrite (setitem_ordered_dict _ _ _ _ _ H1), setitem_items_fresh by done.
      rewrite (IH _ _ (d1 ++ [(key, val)]) d2); simpl; try done.
      * replace (Z.to_nat (k - i)) with (Datatypes.S (Z.to_nat (k - (i + 1)))) by lia.
        simpl. by rewrite list_insert_insert_eq, <- app_assoc.
      * by rewrite list_lookup_insert_eq.
      * by rewrite list_lookup_insert_ne.
    + rewrite (setitem_ordered_dict _ _ _ _ _ H2), setitem_items_fresh by done.
      rewrite (IH _ _ d1 (d2 ++ [(key, val)])); simpl; try done.
      * replace (Z.to_nat (k - i)) with 0 by lia.
        replace (Z.to_nat (k - (i + 1))) with 0 by lia.
        simpl. rewrite take_0, drop_0, app_nil_r.
        rewrite (list_insert_insert_ne _ l1 l2) by done.
        by rewrite list_insert_insert_eq, <- app_assoc.
      * by rewrite list_lookup_insert_ne.
      * by rewrite list_lookup_insert_eq.
Qed.

(** What the list to split is: the items, shuffled when asked. *)
Definition split_order (shuffle : bool) (g : G) (items : list (K * Val))
  : list (K * Val) * G :=
  if shuffle then np_random_shuffle g items else (items, g).

Lemma new_object_run w o :
  new o w = (Ok (length (heap w)), World (heap w ++ [o]) (rng w)).
Proof. done. Qed.

Lemma load_object_run w r o : heap w !! r = Some o → load r w = (Ok o, w).
Proof. intros Hr. unfold load. by rewrite Hr. Qed.

Lemma len_dict w r d : heap w !! r = Some (Dict d) → len r w = (Ok (length d), w).
Proof. intros Hr. unfold len. by rewrite (bind_ok _ _ _ _ _ (load_object_run _ _ _ Hr)). Qed.

Lemma list_items_dict w r d :
  heap w !! r = Some (Dict d) →
  list_items r w = (Ok (length (heap w)), World (heap w ++ [PyList d]) (rng w)).
Proof. intros Hr. unfold list_items. by rewrite (bind_ok _ _ _ _ _ (load_object_run _ _ _ Hr)). Qed.

Lemma shuffle_in_place_run w r xs :
  heap w !! r = Some (PyList xs) →
  shuffle_in_place np_random_shuffle r w =
    (Ok tt, World (<[r := PyList (np_random_shuffle (rng w) xs).1]> (heap w))
                  (np_random_shuffle (rng w) xs).2).
Proof.
  intros Hr. unfold shuffle_in_place.
  rewrite (bind_ok _ _ _ _ _ (load_object_run _ _ _ Hr)).
  by destruct (np_random_shuffle (rng w) xs).
Qed.

Lemma list_elems_run w r xs :
  heap w !! r = Some (PyList xs) → list_elems r w = (Ok xs, w).
Proof. intros Hr. unfold list_elems. by rewrite (bind_ok _ _ _ _ _ (load_object_run _ _ _ Hr)). Qed.

Lemma split_ratings_run w ratings items p shuffle k :
  heap w !! ratings = Some (Dict items) →
  split_end p (length items) = Ok k →
  NoDup (split_order shuffle (rng w) items).1.*1 →
  split_ratings np_random_shuffle ratings p shuffle w =
    (Ok (length (heap w), Datatypes.S (length (heap w))),
     World (heap w ++
              [OrderedDict (take (Z.to_nat k) (split_order shuffle (rng w) items).1);
               OrderedDict (drop (Z.to_nat k) (split_order shuffle (rng w) items).1);
               PyList (split_order shuffle (rng w) items).1])
           (split_order shuffle (rng w) items).2).
Proof.
  intros Hr Hk Hnd. destruct w as [h g]. simpl in *.
  pose proof (lookup_lt_Some _ _ _ Hr) as Hlt.
  unfold split_ratings.
  rewrite (bind_ok _ _ _ _ _ (new_object_run _ _)). simpl.
  rewrite (bind_ok _ _ _ _ _ (new_object_run _ _)). simpl.
  rewrite <- app_assoc, length_app. simpl.
  assert ((h ++ [OrderedDict []; OrderedDict []]) !! ratings = Some (Dict items)) as Hr2
    by (by rewrite lookup_app_l).
  rewrite (bind_ok _ _ _ _ _ (len_dict (World _ g) _ _ Hr2)).
  rewrite (bind_ok _ _ _ _ _ (lift_result_ok _ _ _ Hk)).
  rewrite (bind_ok _ _ _ _ _ (list_items_dict (World _ g) _ _ Hr2)). simpl.
  rewrite <- app_assoc, length_app. simpl.
  set (xs := (split_order shuffle g items).1) in *.
  set (g' := (split_order shuffle g items).2).
  set (h0 := h ++ [OrderedDict []; OrderedDict []; PyList items]).
  set (h1 := h ++ [OrderedDict []; OrderedDict []; PyList xs]).
  assert (∀ o, (h ++ [OrderedDict []; OrderedDict []; o]) !! (length h + 2) = Some o) as Hit.
  { intros o. rewrite lookup_app_r by lia.
    by replace (length h + 2 - length h) with 2 by lia. }
  assert ((if shuffle then shuffle_in_place np_random_shuffle (length h + 2)
           else mret ()) (World h0 g) = (Ok tt, World h1 g')) as Hsh.
  { subst xs g' h0 h1. destruct shuffle; simpl; [|done].
    rewrite (shuffle_in_place_run (World _ g) _ _ (Hit _)). simpl.
    by rewrite insert_app_r. }
  rewrite (bind_ok _ _ _ _ _ Hsh).
  rewrite (bind_ok _ _ _ _ _ (list_elems_run (World h1 g') _ _ (Hit _))).
  unfold enumerate.
  rewrite (bind_ok _ _ _ _ _ (split_loop xs 0 (World h1 g') [] [] (length h) (length h + 1) k
             ltac:(lia)
             ltac:(subst h1; simpl; rewrite lookup_app_r by lia; by rewrite Nat.sub_diag)
             ltac:(subst h1; simpl; rewrite lookup_app_r by lia;
                   by replace (length h + 1 - length h) with 1 by lia)
             Hnd Hnd)).
  simpl. unfold mret, py_ret, Py.ret. subst h1. simpl.
  rewrite Z.sub_0_r.
  rewrite (insert_app_r_alt h _ (length h)) by lia.
  rewrite Nat.sub_diag. simpl.
  rewrite (insert_app_r h _ 1). simpl.
  do 3 f_equal; lia.
Qed.

(** *** The input object is never written *)

(** [keeps r o]: the object at [r] is [o]. *)
Definition keeps (r : nat) (o : obj) : world (K:=K) (Val:=Val) (G:=G) → Prop :=
  λ w, heap w !! r = Some o.

Lemma keeps_new r o o' :
  triple (keeps r o) (new o') (λ l w, keeps r o w ∧ l ≠ r) (λ _, keeps r o).
Proof.
  intros w Hw. simpl. unfold keeps in *. simpl.
  pose proof (lookup_lt_Some _ _ _ Hw).
  split; [by apply lookup_app_l_Some | lia].
Qed.

Lemma keeps_load r o l (P : obj → world → Prop) :
  (∀ o' w, keeps r o w → heap w !! l = Some o' → P o' w) →
  triple (keeps r o) (load l) (λ o' w, keeps r o w ∧ P o' w) (λ _, keeps r o).
Proof.
  intros HP w Hw. unfold load. destruct (heap w !! l) eqn:Hl; [|done].
  split; [done|]. by apply HP.
Qed.

Lemma keeps_store r o l o' :
  l ≠ r →
  triple (keeps r o) (store l o') (λ _, keeps r o) (λ _, keeps r o).
Proof.
  intros Hne w Hw. simpl. unfold keeps in *. simpl.
  by rewrite list_lookup_insert_ne.
Qed.

Lemma keeps_setitem r o l key val :
  l ≠ r →
  triple (keeps r o) (setitem l key val) (λ _, keeps r o) (λ _, keeps r o).
Proof.
  intros Hne. unfold setitem.
  eapply triple_bind; [apply (keeps_load r o l (λ _ _, True)); done|].
  intros [d|d|xs]; simpl.
  - eapply triple_conseq; [by apply keeps_store|by intros ? [? ?]|done|done].
  - eapply triple_conseq; [by apply keeps_store|by intros ? [? ?]|done|done].
  - by intros w [Hw _].
Qed.

Lemma keeps_shuffle_in_place r o l :
  l ≠ r →
  triple (keeps r o) (shuffle_in_place np_random_shuffle l)
    (λ _, keeps r o) (λ _, keeps r o).
Proof.
  intros Hne. unfold shuffle_in_place.
  eapply triple_bind; [apply (keeps_load r o l (λ _ _, True)); done|].
  intros [d|d|xs]; simpl; try by intros w [Hw _].
  intros w [Hw _]. destruct (np_random_shuffle (rng w) xs) as [ys g'].
  unfold keeps in *. simpl. by rewrite list_lookup_insert_ne.
Qed.

Lemma keeps_len r o l :
  triple (keeps r o) (len l) (λ _, keeps r o) (λ _, keeps r o).
Proof.
  unfold len.
  eapply triple_bind; [apply (keeps_load r o l (λ _ _, True)); done|].
  by intros [d|d|xs] w [Hw _].
Qed.

Lemma keeps_list_elems r o l :
  triple (keeps r o) (list_elems l) (λ _, keeps r o) (λ _, keeps r o).
Proof.
  unfold list_elems.
  eapply triple_bind; [apply (keeps_load r o l (λ _ _, True)); done|].
  by intros [d|d|xs] w [Hw _].
Qed.

Lemma keeps_list_items r o l :
  triple (keeps r o) (list_items l) (λ l' w, keeps r o w ∧ l' ≠ r) (λ _, keeps r o).
Proof.
  unfold list_items.
  eapply triple_bind; [apply (keeps_load r o l (λ _ _, True)); done|].
  intros [d|d|xs]; simpl; try by intros w [Hw _].
  all: eapply triple_conseq; [apply keeps_new|by intros ? [? ?]|done|done].
Qed.

Lemma keeps_split_step r o l1 l2 k x :
  l1 ≠ r → l2 ≠ r →
  triple (keeps r o) (split_step l1 l2 k x) (λ _, keeps r o) (λ _, keeps r o).
Proof.
  intros H1 H2. destruct x as [i [key val]]. simpl.
  destruct (i <? k)%Z; by apply keeps_setitem.
Qed.

Lemma keeps_split_ratings r o ratings p shuffle :
  triple (keeps r o) (split_ratings np_random_shuffle ratings p shuffle)
    (λ _, keeps r o) (λ _, keeps r o).
Proof.
  unfold split_ratings.
  eapply triple_bind; [apply keeps_new|]. intros l1.
  apply triple_pure_pre; intros Hl1.
  eapply triple_bind; [apply keeps_new|]. intros l2.
  apply triple_pure_pre; intros Hl2.
  eapply triple_bind; [apply keeps_len|]. intros n.
  eapply triple_bind; [apply triple_lift_result_inv|]. intros k.
  eapply triple_bind; [apply keeps_list_items|]. intros it.
  apply triple_pure_pre; intros Hit.
  eapply (triple_bind _ _ _ (λ _, keeps r o)).
  { destruct shuffle; [by apply keeps_shuffle_in_place|by intros w Hw]. }
  intros ?. eapply triple_bind; [apply keeps_list_elems|]. intros xs.
  eapply (triple_bind _ _ _ (λ _, keeps r o)).
  { apply (triple_for_each (λ _, keeps r o)).
    intros ? x ? _. by apply keeps_split_step. }
  by intros ? w Hw.
Qed.

End SplitRatingsFacts.
(** *** The claims about [split_ratings] *)

Section SplitRatingsClaims.

Context {K Val : Type} `{EqDecision K}.
Context {G : Type} (np_random_shuffle : G → list (K * Val) → list (K * Val) * G).

Implicit Types (items d xs : list (K * Val)) (w : world (K:=K) (Val:=Val) (G:=G)).

(** The float nearest to 0.3. *)
Definition three_tenths : float := 0x1.3333333333333p-2%float.

Lemma floor_three_tenths_of_ten :
  floor_of_float (PrimFloat.mul three_tenths (float_of_len 10)) = Some 3%Z.
Proof. vm_compute. reflexivity. Qed.

(** C6. Without shuffling, for a proportion between 0 and 1,
    [split_ratings] returns a first group made of the first
    [floor(proportion * n)] items of the input, in their order, and a
    second group made of the remaining items, in their order; together
    they are the input, and no key occurs twice.  The product is the
    float product the code computes.  For ten items and the proportion
    0.3 the groups have 3 and 7 items. *)
Theorem split_ratings_in_order w ratings items p :
  heap w !! ratings = Some (Dict items) →
  NoDup items.*1 →
  unit_proportion p →
  (Z.of_nat (length items) < 2 ^ 53)%Z →
  ∃ k split_1 split_2 w',
    floor_of_float (PrimFloat.mul p (float_of_len (length items)))
      = Some (Z.of_nat k) ∧
    split_ratings np_random_shuffle ratings p false w = (Ok (split_1, split_2), w') ∧
    heap w' !! split_1 = Some (OrderedDict (take k items)) ∧
    heap w' !! split_2 = Some (OrderedDict (drop k items)) ∧
    length (take k items) = k ∧
    length (drop k items) = length items - k ∧
    take k items ++ drop k items = items ∧
    NoDup (take k items ++ drop k items).*1 ∧
    (length items = 10 → p = three_tenths → k = 3).
Proof.
  intros Hr Hnd Hp Hn.
  destruct (split_end_unit p (length items) Hp Hn) as (k & Hk & Hfl & Hk0).
  exists (Z.to_nat k), (length (heap w)), (Datatypes.S (length (heap w))).
  eexists. split_and!.
  - by rewrite Z2Nat.id by lia.
  - by apply (split_ratings_run np_random_shuffle w ratings items p false k).
  - simpl. rewrite lookup_app_r by lia. by rewrite Nat.sub_diag.
  - simpl. rewrite lookup_app_r by lia.
    by replace (Datatypes.S (length (heap w)) - length (heap w)) with 1 by lia.
  - rewrite length_take. lia.
  - by rewrite length_drop.
  - apply take_drop.
  - by rewrite take_drop.
  - intros Hlen ->. rewrite Hlen, floor_three_tenths_of_ten in Hfl.
    injection Hfl as <-. done.
Qed.

(** C10. For a proportion between 0 and 1 and either value of
    [shuffle], [split_ratings] returns two groups of
    [floor(proportion * n)] and [n - floor(proportion * n)] items which
    together hold exactly the items of the input, each once and with
    its value: no key is in both groups.  The shuffle of numpy returns
    a permutation of its list. *)
Theorem split_ratings_partitions w ratings items p shuffle :
  (∀ g xs, (np_random_shuffle g xs).1 ≡ₚ xs) →
  heap w !! ratings = Some (Dict items) →
  NoDup items.*1 →
  unit_proportion p →
  (Z.of_nat (length items) < 2 ^ 53)%Z →
  ∃ k split_1 split_2 w' d1 d2,
    floor_of_float (PrimFloat.mul p (float_of_len (length items)))
      = Some (Z.of_nat k) ∧
    split_ratings np_random_shuffle ratings p shuffle w = (Ok (split_1, split_2), w') ∧
    heap w' !! split_1 = Some (OrderedDict d1) ∧
    heap w' !! split_2 = Some (OrderedDict d2) ∧
    length d1 = k ∧
    length d2 = length items - k ∧
    d1 ++ d2 ≡ₚ items ∧
    NoDup (d1 ++ d2).*1 ∧
    (∀ key, key ∈ d1.*1 → key ∉ d2.*1).
Proof.
  intros Hperm Hr Hnd Hp Hn.
  destruct (split_end_unit p (length items) Hp Hn) as (k & Hk & Hfl & Hk0).
  set (xs := (split_order np_random_shuffle shuffle (rng w) items).1).
  assert (xs ≡ₚ items) as Hxs.
  { subst xs. unfold split_order. destruct shuffle; [apply Hperm|done]. }
  assert (NoDup xs.*1) as Hndx by (by rewrite Hxs).
  assert (length xs = length items) as Hlen by (by rewrite Hxs).
  exists (Z.to_nat k), (length (heap w)), (Datatypes.S (length (heap w))).
  eexists. exists (take (Z.to_nat k) xs), (drop (Z.to_nat k) xs). split_and!.
  - by rewrite Z2Nat.id by lia.
  - by apply (split_ratings_run np_random_shuffle w ratings items p shuffle k).
  - simpl. rewrite lookup_app_r by lia. by rewrite Nat.sub_diag.
  - simpl. rewrite lookup_app_r by lia.
    by replace (Datatypes.S (length (heap w)) - length (heap w)) with 1 by lia.
  - rewrite length_take. lia.
  - rewrite length_drop. lia.
  - by rewrite take_drop.
  - by rewrite take_drop.
  - intros key H1 H2. rewrite <- (take_drop (Z.to_nat k) xs), fmap_app in Hndx.
    apply NoDup_app in Hndx as (_ & Hdis & _). by apply (Hdis key).
Qed.

(** C9. [split_ratings] never writes to its input: whatever the
    proportion and the value of [shuffle], and whether the call returns
    or raises, the mapping passed in holds the same items in the same
    order afterwards.  The shuffle permutes a new list. *)
Theorem split_ratings_keeps_input w ratings items p shuffle :
  heap w !! ratings = Some (Dict items) →
  heap (split_ratings np_random_shuffle ratings p shuffle w).2 !! ratings =
    Some (Dict items).
Proof.
  intros Hr.
  pose proof (keeps_split_ratings np_random_shuffle ratings (Dict items)
                ratings p shuffle w Hr) as Hk.
  by destruct (split_ratings _ _ _ _ _) as [[[l1 l2]|e] w'].
Qed.

End SplitRatingsClaims.
(** ** Further properties of [split_ratings] *)

Section SplitRatingsMore.

Context {K Val : Type} `{EqDecision K}.
Context {G : Type} (np_random_shuffle : G → list (K * Val) → list (K * Val) * G).

Implicit Types (w : world (K:=K) (Val:=Val) (G:=G)).

(** A float that is a number: neither [nan] nor an infinity. *)
Definition finite_float (x : float) : Prop :=
  match Prim2SF x with
  | S754_zero _ | S754_finite _ _ _ => True
  | _ => False
  end.

(** The store once the two result objects exist. *)
Definition with_results w : world (K:=K) (Val:=Val) (G:=G) :=
  World (heap w ++ [OrderedDict []; OrderedDict []]) (rng w).

(** When [int(proportion * len(ratings))] raises, that is all the call
    has done. *)
Lemma split_ratings_no_split_end w ratings items p shuffle e :
  heap w !! ratings = Some (Dict items) →
  split_end p (length items) = Raise e →
  split_ratings np_random_shuffle ratings p shuffle w = (Raise e, with_results w).
Proof.
  intros Hr He. destruct w as [h g]. simpl in *.
  pose proof (lookup_lt_Some _ _ _ Hr) as Hlt.
  unfold split_ratings.
  rewrite (bind_ok _ _ _ _ _ (new_object_run _ _)). simpl.
  rewrite (bind_ok _ _ _ _ _ (new_object_run _ _)). simpl.
  rewrite <- app_assoc. simpl.
  assert ((h ++ [OrderedDict []; OrderedDict []]) !! ratings = Some (Dict items)) as Hr2
    by (by rewrite lookup_app_l).
  rewrite (bind_ok _ _ _ _ _ (len_dict (World _ g) _ _ Hr2)).
  rewrite He. done.
Qed.

(** X10. A proportion that is not a number is rejected: [split_ratings]
    raises [ValueError] when it converts the split point, having
    created the two empty result objects and nothing else; the items
    are not copied and the generator is not used. *)
Theorem split_ratings_rejects_nan w ratings items p shuffle :
  heap w !! ratings = Some (Dict items) →
  Prim2SF p = S754_nan →
  split_ratings np_random_shuffle ratings p shuffle w =
    (Raise ValueError, with_results w).
Proof.
  intros Hr Hp. apply (split_ratings_no_split_end _ _ items); [done|].
  unfold split_end, int_of_float. by rewrite FloatAxioms.mul_spec, Hp.
Qed.

(** X11. An infinite proportion is rejected as well, before the
    items are copied: with [OverflowError] for a mapping that has
    items, and with [ValueError] for an empty one, where the product
    is not a number. *)
Theorem split_ratings_rejects_infinite w ratings items p shuffle sign :
  heap w !! ratings = Some (Dict items) →
  Prim2SF p = S754_infinity sign →
  (Z.of_nat (length items) < 2 ^ 53)%Z →
  split_ratings np_random_shuffle ratings p shuffle w =
    (Raise (match items with [] => ValueError | _ => OverflowError end),
     with_results w).
Proof.
  intros Hr Hp Hn. apply (split_ratings_no_split_end _ _ items); [done|].
  unfold split_end, int_of_float. rewrite FloatAxioms.mul_spec, Hp.
  destruct items as [|x items]; [done|].
  destruct (float_of_len_pos (length (x :: items))) as (m & e & -> & _).
  { simpl length in *. lia. }
  done.
Qed.

(** The split point of a proportion that is a zero. *)
Lemma split_end_zero p sign n :
  Prim2SF p = S754_zero sign → (Z.of_nat n < 2 ^ 53)%Z → split_end p n = Ok 0%Z.
Proof.
  intros Hp Hn. pose proof (float_of_len_bound n Hn) as HN.
  unfold split_end, int_of_float. rewrite FloatAxioms.mul_spec, Hp.
  by destruct (Prim2SF (float_of_len n)).
Qed.

(** The split point of a finite negative proportion: none, when the
    product overflows, or an integer that is not positive. *)
Lemma split_end_negative p m e n :
  Prim2SF p = S754_finite true m e → (Z.of_nat n < 2 ^ 53)%Z →
  split_end p n = Raise OverflowError ∨ ∃ k, split_end p n = Ok k ∧ (k ≤ 0)%Z.
Proof.
  intros Hp Hn. pose proof (float_of_len_bound n Hn) as HN.
  unfold split_end, int_of_float. rewrite FloatAxioms.mul_spec, Hp.
  destruct (Prim2SF (float_of_len n)) as [s|s| |s my ey]; try done.
  - right. by exists 0%Z.
  - destruct HN as (-> & _). unfold SF64mul, SFmul. simpl xorb.
    pose proof (binary_round_aux_sign true (m * my) (e + ey)) as Hs.
    destruct (binary_round_aux _ _ _ _ _ _) as [s|s| |s m2 e2]; try done.
    + right. by exists 0%Z.
    + by left.
    + subst s. right. eexists. split; [done|].
      destruct e2 as [|k|k].
      * lia.
      * pose proof (Z.pow_pos_nonneg 2 (Zpos k)). nia.
      * rewrite Z.shiftr_div_pow2 by lia.
        pose proof (Z.pow_pos_nonneg 2 (Zpos k) ltac:(lia) ltac:(lia)).
        pose proof (Z.div_pos (Zpos m2) (2 ^ Zpos k) ltac:(lia) ltac:(lia)). lia.
Qed.

(** The call when the split point is not positive: the first group is
    empty. *)
Lemma split_ratings_first_empty w ratings items p shuffle k :
  (∀ g xs, (np_random_shuffle g xs).1 ≡ₚ xs) →
  heap w !! ratings = Some (Dict items) →
  NoDup items.*1 →
  split_end p (length items) = Ok k → (k ≤ 0)%Z →
  ∃ split_1 split_2 w',
    split_ratings np_random_shuffle ratings p shuffle w = (Ok (split_1, split_2), w') ∧
    heap w' !! split_1 = Some (OrderedDict []) ∧
    heap w' !! split_2 =
      Some (OrderedDict (split_order np_random_shuffle shuffle (rng w) items).1).
Proof.
  intros Hperm Hr Hnd Hk Hk0.
  set (xs := (split_order np_random_shuffle shuffle (rng w) items).1).
  assert (xs ≡ₚ items) as Hxs.
  { subst xs. unfold split_order. destruct shuffle; [apply Hperm|done]. }
  assert (NoDup xs.*1) as Hndx by (by rewrite Hxs).
  exists (length (heap w)), (Datatypes.S (length (heap w))). eexists. split_and!.
  - by apply (split_ratings_run np_random_shuffle w ratings items p shuffle k).
  - simpl. rewrite lookup_app_r by lia. rewrite Nat.sub_diag. simpl.
    by replace (Z.to_nat k) with 0 by lia.
  - simpl. rewrite lookup_app_r by lia.
    replace (Datatypes.S (length (heap w)) - length (heap w)) with 1 by lia.
    simpl. by replace (Z.to_nat k) with 0 by lia.
Qed.

(** X12. The proportion zero, of either sign, puts nothing in the first
    group: the second group holds every item, in the order of the
    input, or in the order the shuffle gave when it was asked for. *)
Theorem split_ratings_zero_proportion w ratings items p shuffle sign :
  (∀ g xs, (np_random_shuffle g xs).1 ≡ₚ xs) →
  heap w !! ratings = Some (Dict items) →
  NoDup items.*1 →
  Prim2SF p = S754_zero sign →
  (Z.of_nat (length items) < 2 ^ 53)%Z →
  ∃ split_1 split_2 w',
    split_ratings np_random_shuffle ratings p shuffle w = (Ok (split_1, split_2), w') ∧
    heap w' !! split_1 = Some (OrderedDict []) ∧
    heap w' !! split_2 =
      Some (OrderedDict (split_order np_random_shuffle shuffle (rng w) items).1).
Proof.
  intros Hperm Hr Hnd Hp Hn.
  apply (split_ratings_first_empty w ratings items p shuffle 0); try done.
  by apply (split_end_zero p sign).
Qed.

(** X13. A negative proportion is not rejected as such.  When it is
    finite the call either raises [OverflowError], the product being
    too large for a float, or returns an empty first group and a second
    group with every item. *)
Theorem split_ratings_negative_proportion w ratings items p shuffle m e :
  (∀ g xs, (np_random_shuffle g xs).1 ≡ₚ xs) →
  heap w !! ratings = Some (Dict items) →
  NoDup items.*1 →
  Prim2SF p = S754_finite true m e →
  (Z.of_nat (length items) < 2 ^ 53)%Z →
  split_ratings np_random_shuffle ratings p shuffle w =
    (Raise OverflowError, with_results w) ∨
  ∃ split_1 split_2 w',
    split_ratings np_random_shuffle ratings p shuffle w = (Ok (split_1, split_2), w') ∧
    heap w' !! split_1 = Some (OrderedDict []) ∧
    heap w' !! split_2 =
      Some (OrderedDict (split_order np_random_shuffle shuffle (rng w) items).1).
Proof.
  intros Hperm Hr Hnd Hp Hn.
  destruct (split_end_negative p m e (length items) Hp Hn) as [Hof|(k & Hk & Hk0)].
  - left. by apply (split_ratings_no_split_end _ _ items).
  - right. by apply (split_ratings_first_empty w ratings items p shuffle k).
Qed.

(** X14. An empty mapping splits into two empty groups for every
    proportion that is a number, whatever its sign and size. *)
Theorem split_ratings_empty_mapping w ratings p shuffle :
  (∀ g xs, (np_random_shuffle g xs).1 ≡ₚ xs) →
  heap w !! ratings = Some (Dict []) →
  finite_float p →
  ∃ split_1 split_2 w',
    split_ratings np_random_shuffle ratings p shuffle w = (Ok (split_1, split_2), w') ∧
    heap w' !! split_1 = Some (OrderedDict []) ∧
    heap w' !! split_2 = Some (OrderedDict []).
Proof.
  intros Hperm Hr Hp.
  assert (split_end p (length ([] : list (K * Val))) = Ok 0%Z) as Hk.
  { unfold split_end, int_of_float, finite_float in *.
    rewrite FloatAxioms.mul_spec.
    change (Prim2SF (float_of_len (length []))) with (S754_zero false).
    by destruct (Prim2SF p). }
  destruct (split_ratings_first_empty w ratings [] p shuffle 0 Hperm Hr
              ltac:(constructor) Hk ltac:(lia))
    as (split_1 & split_2 & w' & Hrun & H1 & H2).
  exists split_1, split_2, w'. split_and!; [done..|].
  rewrite H2. do 2 f_equal. apply Permutation_nil_r.
  unfold split_order. destruct shuffle; [apply Hperm|done].
Qed.

(** *** The generator and the objects of the caller *)

(** [steady g]: the generator is in state [g]. *)
Definition steady (g : G) : world (K:=K) (Val:=Val) (G:=G) → Prop :=
  λ w, rng w = g.

Lemma steady_load g l :
  triple (steady g) (load l) (λ _, steady g) (λ _, steady g).
Proof. intros w Hw. unfold load. by destruct (heap w !! l). Qed.

Lemma steady_setitem g l key val :
  triple (steady g) (setitem l key val) (λ _, steady g) (λ _, steady g).
Proof.
  unfold setitem. eapply triple_bind; [apply steady_load|].
  by intros [d|d|xs] w Hw.
Qed.

Lemma steady_split_step g l1 l2 k x :
  triple (steady g) (split_step l1 l2 k x) (λ _, steady g) (λ _, steady g).
Proof.
  destruct x as [i [key val]]. simpl.
  destruct (i <? k)%Z; apply steady_setitem.
Qed.

(** X15. Without shuffling, [split_ratings] leaves the global random
    generator in the state it found it, whatever the arguments and
    whether the call returns or raises. *)
Theorem split_ratings_in_order_keeps_generator w ratings p :
  rng (split_ratings np_random_shuffle ratings p false w).2 = rng w.
Proof.
  assert (triple (steady (rng w)) (split_ratings np_random_shuffle ratings p false)
            (λ _, steady (rng w)) (λ _, steady (rng w))) as Htr.
  { unfold split_ratings.
    eapply (triple_bind _ _ _ (λ _, steady (rng w))); [by intros ? ?|]. intros l1.
    eapply (triple_bind _ _ _ (λ _, steady (rng w))); [by intros ? ?|]. intros l2.
    eapply (triple_bind _ _ _ (λ _, steady (rng w))).
    { unfold len. eapply triple_bind; [apply steady_load|]. by intros [d|d|xs] ? ?. }
    intros n.
    eapply triple_bind; [apply triple_lift_result_inv|]. intros k.
    eapply (triple_bind _ _ _ (λ _, steady (rng w))).
    { unfold list_items. eapply triple_bind; [apply steady_load|].
      by intros [d|d|xs] ? ?. }
    intros it.
    eapply (triple_bind _ _ _ (λ _, steady (rng w))); [by intros ? ?|]. intros ?.
    eapply (triple_bind _ _ _ (λ _, steady (rng w))).
    { unfold list_elems. eapply triple_bind; [apply steady_load|].
      by intros [d|d|xs] ? ?. }
    intros xs.
    eapply (triple_bind _ _ _ (λ _, steady (rng w))).
    { apply (triple_for_each (λ _, steady (rng w))).
      intros ? x ? ?. apply steady_split_step. }
    by intros ? ? ?. }
  specialize (Htr w eq_refl).
  by destruct (split_ratings _ _ _ _ _) as [[?|?] ?].
Qed.

(** What a chain of steps that ends in [return a] returns. *)
Lemma bind_ret_inv {S A B} (c : M S A) (a b : B) (s s' : S) :
  (c ≫= λ _, mret a) s = (Ok b, s') → b = a.
Proof.
  unfold mbind, py_bind, Py.bind, mret, py_ret, Py.ret.
  destruct (c s) as [[x|e] s1]; congruence.
Qed.

Lemma bind_ok_inv {S A B} (c : M S A) (k : A → M S B) (b : B) (s s' : S) :
  (c ≫= k) s = (Ok b, s') → ∃ a s1, c s = (Ok a, s1) ∧ k a s1 = (Ok b, s').
Proof.
  unfold mbind, py_bind, Py.bind.
  destruct (c s) as [[x|e] s1]; [|done]. intros Hk. by exists x, s1.
Qed.

(** X16. The two groups [split_ratings] returns are objects it created:
    they are distinct, neither existed before the call, so no mapping
    of the caller is returned or shared, and every object that existed
    is as it was. *)
Theorem split_ratings_returns_new_objects w ratings p shuffle split_1 split_2 w' :
  split_ratings np_random_shuffle ratings p shuffle w = (Ok (split_1, split_2), w') →
  split_1 ≠ split_2 ∧
  heap w !! split_1 = None ∧ heap w !! split_2 = None ∧
  ∀ l o, heap w !! l = Some o → heap w' !! l = Some o.
Proof.
  intros Hrun.
  assert (∀ l o, heap w !! l = Some o → heap w' !! l = Some o) as Hframe.
  { intros l o Hl.
    pose proof (keeps_split_ratings np_random_shuffle l o ratings p shuffle w Hl) as Hk.
    by rewrite Hrun in Hk. }
  unfold split_ratings in Hrun.
  rewrite (bind_ok _ _ _ _ _ (new_object_run _ _)) in Hrun.
  rewrite (bind_ok _ _ _ _ _ (new_object_run _ _)) in Hrun.
  simpl in Hrun. rewrite length_app in Hrun. simpl in Hrun.
  apply bind_ok_inv in Hrun as (n & s1 & _ & Hrun).
  apply bind_ok_inv in Hrun as (k & s2 & _ & Hrun).
  apply bind_ok_inv in Hrun as (it & s3 & _ & Hrun).
  apply bind_ok_inv in Hrun as (? & s4 & _ & Hrun).
  apply bind_ok_inv in Hrun as (xs & s5 & _ & Hrun).
  apply bind_ret_inv in Hrun. injection Hrun as -> ->.
  split_and!; [lia| | |done]; apply lookup_ge_None; lia.
Qed.

(** X17. With shuffling, the groups are cut from the list numpy's
    shuffle made of the items: the first group holds its first
    [int(proportion * n)] items and the second the rest, both in the
    order of that list, and the generator is left in the state the
    shuffle left it in; it is used once, on the whole list. *)
Theorem split_ratings_shuffled_order w ratings items p :
  (∀ g xs, (np_random_shuffle g xs).1 ≡ₚ xs) →
  heap w !! ratings = Some (Dict items) →
  NoDup items.*1 →
  unit_proportion p →
  (Z.of_nat (length items) < 2 ^ 53)%Z →
  ∃ k split_1 split_2 w',
    split_end p (length items) = Ok (Z.of_nat k) ∧
    split_ratings np_random_shuffle ratings p true w = (Ok (split_1, split_2), w') ∧
    heap w' !! split_1 =
      Some (OrderedDict (take k (np_random_shuffle (rng w) items).1)) ∧
    heap w' !! split_2 =
      Some (OrderedDict (drop k (np_random_shuffle (rng w) items).1)) ∧
    rng w' = (np_random_shuffle (rng w) items).2.
Proof.
  intros Hperm Hr Hnd Hp Hn.
  destruct (split_end_unit p (length items) Hp Hn) as (k & Hk & _ & Hk0).
  assert (NoDup (split_order np_random_shuffle true (rng w) items).1.*1) as Hndx.
  { simpl. by rewrite Hperm. }
  exists (Z.to_nat k), (length (heap w)), (Datatypes.S (length (heap w))).
  eexists. split_and!.
  - by rewrite Z2Nat.id by lia.
  - by apply (split_ratings_run np_random_shuffle w ratings items p true k).
  - simpl. rewrite lookup_app_r by lia. by rewrite Nat.sub_diag.
  - simpl. rewrite lookup_app_r by lia.
    by replace (Datatypes.S (length (heap w)) - length (heap w)) with 1 by lia.
  - done.
Qed.

(** *** Splitting a group again *)

Lemma len_ordered_dict w r d :
  heap w !! r = Some (OrderedDict d) → len r w = (Ok (length d), w).
Proof. intros Hr. unfold len. by rewrite (bind_ok _ _ _ _ _ (load_object_run _ _ _ Hr)). Qed.

Lemma list_items_ordered_dict w r d :
  heap w !! r = Some (OrderedDict d) →
  list_items r w = (Ok (length (heap w)), World (heap w ++ [PyList d]) (rng w)).
Proof.
  intros Hr. unfold list_items.
  by rewrite (bind_ok _ _ _ _ _ (load_object_run _ _ _ Hr)).
Qed.

(** The call on an [OrderedDict], such as a group of an earlier split,
    without shuffling. *)
Lemma split_ratings_run_ordered w ratings items p k :
  heap w !! ratings = Some (OrderedDict items) →
  split_end p (length items) = Ok k →
  NoDup items.*1 →
  split_ratings np_random_shuffle ratings p false w =
    (Ok (length (heap w), Datatypes.S (length (heap w))),
     World (heap w ++
              [OrderedDict (take (Z.to_nat k) items);
               OrderedDict (drop (Z.to_nat k) items);
               PyList items])
           (rng w)).
Proof.
  intros Hr Hk Hnd. destruct w as [h g]. simpl in *.
  pose proof (lookup_lt_Some _ _ _ Hr) as Hlt.
  unfold split_ratings.
  rewrite (bind_ok _ _ _ _ _ (new_object_run _ _)). simpl.
  rewrite (bind_ok _ _ _ _ _ (new_object_run _ _)). simpl.
  rewrite <- app_assoc, length_app. simpl.
  assert ((h ++ [OrderedDict []; OrderedDict []]) !! ratings
          = Some (OrderedDict items)) as Hr2
    by (by rewrite lookup_app_l).
  rewrite (bind_ok _ _ _ _ _ (len_ordered_dict (World _ g) _ _ Hr2)).
  rewrite (bind_ok _ _ _ _ _ (lift_result_ok _ _ _ Hk)).
  rewrite (bind_ok _ _ _ _ _ (list_items_ordered_dict (World _ g) _ _ Hr2)). simpl.
  rewrite <- app_assoc, length_app. simpl.
  set (h1 := h ++ [OrderedDict []; OrderedDict []; PyList items]).
  assert (h1 !! (length h + 2) = Some (PyList items)) as Hit.
  { subst h1. rewrite lookup_app_r by lia.
    by replace (length h + 2 - length h) with 2 by lia. }
  rewrite (bind_ok _ _ tt (World h1 g) (World h1 g)) by done.
  rewrite (bind_ok _ _ _ _ _ (list_elems_run (World h1 g) _ _ Hit)).
  unfold enumerate.
  rewrite (bind_ok _ _ _ _ _ (split_loop items 0 (World h1 g) [] [] (length h)
             (length h + 1) k
             ltac:(lia)
             ltac:(subst h1; simpl; rewrite lookup_app_r by lia; by rewrite Nat.sub_diag)
             ltac:(subst h1; simpl; rewrite lookup_app_r by lia;
                   by replace (length h + 1 - length h) with 1 by lia)
             Hnd Hnd)).
  simpl. unfold mret, py_ret, Py.ret. subst h1. simpl.
  rewrite Z.sub_0_r.
  rewrite (insert_app_r_alt h _ (length h)) by lia.
  rewrite Nat.sub_diag. simpl.
  rewrite (insert_app_r h _ 1). simpl.
  do 3 f_equal; lia.
Qed.

(** X25. Splitting twice, as for a training, a validation and a test
    set: the first group of a split can be split again, and the three
    groups then are consecutive stretches of the input which together
    make it up, in its order; the second call leaves the groups of the
    first and the input as they were. *)
Theorem split_ratings_twice w ratings items p q :
  heap w !! ratings = Some (Dict items) →
  NoDup items.*1 →
  unit_proportion p → unit_proportion q →
  (Z.of_nat (length items) < 2 ^ 53)%Z →
  ∃ k1 k2 first rest w1 train validation w2,
    split_ratings np_random_shuffle ratings p false w = (Ok (first, rest), w1) ∧
    split_ratings np_random_shuffle first q false w1 = (Ok (train, validation), w2) ∧
    heap w2 !! train = Some (OrderedDict (take k2 (take k1 items))) ∧
    heap w2 !! validation = Some (OrderedDict (drop k2 (take k1 items))) ∧
    heap w2 !! rest = Some (OrderedDict (drop k1 items)) ∧
    heap w2 !! first = Some (OrderedDict (take k1 items)) ∧
    heap w2 !! ratings = Some (Dict items) ∧
    take k2 (take k1 items) ++ drop k2 (take k1 items) ++ drop k1 items = items.
Proof.
  intros Hr Hnd Hp Hq Hn.
  pose proof (lookup_lt_Some _ _ _ Hr) as Hlt.
  destruct (split_end_unit p (length items) Hp Hn) as (k1 & Hk1 & _ & Hk1n).
  assert (Z.of_nat (length (take (Z.to_nat k1) items)) < 2 ^ 53)%Z as Hn1.
  { rewrite length_take. lia. }
  destruct (split_end_unit q _ Hq Hn1) as (k2 & Hk2 & _ & Hk2n).
  assert (NoDup (take (Z.to_nat k1) items).*1) as Hnd1.
  { rewrite <- (take_drop (Z.to_nat k1) items), fmap_app in Hnd.
    by apply NoDup_app in Hnd as (? & _). }
  pose proof (split_ratings_run np_random_shuffle w ratings items p false k1
                Hr Hk1 Hnd) as Hrun1.
  simpl in Hrun1.
  set (w1 := World (heap w ++
                      [OrderedDict (take (Z.to_nat k1) items);
                       OrderedDict (drop (Z.to_nat k1) items);
                       PyList items]) (rng w)) in *.
  assert (heap w1 !! length (heap w)
          = Some (OrderedDict (take (Z.to_nat k1) items))) as Hfirst.
  { subst w1. simpl. rewrite lookup_app_r by lia. by rewrite Nat.sub_diag. }
  pose proof (split_ratings_run_ordered w1 _ _ q k2 Hfirst Hk2 Hnd1) as Hrun2.
  assert (heap w1 !! Datatypes.S (length (heap w))
          = Some (OrderedDict (drop (Z.to_nat k1) items))) as Hrest.
  { subst w1. simpl. rewrite lookup_app_r by lia.
    by replace (Datatypes.S (length (heap w)) - length (heap w)) with 1 by lia. }
  assert (heap w1 !! ratings = Some (Dict items)) as Hinput.
  { subst w1. simpl. by apply lookup_app_l_Some. }
  clearbody w1.
  exists (Z.to_nat k1), (Z.to_nat k2). eexists _, _, _, _, _, _.
  split; [exact Hrun1|]. split; [exact Hrun2|].
  simpl heap. split_and!.
  - rewrite lookup_app_r by lia. by rewrite Nat.sub_diag.
  - rewrite lookup_app_r by lia.
    by replace (Datatypes.S (length (heap w1)) - length (heap w1)) with 1 by lia.
  - by apply lookup_app_l_Some.
  - by apply lookup_app_l_Some.
  - by apply lookup_app_l_Some.
  - by rewrite app_assoc, !take_drop.
Qed.

(** X27. The proportion one puts every item in the first group, in
    input order or in the order the shuffle gave, and leaves the second
    group empty: the product of 1.0 and the length is the length, with
    no rounding. *)
Theorem split_ratings_whole_proportion w ratings items shuffle :
  (∀ g xs, (np_random_shuffle g xs).1 ≡ₚ xs) →
  heap w !! ratings = Some (Dict items) →
  NoDup items.*1 →
  (Z.of_nat (length items) < 2 ^ 53)%Z →
  ∃ split_1 split_2 w',
    split_ratings np_random_shuffle ratings PrimFloat.one shuffle w
      = (Ok (split_1, split_2), w') ∧
    heap w' !! split_1 =
      Some (OrderedDict (split_order np_random_shuffle shuffle (rng w) items).1) ∧
    heap w' !! split_2 = Some (OrderedDict []).
Proof.
  intros Hperm Hr Hnd Hn.
  pose proof (split_end_one (length items) Hn) as Hk.
  set (xs := (split_order np_random_shuffle shuffle (rng w) items).1).
  assert (xs ≡ₚ items) as Hxs.
  { subst xs. unfold split_order. destruct shuffle; [apply Hperm|done]. }
  assert (NoDup xs.*1) as Hndx by (by rewrite Hxs).
  assert (length xs = length items) as Hlen by (by rewrite Hxs).
  exists (length (heap w)), (Datatypes.S (length (heap w))). eexists. split_and!.
  - by apply (split_ratings_run np_random_shuffle w ratings items PrimFloat.one
                shuffle (Z.of_nat (length items))).
  - simpl. rewrite lookup_app_r by lia. rewrite Nat.sub_diag. simpl.
    fold xs. by rewrite Nat2Z.id, take_ge by lia.
  - simpl. rewrite lookup_app_r by lia.
    replace (Datatypes.S (length (heap w)) - length (heap w)) with 1 by lia.
    simpl. fold xs. by rewrite Nat2Z.id, drop_ge by lia.
Qed.

End SplitRatingsMore.
(** ** Facts about the SLIM recommender *)

Import Slim.

(** *** Sparse matrices *)

Section MatrixFacts.

Context `{Scalar V}.
Implicit Types (A B X : matrix V) (c y : list V) (m : gmap (nat * nat) V).

Lemma lookup_set_cells c : ∀ j i0 m i j',
  set_cells j i0 c m !! (i, j') =
    if decide (j' = j ∧ i0 ≤ i < i0 + length c) then c !! (i - i0)
    else m !! (i, j').
Proof.
  induction c as [|x c IH]; intros j i0 m i j'; simpl.
  - case_decide; [lia|done].
  - destruct (decide ((i0, j) = (i, j'))) as [Heq|Hne].
    + injection Heq as -> ->. rewrite lookup_insert_eq.
      rewrite decide_True by lia. by rewrite Nat.sub_diag.
    + rewrite lookup_insert_ne by done. rewrite IH.
      destruct (decide (j' = j ∧ Datatypes.S i0 ≤ i < Datatypes.S i0 + length c))
        as [[-> Hi]|Hn].
      * rewrite decide_True by lia.
        by replace (i - i0) with (Datatypes.S (i - Datatypes.S i0)) by lia.
      * rewrite decide_False; [done|].
        intros [-> Hi]. apply Hn. split; [done|].
        assert (i ≠ i0) by congruence. lia.
Qed.

Lemma getitem_set_column A j c i j' :
  getitem (set_column A j c) i j' =
    if decide (j' = j ∧ i < length c) then default zero (c !! i)
    else getitem A i j'.
Proof.
  unfold getitem, set_column. simpl. rewrite lookup_set_cells.
  rewrite Nat.sub_0_r.
  destruct (decide (j' = j ∧ i < length c)) as [[-> Hi]|Hn].
  - by rewrite decide_True by lia.
  - rewrite decide_False; [done|]. intros [-> ?]. apply Hn. split; [done|lia].
Qed.

Lemma getitem_set_item A i0 j0 x i j :
  getitem (set_item A i0 j0 x) i j =
    if decide (i = i0 ∧ j = j0) then x else getitem A i j.
Proof.
  unfold getitem, set_item. simpl.
  destruct (decide (i = i0 ∧ j = j0)) as [[-> ->]|Hn].
  - by rewrite lookup_insert_eq.
  - rewrite lookup_insert_ne; [done|]. intros [= -> ->]. by apply Hn.
Qed.

Lemma getitem_to_format f A i j : getitem (to_format f A) i j = getitem A i j.
Proof. done. Qed.

Lemma length_column A j : length (column A j) = nrows A.
Proof. unfold column. by rewrite length_fmap, length_seq. Qed.

Lemma lookup_column A j i :
  i < nrows A → column A j !! i = Some (getitem A i j).
Proof.
  intros Hi. unfold column. rewrite list_lookup_fmap, lookup_seq_lt by done. done.
Qed.

Lemma length_row A i : length (row A i) = ncols A.
Proof. unfold row. by rewrite length_fmap, length_seq. Qed.

(** [same_values] is an equivalence. *)
Lemma same_values_refl A : same_values A A.
Proof. by split. Qed.

Lemma same_values_sym A B : same_values A B → same_values B A.
Proof. intros [Hs Hv]. split; [done|]. intros i j. by rewrite Hv. Qed.

Lemma same_values_trans A B X :
  same_values A B → same_values B X → same_values A X.
Proof.
  intros [Hs Hv] [Hs' Hv']. split; [congruence|].
  intros i j. by rewrite Hv, Hv'.
Qed.

Lemma same_values_nrows A B : same_values A B → nrows A = nrows B.
Proof. intros [Hs _]. unfold nrows. by rewrite Hs. Qed.

Lemma same_values_ncols A B : same_values A B → ncols A = ncols B.
Proof. intros [Hs _]. unfold ncols. by rewrite Hs. Qed.

Lemma same_values_column A B j : same_values A B → column A j = column B j.
Proof.
  intros HAB. unfold column. rewrite (same_values_nrows _ _ HAB).
  apply list_fmap_ext. intros _ i _. apply HAB.
Qed.

Lemma same_values_to_format f A : same_values (to_format f A) A.
Proof. by split. Qed.

(** Column [j] set to zero, as the leave-one-out step does. *)
Definition zeroed A (j : nat) : matrix V :=
  set_column A j (replicate (nrows A) zero).

Lemma getitem_zeroed A j i j' :
  i < nrows A →
  getitem (zeroed A j) i j' = if decide (j' = j) then zero else getitem A i j'.
Proof.
  intros Hi. unfold zeroed. rewrite getitem_set_column, length_replicate.
  destruct (decide (j' = j)) as [->|Hne].
  - rewrite decide_True by done. by rewrite lookup_replicate_2.
  - rewrite decide_False; [done|]. by intros [? ?].
Qed.

Lemma same_values_zeroed A B j : same_values A B → same_values (zeroed A j) (zeroed B j).
Proof.
  intros HAB. split; [apply HAB|]. intros i j'.
  unfold zeroed. rewrite !getitem_set_column, (same_values_nrows _ _ HAB).
  case_decide; [done|]. apply HAB.
Qed.

(** Writing the saved column back undoes the zeroing, value by value. *)
Lemma same_values_restore A j :
  same_values (set_column (zeroed A j) j (column A j)) A.
Proof.
  split; [done|]. intros i j'.
  rewrite getitem_set_column, length_column.
  destruct (decide (j' = j ∧ i < nrows A)) as [[-> Hi]|Hn].
  - by rewrite lookup_column.
  - unfold zeroed. rewrite getitem_set_column, length_replicate.
    by rewrite decide_False.
Qed.

(** Every cell of the product is a dot product. *)
Lemma getitem_product A B i j :
  i < nrows A → j < ncols B →
  getitem (product A B) i j = dot (row A i) (column B j).
Proof.
  intros Hi Hj. unfold product.
  assert (∀ js, getitem
    (foldr (λ j P, set_column P j ((λ i, dot (row A i) (column B j)) <$> seq 0 (nrows A)))
       (Matrix CSR (nrows A, ncols B) ∅) js) i j
    = if decide (j ∈ js) then dot (row A i) (column B j) else zero) as Hfold.
  { induction js as [|j0 js IH]; cbn [foldr].
    - case_decide as Hin; [by apply elem_of_nil in Hin|].
      unfold getitem. simpl. by rewrite lookup_empty.
    - rewrite getitem_set_column, length_fmap, length_seq.
      destruct (decide (j = j0)) as [->|Hne].
      + rewrite decide_True by done. rewrite decide_True by apply list_elem_of_here.
        rewrite list_lookup_fmap, lookup_seq_lt by done. done.
      + rewrite decide_False by (by intros [? ?]). rewrite IH.
        destruct (decide (j ∈ js)).
        * rewrite decide_True; [done|]. by apply list_elem_of_further.
        * rewrite decide_False; [done|]. rewrite elem_of_cons. by intros [?|?]. }
  rewrite Hfold. rewrite decide_True; [done|].
  apply elem_of_seq. lia.
Qed.

Lemma shape_product A B : shape (product A B) = (nrows A, ncols B).
Proof.
  unfold product. induction (seq 0 (ncols B)) as [|j js IH]; [done|]. simpl. done.
Qed.

(** The one-row matrix of a vector starts with its first value. *)
Lemma getitem_row_matrix c : getitem (row_matrix c) 0 0 = default zero (c !! 0).
Proof.
  unfold getitem, row_matrix. simpl. destruct c as [|x c]; simpl.
  - by rewrite lookup_empty.
  - by rewrite lookup_insert_eq.
Qed.

(** Written to a column, a one-row matrix gives its first value to
    every row. *)
Lemma broadcast_row_matrix A c :
  broadcast_column A (row_matrix c) = replicate (nrows A) (default zero (c !! 0)).
Proof.
  unfold broadcast_column. case_decide as Hr; [|by rewrite getitem_row_matrix].
  unfold column. rewrite <- Hr. simpl. by rewrite getitem_row_matrix.
Qed.

End MatrixFacts.
(** *** The store operations, run on a known store *)

Section StoreFacts.

Context `{Scalar V, Solver V}.
Implicit Types (A B X : matrix V) (c y : list V) (w : world V).

Lemma load_run w r A : heap w !! r = Some A → load r w = (Ok A, w).
Proof. intros Hr. unfold load. by rewrite Hr. Qed.

Lemma load_dangling w r : heap w !! r = None → load r w = (Raise TypeError, w).
Proof. intros Hr. unfold load. by rewrite Hr. Qed.

Lemma column_toarray_run w r A j :
  heap w !! r = Some A → j < ncols A →
  column_toarray r j w = (Ok (column A j), w).
Proof.
  intros Hr Hj. unfold column_toarray.
  rewrite (bind_ok _ _ _ _ _ (load_run _ _ _ Hr)). by rewrite decide_True.
Qed.

Lemma column_toarray_out_of_range w r A j :
  heap w !! r = Some A → ¬ j < ncols A →
  column_toarray r j w = (Raise IndexError, w).
Proof.
  intros Hr Hj. unfold column_toarray.
  rewrite (bind_ok _ _ _ _ _ (load_run _ _ _ Hr)). by rewrite decide_False.
Qed.

Lemma assign_column_scalar_run w r A j x :
  heap w !! r = Some A → j < ncols A →
  assign_column_scalar r j x w =
    (Ok tt, set_heap (<[r := set_column A j (replicate (nrows A) x)]> (heap w)) w).
Proof.
  intros Hr Hj. unfold assign_column_scalar.
  rewrite (bind_ok _ _ _ _ _ (load_run _ _ _ Hr)). by rewrite decide_True.
Qed.

Lemma assign_column_run w r A j c :
  heap w !! r = Some A → j < ncols A → length c = nrows A →
  assign_column r j c w = (Ok tt, set_heap (<[r := set_column A j c]> (heap w)) w).
Proof.
  intros Hr Hj Hc. unfold assign_column.
  rewrite (bind_ok _ _ _ _ _ (load_run _ _ _ Hr)). by rewrite !decide_True.
Qed.

Lemma assign_column_mismatch w r A j c :
  heap w !! r = Some A → j < ncols A → length c ≠ nrows A →
  assign_column r j c w = (Raise ValueError, w).
Proof.
  intros Hr Hj Hc. unfold assign_column.
  rewrite (bind_ok _ _ _ _ _ (load_run _ _ _ Hr)).
  rewrite decide_True by done. by rewrite decide_False.
Qed.

Lemma assign_item_run w r A i j x :
  heap w !! r = Some A → i < nrows A → j < ncols A →
  assign_item r i j x w = (Ok tt, set_heap (<[r := set_item A i j x]> (heap w)) w).
Proof.
  intros Hr Hi Hj. unfold assign_item.
  rewrite (bind_ok _ _ _ _ _ (load_run _ _ _ Hr)). by rewrite decide_True.
Qed.

Lemma fit_run_ok w r A y c :
  heap w !! r = Some A →
  elastic_net (params (model w)) A y = Ok c →
  fit r y w =
    (Ok tt, set_model (Estimator (params (model w)) (Some c)) (record (Fit A y) w)).
Proof.
  intros Hr Hc. unfold fit.
  rewrite (bind_ok _ _ _ _ _ (load_run _ _ _ Hr)).
  unfold mbind, py_bind, Py.bind, modify, gets, lift_result. simpl. by rewrite Hc.
Qed.

Lemma fit_run_raise w r A y e :
  heap w !! r = Some A →
  elastic_net (params (model w)) A y = Raise e →
  fit r y w = (Raise e, record (Fit A y) w).
Proof.
  intros Hr Hc. unfold fit.
  rewrite (bind_ok _ _ _ _ _ (load_run _ _ _ Hr)).
  unfold mbind, py_bind, Py.bind, modify, gets, lift_result. simpl. by rewrite Hc.
Qed.

Lemma assign_column_sparse_run w r A j c :
  heap w !! r = Some A → j < ncols A → length c = 1 →
  assign_column_sparse r j (row_matrix c) w =
    (Ok tt,
     set_heap (<[r := set_column A j (replicate (nrows A) (default zero (c !! 0)))]>
                 (heap w)) w).
Proof.
  intros Hr Hj Hc. unfold assign_column_sparse.
  rewrite (bind_ok _ _ _ _ _ (load_run _ _ _ Hr)).
  rewrite decide_True by done.
  rewrite decide_True by (split; [exact Hc|by left]).
  by rewrite broadcast_row_matrix.
Qed.

(** A vector of coefficients that is not a single one does not fit a
    column: its matrix has one row and a column per coefficient. *)
Lemma assign_column_sparse_mismatch w r A j c :
  heap w !! r = Some A → j < ncols A → length c ≠ 1 →
  assign_column_sparse r j (row_matrix c) w = (Raise ValueError, w).
Proof.
  intros Hr Hj Hc. unfold assign_column_sparse.
  rewrite (bind_ok _ _ _ _ _ (load_run _ _ _ Hr)).
  rewrite decide_True by done.
  rewrite decide_False; [done|]. by intros [Hn _].
Qed.

Lemma sparse_coef_run w c :
  coef_ (model w) = Some c → sparse_coef_ w = (Ok (row_matrix c), w).
Proof.
  intros Hc. unfold sparse_coef_, mbind, py_bind, Py.bind, gets. by rewrite Hc.
Qed.

Lemma weights_run w r : _weights w = Some r → weights w = (Ok r, w).
Proof.
  intros Hr. unfold weights, mbind, py_bind, Py.bind, gets. by rewrite Hr.
Qed.

Lemma to_same_format w r A f :
  heap w !! r = Some A → fmt A = f → to f r w = (Ok r, w).
Proof.
  intros Hr Hf. unfold to.
  rewrite (bind_ok _ _ _ _ _ (load_run _ _ _ Hr)). by rewrite decide_True.
Qed.

Lemma to_other_format w r A f :
  heap w !! r = Some A → fmt A ≠ f →
  to f r w = (Ok (length (heap w)), set_heap (heap w ++ [to_format f A]) w).
Proof.
  intros Hr Hf. unfold to.
  rewrite (bind_ok _ _ _ _ _ (load_run _ _ _ Hr)). by rewrite decide_False.
Qed.

(** One iteration, whatever the solver answers.  The coefficients fit
    the column of the weights only when there is a single one, which
    is then written to every row.  The store the iteration leaves has
    column [i] of the working matrix zeroed when it raises after the
    zeroing. *)
Lemma fit_item_run w ratings wl X Wd i :
  heap w !! ratings = Some X →
  heap w !! wl = Some Wd →
  _weights w = Some wl →
  ratings ≠ wl →
  i < ncols X → i < nrows Wd → i < ncols Wd →
  let y := column X i in
  let Xz := zeroed X i in
  let w1 := record (Fit Xz y) (set_heap (<[ratings := Xz]> (heap w)) w) in
  fit_item ratings i w =
    match elastic_net (params (model w)) Xz y with
    | Raise e => (Raise e, w1)
    | Ok c =>
        let w2 := set_model (Estimator (params (model w)) (Some c)) w1 in
        if decide (length c = 1) then
          (Ok tt,
           set_heap (<[ratings := set_column Xz i y]>
                       (<[wl := set_item
                                  (set_column Wd i
                                     (replicate (nrows Wd) (default zero (c !! 0))))
                                  i i zero]> (heap w2))) w2)
        else (Raise ValueError, w2)
    end.
Proof.
  intros Hr Hw Hwl Hne Hi Hi1 Hi2 y Xz w1.
  pose proof (lookup_lt_Some _ _ _ Hr) as Lr.
  pose proof (lookup_lt_Some _ _ _ Hw) as Lw.
  unfold fit_item.
  rewrite (bind_ok _ _ _ _ _ (column_toarray_run _ _ _ _ Hr Hi)).
  rewrite (bind_ok _ _ _ _ _ (assign_column_scalar_run _ _ _ _ _ Hr Hi)).
  fold (zeroed X i). fold Xz y.
  set (wa := set_heap (<[ratings := Xz]> (heap w)) w).
  assert (heap wa !! ratings = Some Xz) as Hra by (by apply list_lookup_insert_eq).
  destruct (elastic_net (params (model w)) Xz y) as [c|e] eqn:Hsolve.
  - rewrite (bind_ok _ _ _ _ _ (fit_run_ok wa _ _ _ _ Hra Hsolve)).
    fold w1. set (w2 := set_model _ w1).
    change (set_model _ (record _ wa)) with w2.
    rewrite (bind_ok _ _ _ _ _ (sparse_coef_run w2 c eq_refl)).
    rewrite (bind_ok _ _ _ _ _ (weights_run w2 wl Hwl)).
    assert (heap w2 !! wl = Some Wd) as Hw2.
    { simpl. by rewrite list_lookup_insert_ne. }
    destruct (decide (length c = 1)) as [Hc|Hc].
    + rewrite (bind_ok _ _ _ _ _ (assign_column_sparse_run w2 _ _ _ _ Hw2 Hi2 Hc)).
      set (w3 := set_heap _ w2).
      assert (heap w3 !! wl
              = Some (set_column Wd i (replicate (nrows Wd) (default zero (c !! 0)))))
        as Hw3.
      { simpl. rewrite list_lookup_insert_eq; [done|]. by rewrite length_insert. }
      rewrite (bind_ok _ _ _ _ _ (assign_item_run w3 _ _ i i zero Hw3 Hi1 Hi2)).
      set (w4 := set_heap _ w3).
      assert (heap w4 !! ratings = Some Xz) as Hr4.
      { simpl. rewrite !list_lookup_insert_ne by done.
        by rewrite list_lookup_insert_eq. }
      assert (length y = nrows Xz) as Hy by exact (length_column X i).
      assert (i < ncols Xz) as Hiz by exact Hi.
      rewrite (assign_column_run w4 _ _ _ _ Hr4 Hiz Hy).
      subst w4 w3. simpl. by rewrite list_insert_insert_eq.
    + by rewrite (bind_raise _ _ _ _ _
                    (assign_column_sparse_mismatch w2 _ _ _ _ Hw2 Hi2 Hc)).
  - by rewrite (bind_raise _ _ _ _ _ (fit_run_raise wa _ _ _ _ Hra Hsolve)).
Qed.

Lemma fit_item_out_of_range w ratings X i :
  heap w !! ratings = Some X → ¬ i < ncols X →
  fit_item ratings i w = (Raise IndexError, w).
Proof.
  intros Hr Hi. unfold fit_item.
  by rewrite (bind_raise _ _ _ _ _ (column_toarray_out_of_range _ _ _ _ Hr Hi)).
Qed.

End StoreFacts.
(** *** The training loop *)

Section TrainingLoop.

Context `{Scalar V, Solver V}.

(** What stays fixed while the loop runs: the number of items, the
    hyperparameters, the references of the stored rating matrix, of the
    matrix the loop works on and of the weights under construction, the
    rating matrix before training, and the store and the calls when
    the loop starts. *)
Variables (n : nat) (ps : hyperparameters V) (rl ratings wl : ref).
Variables (R0 : matrix V) (h1 : list (matrix V)) (calls0 : list (event V)).

Implicit Types (X W : matrix V) (w : world V).

(** One finished iteration: the design matrix and the target the solver
    was given, and the coefficients it returned. *)
Abbreviation fitted := (matrix V * list V * list V)%type.

(** Iteration [i] fitted column [i] of the ratings against the ratings
    with that column zeroed; the solver answered with a single
    coefficient, which went to every row of column [i] of [W], and the
    diagonal cell was then set to zero. *)
Definition fitted_column W (i : nat) (f : fitted) : Prop :=
  i < ncols R0 ∧
  same_values f.1.1 (zeroed R0 i) ∧
  f.1.2 = column R0 i ∧
  elastic_net ps f.1.1 f.1.2 = Ok f.2 ∧
  length f.2 = 1 ∧
  ∀ j, j < n → getitem W j i = if decide (j = i) then zero else default zero (f.2 !! 0).

Definition fit_event (f : fitted) : event V := Fit f.1.1 f.1.2.

Record loop_inv (fits : list fitted) w : Prop := LoopInv {
  inv_ratings : ∃ X, heap w !! ratings = Some X ∧ same_values X R0;
  inv_weights : ∃ W, heap w !! wl = Some W ∧ shape W = (n, n) ∧ fmt W = DOK ∧
                  (∀ i f, fits !! i = Some f → fitted_column W i f) ∧
                  (∀ j i, length fits ≤ i ∨ n ≤ j → getitem W j i = zero);
  inv_distinct : ratings ≠ wl;
  inv_self : _weights w = Some wl ∧ _ratings w = rl ∧ _items w = n ∧
             params (model w) = ps;
  inv_calls : calls w = calls0 ++ (fit_event <$> fits);
  inv_frame : length (heap w) = length h1 ∧
              ∀ l, l ≠ ratings → l ≠ wl → heap w !! l = h1 !! l;
}.

(** The store after a raise in iteration [i], once the column has been
    zeroed: the column is still zero, and the weights hold nothing for
    the items from [i] on. *)
Definition stuck (i : nat) w : Prop :=
  (∃ X, heap w !! ratings = Some X ∧ same_values X (zeroed R0 i)) ∧
  _ratings w = rl ∧
  (∀ l, l ≠ ratings → l ≠ wl → heap w !! l = h1 !! l) ∧
  _weights w = Some wl ∧
  ∃ W, heap w !! wl = Some W ∧ shape W = (n, n) ∧
       ∀ j i', i ≤ i' ∨ n ≤ j → getitem W j i' = zero.

(** How the iteration of an item ends in a raise after the zeroing:
    the solver raises, or it answers with coefficients that do not fit
    a column of the weights. *)
Definition raises_in_iteration (e : exn) (r : result (list V)) : Prop :=
  r = Raise e ∨ (e = ValueError ∧ ∃ c, r = Ok c ∧ length c ≠ 1).

Lemma fit_item_step fits w :
  loop_inv fits w → length fits < n → length fits < ncols R0 →
  ∃ X, heap w !! ratings = Some X ∧ same_values X R0 ∧
    match elastic_net ps (zeroed X (length fits)) (column R0 (length fits)) with
    | Ok c =>
        if decide (length c = 1) then
          ∃ w', fit_item ratings (length fits) w = (Ok tt, w') ∧
                loop_inv (fits ++ [(zeroed X (length fits), column R0 (length fits), c)]) w'
        else
          ∃ w', fit_item ratings (length fits) w = (Raise ValueError, w') ∧
                stuck (length fits) w'
    | Raise e =>
        ∃ w', fit_item ratings (length fits) w = (Raise e, w') ∧
              stuck (length fits) w'
    end.
Proof.
  intros [(X & HX & HXR) (W & HW & HWs & HWf & Hcols & Hzero) Hne
          (Hwl & Hrl & Hn & Hps) Hcalls (Hlen & Hframe)] Hi Hic.
  set (i := length fits) in *.
  exists X. split_and!; [done..|].
  pose proof (lookup_lt_Some _ _ _ HX) as LX.
  pose proof (lookup_lt_Some _ _ _ HW) as LW.
  assert (nrows W = n ∧ ncols W = n) as [HWr HWc].
  { unfold nrows, ncols. by rewrite HWs. }
  assert (i < ncols X) as HiX by (by rewrite (same_values_ncols _ _ HXR)).
  pose proof (fit_item_run w ratings wl X W i HX HW Hwl Hne HiX
                ltac:(lia) ltac:(lia)) as Hrun.
  simpl in Hrun. rewrite Hps, (same_values_column _ _ i HXR), HWr in Hrun.
  assert (ratings < length (heap w) ∧ wl < length (heap w)) as [Lr Lwl] by done.
  assert (same_values (zeroed X i) (zeroed R0 i)) as HXz
    by (by apply same_values_zeroed).
  assert (∀ w', heap w' = <[ratings := zeroed X i]> (heap w) →
                _ratings w' = _ratings w → _weights w' = _weights w →
                stuck i w') as Hstuck.
  { intros w' Hh Hr Hws. split_and!.
    - exists (zeroed X i). split; [|done]. rewrite Hh. by apply list_lookup_insert_eq.
    - by rewrite Hr.
    - intros l Hl1 Hl2. rewrite Hh, list_lookup_insert_ne by done. by apply Hframe.
    - by rewrite Hws.
    - exists W. split_and!; [|done|].
      + rewrite Hh. by rewrite list_lookup_insert_ne.
      + intros j i' Hji. by apply Hzero. }
  destruct (elastic_net ps (zeroed X i) (column R0 i)) as [c|e] eqn:Hsolve.
  - destruct (decide (length c = 1)) as [Hc|Hc].
    + eexists. split; [exact Hrun|]. split.
      * eexists. split; [simpl; apply list_lookup_insert_eq;
                         by rewrite !length_insert|].
        rewrite <- (same_values_column _ _ i HXR).
        eapply same_values_trans; [apply same_values_restore|done].
      * eexists. split_and!.
        -- simpl. rewrite list_lookup_insert_ne by done.
           apply list_lookup_insert_eq. by rewrite length_insert.
        -- done.
        -- done.
        -- intros i' f Hf. apply lookup_app_Some in Hf as [Hf|[Hge Hf]].
           ++ destruct (Hcols i' f Hf) as (F1 & F2 & F3 & F4 & F5 & F6).
              pose proof (lookup_lt_Some _ _ _ Hf) as Hi'.
              split_and!; try done. intros j Hj.
              rewrite getitem_set_item, getitem_set_column, length_replicate.
              rewrite decide_False by (fold i in Hi'; lia).
              rewrite decide_False by (fold i in Hi'; lia).
              by apply F6.
           ++ apply list_lookup_singleton_Some in Hf as [Hi' <-].
              fold i in Hge, Hi'. assert (i' = i) as -> by lia.
              split_and!; try done. intros j Hj. simpl.
              rewrite getitem_set_item, getitem_set_column.
              destruct (decide (j = i)) as [->|Hji].
              ** by rewrite decide_True.
              ** rewrite decide_False by (by intros [? ?]).
                 rewrite length_replicate, decide_True by (split; [done|lia]).
                 by rewrite lookup_replicate_2 by lia.
        -- intros j i' Hji. rewrite length_app in Hji. simpl in Hji. fold i in Hji.
           rewrite getitem_set_item, getitem_set_column, length_replicate.
           rewrite decide_False by lia. rewrite decide_False by lia.
           apply Hzero. fold i. lia.
      * done.
      * done.
      * simpl. rewrite Hcalls, fmap_app, app_assoc. done.
      * split.
        -- simpl. by rewrite !length_insert.
        -- intros l Hl1 Hl2. simpl. rewrite !list_lookup_insert_ne by done.
           by apply Hframe.
    + eexists. split; [exact Hrun|]. by apply Hstuck.
  - eexists. split; [exact Hrun|]. by apply Hstuck.
Qed.

Lemma fit_item_beyond fits w :
  loop_inv fits w → ¬ length fits < ncols R0 →
  fit_item ratings (length fits) w = (Raise IndexError, w).
Proof.
  intros [(X & HX & HXR) _ _ _ _ _] Hi.
  apply (fit_item_out_of_range _ _ X); [done|].
  by rewrite (same_values_ncols _ _ HXR).
Qed.

(** A loop that returns has kept the invariant. *)
Lemma loop_returns m : ∀ fits w w',
  loop_inv fits w → length fits + m ≤ n →
  for_each (seq (length fits) m) (fit_item ratings) w = (Ok tt, w') →
  ∃ fits', length fits' = m ∧ loop_inv (fits ++ fits') w'.
Proof.
  induction m as [|m IH]; intros fits w w' Hinv Hm Hrun.
  - simpl in Hrun. injection Hrun as <-. exists []. by rewrite app_nil_r.
  - simpl in Hrun. unfold Py.bind in Hrun.
    destruct (decide (length fits < ncols R0)) as [Hi|Hi].
    + destruct (fit_item_step fits w Hinv ltac:(lia) Hi) as (X & _ & _ & Hstep).
      destruct (elastic_net ps _ _) as [c|e].
      * destruct (decide (length c = 1)) as [Hc|Hc].
        -- destruct Hstep as (w1 & Hw1 & Hinv1). rewrite Hw1 in Hrun.
           set (f := (zeroed X (length fits), column R0 (length fits), c)) in *.
           destruct (IH (fits ++ [f]) w1 w' Hinv1) as (fits' & Hlen & Hinv').
           { rewrite length_app. simpl. lia. }
           { rewrite length_app. simpl.
             by replace (length fits + 1) with (Datatypes.S (length fits)) by lia. }
           exists (f :: fits'). split; [simpl; lia|].
           by rewrite <- app_assoc in Hinv'.
        -- destruct Hstep as (w1 & Hw1 & _). by rewrite Hw1 in Hrun.
      * destruct Hstep as (w1 & Hw1 & _). by rewrite Hw1 in Hrun.
    + by rewrite (fit_item_beyond fits w Hinv Hi) in Hrun.
Qed.

(** When the solver answers every item of the range with a single
    coefficient, the loop returns. *)
Lemma loop_runs m : ∀ fits w,
  loop_inv fits w → length fits + m ≤ n → length fits + m ≤ ncols R0 →
  (∀ i X, length fits ≤ i < length fits + m →
     same_values X (zeroed R0 i) →
     ∃ c, elastic_net ps X (column R0 i) = Ok c ∧ length c = 1) →
  ∃ w' fits',
    for_each (seq (length fits) m) (fit_item ratings) w = (Ok tt, w') ∧
    length fits' = m ∧ loop_inv (fits ++ fits') w'.
Proof.
  induction m as [|m IH]; intros fits w Hinv Hm Hn Hsolve.
  - exists w, []. by rewrite app_nil_r.
  - destruct (fit_item_step fits w Hinv ltac:(lia) ltac:(lia))
      as (X & _ & HXR & Hstep).
    destruct (Hsolve (length fits) (zeroed X (length fits)) ltac:(lia)
                (same_values_zeroed _ _ _ HXR)) as (c & Hc & Hlen).
    rewrite Hc, decide_True in Hstep by done.
    destruct Hstep as (w1 & Hw1 & Hinv1).
    set (f := (zeroed X (length fits), column R0 (length fits), c)) in *.
    destruct (IH (fits ++ [f]) w1 Hinv1) as (w' & fits' & Hrun & Hlen' & Hinv').
    { rewrite length_app. simpl. lia. }
    { rewrite length_app. simpl. lia. }
    { intros i X' Hi. apply Hsolve. rewrite length_app in Hi. simpl in Hi. lia. }
    exists w', (f :: fits'). split_and!.
    + simpl. unfold Py.bind. rewrite Hw1.
      rewrite length_app in Hrun. simpl in Hrun.
      by replace (length fits + 1) with (Datatypes.S (length fits)) in Hrun by lia.
    + simpl. lia.
    + by rewrite <- app_assoc in Hinv'.
Qed.

(** When the iterations before item [i] passed and that of item [i]
    raises after the zeroing, the loop raises there and leaves column
    [i] zeroed. *)
Lemma loop_raises m : ∀ fits w i e,
  loop_inv fits w → length fits + m ≤ n → i < ncols R0 →
  length fits ≤ i < length fits + m →
  (∀ i' X, length fits ≤ i' < i →
     same_values X (zeroed R0 i') →
     ∃ c, elastic_net ps X (column R0 i') = Ok c ∧ length c = 1) →
  (∀ X, same_values X (zeroed R0 i) →
     raises_in_iteration e (elastic_net ps X (column R0 i))) →
  ∃ w', for_each (seq (length fits) m) (fit_item ratings) w = (Raise e, w') ∧
        stuck i w'.
Proof.
  induction m as [|m IH]; intros fits w i e Hinv Hm Hn Hi Hprev Hfail; [lia|].
  destruct (fit_item_step fits w Hinv ltac:(lia) ltac:(lia))
    as (X & _ & HXR & Hstep).
  simpl. unfold Py.bind.
  destruct (decide (i = length fits)) as [->|Hne].
  - destruct (Hfail _ (same_values_zeroed _ _ _ HXR)) as [Hr|(-> & c & Hr & Hc)];
      rewrite Hr in Hstep.
    + destruct Hstep as (w1 & Hw1 & Hstuck). exists w1. by rewrite Hw1.
    + rewrite decide_False in Hstep by done.
      destruct Hstep as (w1 & Hw1 & Hstuck). exists w1. by rewrite Hw1.
  - destruct (Hprev (length fits) (zeroed X (length fits)) ltac:(lia)
                (same_values_zeroed _ _ _ HXR)) as (c & Hc & Hlen).
    rewrite Hc, decide_True in Hstep by done.
    destruct Hstep as (w1 & Hw1 & Hinv1). rewrite Hw1.
    set (f := (zeroed X (length fits), column R0 (length fits), c)) in *.
    destruct (IH (fits ++ [f]) w1 i e Hinv1) as (w' & Hrun & Hstuck).
    { rewrite length_app. simpl. lia. }
    { done. }
    { rewrite length_app. simpl. lia. }
    { intros i' X' Hi'. apply Hprev. rewrite length_app in Hi'. simpl in Hi'. lia. }
    { done. }
    exists w'. split; [|done].
    rewrite length_app in Hrun. simpl in Hrun.
    by replace (length fits + 1) with (Datatypes.S (length fits)) in Hrun by lia.
Qed.

End TrainingLoop.
(** *** Training as a whole *)

Section Train.

Context `{Scalar V, Solver V}.
Implicit Types (s w : world V) (R X W : matrix V).

(** The store once the empty weights have been allocated. *)
Definition with_weights s : world V :=
  set_weights (Some (length (heap s)))
    (set_heap (heap s ++ [dok_matrix (_items s, _items s)]) s).

(** The matrix the loop works on: the stored rating matrix itself when
    it is in CSC format, a converted copy otherwise. *)
Definition working_ref s (R0 : matrix V) : ref :=
  if decide (fmt R0 = CSC) then _ratings s else Datatypes.S (length (heap s)).

Definition loop_start s (R0 : matrix V) : world V :=
  if decide (fmt R0 = CSC) then with_weights s
  else set_heap (heap (with_weights s) ++ [to_format CSC R0]) (with_weights s).

(** The end of [update]: the weights are converted to CSR. *)
Definition finish : M (world V) unit :=
  W ← weights;
  W' ← tocsr W;
  modify (set_weights (Some W')).

Lemma train_unfold s R0 :
  heap s !! _ratings s = Some R0 →
  train s =
    (for_each (seq 0 (_items s)) (fit_item (working_ref s R0)) ≫= λ _, finish)
      (loop_start s R0).
Proof.
  intros HR. unfold train.
  rewrite (bind_ok _ _ (_items s) s s) by done.
  rewrite (bind_ok _ _ (length (heap s)) s
             (set_heap (heap s ++ [dok_matrix (_items s, _items s)]) s)) by done.
  rewrite (bind_ok _ _ tt _ (with_weights s)) by done.
  rewrite (bind_ok _ _ (_ratings s) (with_weights s) (with_weights s)) by done.
  assert (heap (with_weights s) !! _ratings s = Some R0) as HR'.
  { simpl. by apply lookup_app_l_Some. }
  unfold tocsc, working_ref, loop_start.
  destruct (decide (fmt R0 = CSC)) as [Hf|Hf].
  - by rewrite (bind_ok _ _ _ _ _ (to_same_format _ _ _ _ HR' Hf)).
  - rewrite (bind_ok _ _ _ _ _ (to_other_format _ _ _ _ HR' Hf)).
    simpl. rewrite length_app. simpl.
    by replace (length (heap s) + 1) with (Datatypes.S (length (heap s))) by lia.
Qed.

Lemma loop_start_inv s R0 :
  heap s !! _ratings s = Some R0 →
  loop_inv (_items s) (params (model s)) (_ratings s) (working_ref s R0)
    (length (heap s)) R0 (heap (loop_start s R0)) (calls s) [] (loop_start s R0).
Proof.
  intros HR. pose proof (lookup_lt_Some _ _ _ HR) as Hlt.
  unfold working_ref, loop_start.
  destruct (decide (fmt R0 = CSC)) as [Hf|Hf]; split; simpl.
  - exists R0. split; [by apply lookup_app_l_Some|apply same_values_refl].
  - exists (dok_matrix (_items s, _items s)). split_and!; try done.
    + rewrite lookup_app_r by lia. by rewrite Nat.sub_diag.
  - lia.
  - done.
  - by rewrite app_nil_r.
  - done.
  - exists (to_format CSC R0). split; [|apply same_values_to_format].
    rewrite lookup_app_r by (rewrite length_app; simpl; lia).
    rewrite length_app. simpl.
    by replace (Datatypes.S (length (heap s)) - (length (heap s) + 1)) with 0 by lia.
  - exists (dok_matrix (_items s, _items s)). split_and!; try done.
    rewrite <- app_assoc. rewrite lookup_app_r by lia. by rewrite Nat.sub_diag.
  - lia.
  - done.
  - by rewrite app_nil_r.
  - done.
Qed.

Lemma finish_run n ps rl ratings wl (R0 : matrix V) h1 calls0 fits w :
  loop_inv n ps rl ratings wl R0 h1 calls0 fits w →
  ∃ W, heap w !! wl = Some W ∧
       finish w =
         (Ok tt, set_weights (Some (length (heap w)))
                   (set_heap (heap w ++ [to_format CSR W]) w)).
Proof.
  intros [_ (W & HW & HWs & HWf & _) _ (Hwl & _) _ _].
  exists W. split; [done|]. unfold finish.
  rewrite (bind_ok _ _ _ _ _ (weights_run w wl Hwl)).
  unfold tocsr.
  assert (fmt W ≠ CSR) as Hf by (by rewrite HWf).
  by rewrite (bind_ok _ _ _ _ _ (to_other_format _ _ _ _ HW Hf)).
Qed.

(** What a completed training leaves, from the store [s] it started in,
    where [R0] is the rating matrix: the weights, the calls to the
    solver, the rating matrix, and every other object. *)
Record trained s (R0 : matrix V) (fits : list (matrix V * list V * list V)) w : Prop := Trained {
  tr_weights :
    ∃ r W, _weights w = Some r ∧ heap w !! r = Some W ∧ fmt W = CSR ∧
           shape W = (_items s, _items s) ∧
           (∀ i f, fits !! i = Some f →
              fitted_column (_items s) (params (model s)) R0 W i f) ∧
           (∀ j i, _items s ≤ i ∨ _items s ≤ j → getitem W j i = zero);
  tr_fits : length fits = _items s;
  tr_calls : calls w = calls s ++ (fit_event <$> fits);
  tr_self : _ratings w = _ratings s ∧ _items w = _items s ∧
            params (model w) = params (model s);
  tr_ratings :
    ∃ R, heap w !! _ratings s = Some R ∧ same_values R R0 ∧
         (fmt R0 ≠ CSC → R = R0);
  tr_frame : ∀ l, l < length (heap s) → l ≠ _ratings s → heap w !! l = heap s !! l;
}.

Lemma loop_end_trained s R0 fits w :
  heap s !! _ratings s = Some R0 →
  length fits = _items s →
  loop_inv (_items s) (params (model s)) (_ratings s) (working_ref s R0)
    (length (heap s)) R0 (heap (loop_start s R0)) (calls s) fits w →
  ∃ w', finish w = (Ok tt, w') ∧ trained s R0 fits w'.
Proof.
  intros HR Hlen Hinv.
  destruct (finish_run _ _ _ _ _ _ _ _ _ _ Hinv) as (W & HW & Hfin).
  eexists. split; [exact Hfin|].
  destruct Hinv as [(X & HX & HXR) (W' & HW' & HWs & HWf & Hcols & Hzero) Hne
                      (Hwl & Hrl & Hn & Hps) Hcalls (Hlenh & Hframe)].
  assert (W' = W) as -> by congruence.
  pose proof (lookup_lt_Some _ _ _ HR) as Hlt.
  pose proof (lookup_lt_Some _ _ _ HW) as HltW.
  assert (length (heap s) < length (heap (loop_start s R0))) as Hgrow.
  { unfold loop_start. case_decide; simpl; rewrite ?length_app; simpl; lia. }
  assert (∀ l, l < length (heap s) → heap (loop_start s R0) !! l = heap s !! l) as Hold.
  { intros l Hl. unfold loop_start. case_decide; simpl.
    - by rewrite lookup_app_l.
    - rewrite <- app_assoc. by rewrite lookup_app_l. }
  split; simpl.
  - exists (length (heap w)), (to_format CSR W). split_and!; try done.
    + rewrite lookup_app_r by lia. by rewrite Nat.sub_diag.
    + intros j i Hji. apply Hzero. lia.
  - done.
  - done.
  - done.
  - unfold working_ref in *. destruct (decide (fmt R0 = CSC)) as [Hf|Hf].
    + exists X. split_and!; [by apply lookup_app_l_Some|done|done].
    + exists R0. split_and!; [|apply same_values_refl|done].
      apply lookup_app_l_Some. rewrite Hframe by lia. by rewrite Hold.
  - intros l Hl Hlr. rewrite lookup_app_l by lia.
    rewrite Hframe; [by apply Hold| |lia].
    unfold working_ref. case_decide; [done|lia].
Qed.

(** A training that returns leaves a trained store. *)
Lemma train_returns s R0 w :
  heap s !! _ratings s = Some R0 →
  train s = (Ok tt, w) →
  ∃ fits, trained s R0 fits w.
Proof.
  intros HR Hrun. rewrite (train_unfold s R0 HR) in Hrun.
  unfold mbind, py_bind, Py.bind in Hrun.
  destruct (for_each _ _ _) as [[[]|e] w1] eqn:Hloop; [|done].
  pose proof (loop_start_inv s R0 HR) as Hinv.
  destruct (loop_returns _ _ _ _ _ _ _ _ (_items s) [] _ w1 Hinv) as (fits & Hlen & Hinv1);
    [simpl; lia|done|].
  simpl in Hinv1.
  destruct (loop_end_trained s R0 fits w1 HR Hlen Hinv1) as (w' & Hfin & Htr).
  exists fits. congruence.
Qed.

(** When the rating matrix has a column for every item and the solver
    answers every item with a single coefficient, training returns. *)
Lemma train_runs s R0 :
  heap s !! _ratings s = Some R0 →
  _items s ≤ ncols R0 →
  (∀ i X, i < _items s → same_values X (zeroed R0 i) →
     ∃ c, elastic_net (params (model s)) X (column R0 i) = Ok c ∧
          length c = 1) →
  ∃ w fits, train s = (Ok tt, w) ∧ trained s R0 fits w.
Proof.
  intros HR Hn Hsolve. rewrite (train_unfold s R0 HR).
  pose proof (loop_start_inv s R0 HR) as Hinv.
  destruct (loop_runs _ _ _ _ _ _ _ _ (_items s) [] _ Hinv)
    as (w1 & fits & Hloop & Hlen & Hinv1); [simpl; lia|done| |].
  { intros i X Hi. apply Hsolve. simpl in Hi. lia. }
  simpl in Hloop, Hinv1.
  destruct (loop_end_trained s R0 fits w1 HR Hlen Hinv1) as (w' & Hfin & Htr).
  exists w', fits. split; [|done].
  by rewrite (bind_ok _ _ _ _ _ Hloop).
Qed.

(** When the iteration of item [i] raises after the zeroing, training
    raises and the matrix the loop works on keeps column [i] zeroed;
    the stored rating matrix is that matrix when it is in CSC format,
    and is untouched otherwise.  The weights are left as the loop had
    them: nothing in the columns from [i] on. *)
Lemma train_raises s R0 i e :
  heap s !! _ratings s = Some R0 →
  i < _items s → i < ncols R0 →
  (∀ i' X, i' < i → same_values X (zeroed R0 i') →
     ∃ c, elastic_net (params (model s)) X (column R0 i') = Ok c ∧
          length c = 1) →
  (∀ X, same_values X (zeroed R0 i) →
     raises_in_iteration e (elastic_net (params (model s)) X (column R0 i))) →
  ∃ w X r W, train s = (Raise e, w) ∧ _ratings w = _ratings s ∧
         heap w !! working_ref s R0 = Some X ∧ same_values X (zeroed R0 i) ∧
         (fmt R0 ≠ CSC → heap w !! _ratings s = Some R0) ∧
         _weights w = Some r ∧ heap w !! r = Some W ∧
         shape W = (_items s, _items s) ∧
         (∀ j i', i ≤ i' → getitem W j i' = zero).
Proof.
  intros HR Hi Hic Hprev Hfail. rewrite (train_unfold s R0 HR).
  pose proof (loop_start_inv s R0 HR) as Hinv.
  pose proof (lookup_lt_Some _ _ _ HR) as Hlt.
  destruct (loop_raises _ _ _ _ _ _ _ _ (_items s) [] _ i e Hinv)
    as (w1 & Hloop & (X & HX & HXz) & Hrl & Hframe & Hwl & W & HW & HWs & Hzero);
    [simpl; lia|done|simpl; lia| | |].
  { intros i' X Hi'. apply Hprev. lia. }
  { done. }
  simpl in Hloop. exists w1, X, (length (heap s)), W. split_and!; try done.
  - by rewrite (bind_raise _ _ _ _ _ Hloop).
  - intros Hf. rewrite Hframe.
    + unfold loop_start. rewrite decide_False by done. simpl.
      rewrite <- app_assoc. by apply lookup_app_l_Some.
    + unfold working_ref. rewrite decide_False by done. lia.
    + lia.
  - intros j i' Hi'. apply Hzero. by left.
Qed.

End Train.
(** *** Prediction *)

Section Predict.

Context `{Scalar V, Solver V}.
Implicit Types (w : world V) (R W P : matrix V).

(** The row or column a Python index in range denotes. *)
Definition wrap (n : nat) (i : Z) : nat :=
  Z.to_nat (if decide (i < 0)%Z then i + Z.of_nat n else i)%Z.

Definition valid_index (n : nat) (i : Z) : Prop :=
  (- Z.of_nat n ≤ i < Z.of_nat n)%Z.

Lemma check_index_valid n i : valid_index n i → check_index n i = Ok (wrap n i).
Proof. intros Hi. unfold check_index. by rewrite decide_True. Qed.

Lemma wrap_nonneg n i : (0 ≤ i)%Z → wrap n i = Z.to_nat i.
Proof. intros Hi. unfold wrap. by rewrite decide_False by lia. Qed.

Lemma wrap_lt n i : valid_index n i → wrap n i < n.
Proof. unfold valid_index, wrap. intros Hi. case_decide; lia. Qed.

(** The prediction for a pair: the dot product of the user's row of the
    ratings with the item's column of the weights. *)
Definition prediction R W (user_id item_id : Z) : V :=
  dot (row R (wrap (nrows R) user_id)) (column W (wrap (ncols W) item_id)).

Definition valid_query {C} R W (q : Z * Z * C) : Prop :=
  valid_index (nrows R) q.1.1 ∧ valid_index (ncols W) q.1.2.

Lemma lookup_prediction_product R W u i :
  valid_index (nrows R) u → valid_index (ncols W) i →
  lookup_prediction (product R W) u i = Ok (prediction R W u i).
Proof.
  intros Hu Hi. unfold lookup_prediction, nrows, ncols.
  rewrite shape_product. simpl.
  rewrite (check_index_valid _ _ Hu), (check_index_valid _ _ Hi).
  unfold prediction.
  by rewrite getitem_product by (by apply wrap_lt).
Qed.

Lemma collect_run {C} R W (user_item : list (Z * Z * C)) : ∀ predictions,
  Forall (valid_query R W) user_item →
  collect (product R W) user_item predictions =
    Ok (predictions ++ ((λ q, prediction R W q.1.1 q.1.2) <$> user_item)).
Proof.
  induction user_item as [|[[u i] ctx] qs IH]; intros acc Hq; simpl.
  - by rewrite app_nil_r.
  - apply Forall_cons in Hq as [[Hu Hi] Hqs]. simpl in Hu, Hi.
    rewrite (lookup_prediction_product _ _ _ _ Hu Hi).
    rewrite IH by done. by rewrite <- app_assoc.
Qed.

Lemma matmul_run w a b A B :
  heap w !! a = Some A → heap w !! b = Some B → ncols A = nrows B →
  matmul a b w = (Ok (product A B), record (MatMul A B) w).
Proof.
  intros Ha Hb Hdim. unfold matmul.
  rewrite (bind_ok _ _ _ _ _ (load_run _ _ _ Ha)).
  rewrite (bind_ok _ _ _ _ _ (load_run _ _ _ Hb)).
  rewrite (bind_ok _ _ tt w (record (MatMul A B) w)) by done.
  by rewrite decide_True.
Qed.

(** A batch of valid queries: one product, then one lookup per
    query, in the order of the queries. *)
Lemma predict_run {C} (user_item : list (Z * Z * C)) w r R W :
  heap w !! _ratings w = Some R →
  _weights w = Some r → heap w !! r = Some W →
  ncols R = nrows W →
  Forall (valid_query R W) user_item →
  _predict user_item w =
    (Ok ((λ q, prediction R W q.1.1 q.1.2) <$> user_item),
     record (MatMul R W) w).
Proof.
  intros HR Hr HW Hdim Hq. unfold _predict.
  rewrite (bind_ok _ _ (_ratings w) w w) by done.
  rewrite (bind_ok _ _ _ _ _ (weights_run w r Hr)).
  rewrite (bind_ok _ _ _ _ _ (matmul_run w _ _ R W HR HW Hdim)).
  unfold lift_result. by rewrite collect_run.
Qed.

End Predict.
(** *** The claims about [update] and [_predict] *)

Section UpdateClaims.

Context `{Scalar V, Solver V, Parent V Args}.
Implicit Types (s w : world V) (R W X : matrix V).

Lemma update_unfold (args : Args) w s :
  super_update args w = (Ok tt, s) → update args w = train s.
Proof. intros Hs. unfold update. by rewrite (bind_ok _ _ _ _ _ Hs). Qed.

Lemma update_returns (args : Args) w w' :
  update args w = (Ok tt, w') →
  ∃ s, super_update args w = (Ok tt, s) ∧ train s = (Ok tt, w').
Proof.
  unfold update, mbind, py_bind, Py.bind.
  destruct (super_update args w) as [[[]|e] s]; [|done]. by exists s.
Qed.

(** C1. After a completed call to [update] the stored weights have
    shape [num_items x num_items], and every diagonal cell reads zero.
    [s] is the store as the parent class leaves it, in which
    [self._ratings] is a matrix object. *)
Theorem update_weights_square_zero_diagonal (args : Args) w s w' :
  super_update args w = (Ok tt, s) →
  is_Some (heap s !! _ratings s) →
  update args w = (Ok tt, w') →
  ∃ r W, _weights w' = Some r ∧ heap w' !! r = Some W ∧
         shape W = (_items w', _items w') ∧
         ∀ i, i < _items w' → getitem W i i = zero.
Proof.
  intros Hs [R0 HR] Hrun. rewrite (update_unfold _ _ _ Hs) in Hrun.
  destruct (train_returns s R0 w' HR Hrun) as (fits & Htr).
  destruct Htr as [(r & W & Hr & HW & _ & HWs & Hcols & _) Hlen _ (_ & Hn & _) _ _].
  exists r, W. rewrite Hn. split_and!; try done.
  intros i Hi.
  destruct (lookup_lt_is_Some_2 fits i ltac:(lia)) as [f Hf].
  destruct (Hcols i f Hf) as (_ & _ & _ & _ & _ & Hcol).
  rewrite (Hcol i Hi). by rewrite decide_True.
Qed.

(** C2. A completed call to [update] leaves every entry of the rating
    matrix as it was when the training started, that is, as the parent
    class had left it in [s]: same shape, same value in every cell. *)
Theorem update_keeps_rating_matrix (args : Args) w s w' R0 :
  super_update args w = (Ok tt, s) →
  heap s !! _ratings s = Some R0 →
  update args w = (Ok tt, w') →
  ∃ R, heap w' !! _ratings w' = Some R ∧
       shape R = shape R0 ∧
       ∀ user_id item_id, getitem R user_id item_id = getitem R0 user_id item_id.
Proof.
  intros Hs HR Hrun. rewrite (update_unfold _ _ _ Hs) in Hrun.
  destruct (train_returns s R0 w' HR Hrun) as (fits & Htr).
  destruct Htr as [_ _ _ (Hrl & _) (R & HR' & [Hsh Hval] & _) _].
  exists R. by rewrite Hrl.
Qed.

(** C3. [update] does not get to store the coefficients of an item as
    a column of the weights.  What the estimator gives as
    [sparse_coef_] is a matrix with one row and a coefficient per
    column of the design matrix, and line 61 assigns it to a slice with
    one column.  So, for a rating matrix with two columns or more and a
    solver that answers with a coefficient per column of its design
    matrix, the first iteration takes its target, zeroes column 0 and
    fits, and then raises [ValueError] at the assignment: no
    coefficient reaches the weights, column 0 is not restored, and no
    other item is fitted. *)
Theorem update_raises_storing_coefficients (args : Args) w s R0 :
  super_update args w = (Ok tt, s) →
  heap s !! _ratings s = Some R0 →
  0 < _items s →
  2 ≤ ncols R0 →
  (∀ X, same_values X (zeroed R0 0) →
     ∃ c, elastic_net (params (model s)) X (column R0 0) = Ok c ∧
          length c = ncols X) →
  ∃ w' working X r W,
    update args w = (Raise ValueError, w') ∧
    heap w' !! working = Some X ∧
    shape X = shape R0 ∧
    (∀ u j, u < nrows R0 →
       getitem X u j = if decide (j = 0) then zero else getitem R0 u j) ∧
    (fmt R0 = CSC → working = _ratings w') ∧
    _weights w' = Some r ∧ heap w' !! r = Some W ∧
    shape W = (_items s, _items s) ∧
    (∀ j i, getitem W j i = zero).
Proof.
  intros Hs HR Hn Hc Hsolve. rewrite (update_unfold _ _ _ Hs).
  destruct (train_raises s R0 0 ValueError HR Hn ltac:(lia))
    as (w' & X & r & W & Hrun & Hrl & HX & [HXs HXv] & _ & Hr & HW & HWs & Hzero).
  { intros i' X Hi'. lia. }
  { intros X HX. right. split; [done|].
    destruct (Hsolve X HX) as (c & Hfit & Hlen). exists c. split; [done|].
    rewrite Hlen, (same_values_ncols _ _ HX). unfold zeroed, ncols. simpl.
    unfold ncols in Hc. lia. }
  exists w', (working_ref s R0), X, r, W. rewrite Hrl. split_and!; try done.
  - intros u j Hu. rewrite HXv. by apply getitem_zeroed.
  - intros Hf. unfold working_ref. by rewrite decide_True.
  - intros j i. apply Hzero. lia.
Qed.

(** C5, as amended.  When the solver raises in the iteration of item
    [i], the iterations before it having passed, [update] raises the
    same exception without restoring the column: the matrix the loop
    works on is left with column [i] zero and every other column at its
    value before training.  The stored rating matrix is that very
    matrix when it is in CSC format; otherwise the loop worked on a
    copy and the stored matrix is untouched.  An iteration passes when
    the solver answers it with a single coefficient, which is what the
    assignment of line 61 takes. *)
Theorem update_raises_with_column_zeroed (args : Args) w s R0 i e :
  super_update args w = (Ok tt, s) →
  heap s !! _ratings s = Some R0 →
  i < _items s → i < ncols R0 →
  (∀ i' X, i' < i → same_values X (zeroed R0 i') →
     ∃ c, elastic_net (params (model s)) X (column R0 i') = Ok c ∧
          length c = 1) →
  (∀ X, same_values X (zeroed R0 i) →
     elastic_net (params (model s)) X (column R0 i) = Raise e) →
  ∃ w' working X,
    update args w = (Raise e, w') ∧
    heap w' !! working = Some X ∧
    shape X = shape R0 ∧
    (∀ u j, u < nrows R0 →
       getitem X u j = if decide (j = i) then zero else getitem R0 u j) ∧
    (fmt R0 = CSC → working = _ratings w') ∧
    (fmt R0 ≠ CSC → heap w' !! _ratings w' = Some R0).
Proof.
  intros Hs HR Hi Hic Hprev Hfail. rewrite (update_unfold _ _ _ Hs).
  destruct (train_raises s R0 i e HR Hi Hic Hprev)
    as (w' & X & r & W & Hrun & Hrl & HX & [HXs HXv] & Hcopy & _).
  { intros X HX. left. by apply Hfail. }
  exists w', (working_ref s R0), X. rewrite Hrl. split_and!; try done.
  - intros u j Hu. rewrite HXv. by apply getitem_zeroed.
  - intros Hf. unfold working_ref. by rewrite decide_True.
Qed.


(** C4. For a batch of queries with [user_id] and [item_id] in the
    known range, the predictor returns, for each query, the dot product
    of row [user_id] of the ratings with column [item_id] of the
    weights, which is the cell of their product, and the product is
    formed once, whatever the number of queries. *)
Theorem predict_is_product_entry {C} (user_item : list (Z * Z * C)) w r R W :
  heap w !! _ratings w = Some R →
  _weights w = Some r → heap w !! r = Some W →
  ncols R = nrows W →
  Forall (λ q, (0 ≤ q.1.1 < Z.of_nat (nrows R))%Z ∧
               (0 ≤ q.1.2 < Z.of_nat (ncols W))%Z) user_item →
  ∃ w',
    _predict user_item w =
      (Ok ((λ q, dot (row R (Z.to_nat q.1.1)) (column W (Z.to_nat q.1.2)))
             <$> user_item), w') ∧
    Forall (λ q, getitem (product R W) (Z.to_nat q.1.1) (Z.to_nat q.1.2) =
                 dot (row R (Z.to_nat q.1.1)) (column W (Z.to_nat q.1.2)))
      user_item ∧
    calls w' = calls w ++ [MatMul R W] ∧
    heap w' = heap w.
Proof.
  intros HR Hr HW Hdim Hq. eexists. split_and!.
  - rewrite (predict_run user_item w r R W HR Hr HW Hdim).
    + f_equal. f_equal. apply list_fmap_ext. intros k [[u i] ctx] Hk. simpl.
      rewrite Forall_lookup in Hq. destruct (Hq k _ Hk) as [Hu Hi]. simpl in *.
      unfold prediction. by rewrite !wrap_nonneg by lia.
    + eapply Forall_impl; [exact Hq|]. intros [[u i] ctx] [Hu Hi].
      split; unfold valid_index; simpl in *; lia.
  - eapply Forall_impl; [exact Hq|]. intros [[u i] ctx] [Hu Hi]. simpl in *.
    apply getitem_product; lia.
  - done.
  - done.
Qed.

(** C7. For a sequence of queries, each a valid index pair, the
    predictor returns a sequence of the same length whose [k]-th
    element is the prediction for the [k]-th query. *)
Theorem predict_keeps_query_order {C} (user_item : list (Z * Z * C)) w r R W :
  heap w !! _ratings w = Some R →
  _weights w = Some r → heap w !! r = Some W →
  ncols R = nrows W →
  Forall (valid_query R W) user_item →
  ∃ predictions w',
    _predict user_item w = (Ok predictions, w') ∧
    length predictions = length user_item ∧
    ∀ k q, user_item !! k = Some q →
      predictions !! k = Some (prediction R W q.1.1 q.1.2).
Proof.
  intros HR Hr HW Hdim Hq. eexists _, _. split_and!.
  - by apply (predict_run user_item w r R W).
  - by rewrite length_fmap.
  - intros k q Hk. by rewrite list_lookup_fmap, Hk.
Qed.

End UpdateClaims.
(** ** Further properties of the recommender *)

Section TrainingLoopMore.

Context `{Scalar V, Solver V}.
Implicit Types (w : world V).

Lemma for_each_app {S A} (xs ys : list A) (body : A → M S unit) (s : S) :
  for_each (xs ++ ys) body s = (for_each xs body ≫= λ _, for_each ys body) s.
Proof.
  revert s. induction xs as [|x xs IH]; intros s; simpl; [done|].
  unfold mbind, py_bind, Py.bind. destruct (body x s) as [[[]|e] s']; [|done].
  apply IH.
Qed.

(** The loop returns as long as the items stay within the columns of
    the rating matrix and the solver answers each with a single
    coefficient. *)
Lemma loop_runs_within n ps rl ratings wl (R0 : matrix V) h1 calls0 m : ∀ fits w,
  loop_inv n ps rl ratings wl R0 h1 calls0 fits w →
  length fits + m ≤ n → length fits + m ≤ ncols R0 →
  (∀ i X, length fits ≤ i < length fits + m →
     same_values X (zeroed R0 i) →
     ∃ c, elastic_net ps X (column R0 i) = Ok c ∧ length c = 1) →
  ∃ w' fits',
    for_each (seq (length fits) m) (fit_item ratings) w = (Ok tt, w') ∧
    length fits' = m ∧
    loop_inv n ps rl ratings wl R0 h1 calls0 (fits ++ fits') w'.
Proof.
  induction m as [|m IH]; intros fits w Hinv Hm Hn Hsolve.
  - exists w, []. by rewrite app_nil_r.
  - destruct (fit_item_step _ _ _ _ _ _ _ _ fits w Hinv ltac:(lia) ltac:(lia))
      as (X & _ & HXR & Hstep).
    destruct (Hsolve (length fits) (zeroed X (length fits)) ltac:(lia)
                (same_values_zeroed _ _ _ HXR)) as (c & Hc & Hlen).
    rewrite Hc, decide_True in Hstep by done.
    destruct Hstep as (w1 & Hw1 & Hinv1).
    set (f := (zeroed X (length fits), column R0 (length fits), c)) in *.
    destruct (IH (fits ++ [f]) w1 Hinv1) as (w' & fits' & Hrun & Hlen' & Hinv').
    { rewrite length_app. simpl. lia. }
    { rewrite length_app. simpl. lia. }
    { intros i X' Hi. apply Hsolve. rewrite length_app in Hi. simpl in Hi. lia. }
    exists w', (f :: fits'). split_and!.
    + simpl. unfold Py.bind. rewrite Hw1.
      rewrite length_app in Hrun. simpl in Hrun.
      by replace (length fits + 1) with (Datatypes.S (length fits)) in Hrun by lia.
    + simpl. lia.
    + by rewrite <- app_assoc in Hinv'.
Qed.

End TrainingLoopMore.

Section UpdateMore.

Context `{Scalar V, Solver V, Parent V Args}.
Implicit Types (s w : world V) (R W X : matrix V).

(** X1. [update] returns whenever the rating matrix has a column for
    every item and the solver answers every item with a single
    coefficient, the only answer line 61 can store.  A solver that
    gives a coefficient per column of its design matrix does so for a
    rating matrix with one column. *)
Theorem update_returns_when_solver_answers (args : Args) w s R0 :
  super_update args w = (Ok tt, s) →
  heap s !! _ratings s = Some R0 →
  _items s ≤ ncols R0 →
  (∀ i X, i < _items s → same_values X (zeroed R0 i) →
     ∃ c, elastic_net (params (model s)) X (column R0 i) = Ok c ∧
          length c = 1) →
  ∃ w', update args w = (Ok tt, w').
Proof.
  intros Hs HR Hn Hsolve. rewrite (update_unfold _ _ _ Hs).
  destruct (train_runs s R0 HR Hn Hsolve) as (w' & fits & Hrun & _).
  by exists w'.
Qed.

(** X2. The weights of a completed [update] are a new object, in CSR
    format: no object of the store as the parent class left it is
    reused for them, so the weights of an earlier training are not
    overwritten. *)
Theorem update_weights_are_new_object (args : Args) w s w' R0 :
  super_update args w = (Ok tt, s) →
  heap s !! _ratings s = Some R0 →
  update args w = (Ok tt, w') →
  ∃ r W, _weights w' = Some r ∧ heap w' !! r = Some W ∧ fmt W = CSR ∧
         heap s !! r = None ∧
         ∀ r0 W0, _weights s = Some r0 → r0 ≠ _ratings s →
                  heap s !! r0 = Some W0 → heap w' !! r0 = Some W0.
Proof.
  intros Hs HR Hrun. rewrite (update_unfold _ _ _ Hs) in Hrun.
  destruct (train_returns s R0 w' HR Hrun) as (fits & Htr).
  destruct Htr as [(r & W & Hr & HW & Hf & _) _ _ _ _ Hframe].
  exists r, W. split_and!; try done.
  - rewrite (train_unfold s R0 HR) in Hrun.
    unfold mbind, py_bind, Py.bind in Hrun.
    destruct (for_each _ _ _) as [[[]|e] w1] eqn:Hloop; [|done].
    pose proof (loop_start_inv s R0 HR) as Hinv.
    destruct (loop_returns _ _ _ _ _ _ _ _ (_items s) [] _ w1 Hinv)
      as (fits1 & Hlen & Hinv1); [simpl; lia|done|]. simpl in Hinv1.
    destruct (finish_run _ _ _ _ _ _ _ _ _ _ Hinv1) as (W1 & HW1 & Hfin).
    rewrite Hfin in Hrun. injection Hrun as <-. simpl in Hr.
    injection Hr as <-.
    destruct Hinv1 as [_ _ _ _ _ (Hlenh & _)].
    apply lookup_ge_None. rewrite Hlenh.
    unfold loop_start. case_decide; simpl; rewrite ?length_app; simpl; lia.
  - intros r0 W0 _ Hne HW0. rewrite Hframe; [done| |done].
    by apply lookup_lt_Some in HW0.
Qed.

(** X3. When the rating matrix has fewer columns than there are items,
    [update] raises [IndexError] at the first item without a column,
    provided the iterations before it passed, the solver answering each
    with a single coefficient; the failing iteration raises before it
    zeroes anything, so the stored rating matrix still has the values
    it had. *)
Theorem update_raises_when_columns_missing (args : Args) w s R0 :
  super_update args w = (Ok tt, s) →
  heap s !! _ratings s = Some R0 →
  ncols R0 < _items s →
  (∀ i X, i < ncols R0 → same_values X (zeroed R0 i) →
     ∃ c, elastic_net (params (model s)) X (column R0 i) = Ok c ∧
          length c = 1) →
  ∃ w' R,
    update args w = (Raise IndexError, w') ∧
    heap w' !! _ratings s = Some R ∧ same_values R R0.
Proof.
  intros Hs HR Hn Hsolve. rewrite (update_unfold _ _ _ Hs).
  rewrite (train_unfold s R0 HR).
  pose proof (lookup_lt_Some _ _ _ HR) as Hlt.
  pose proof (loop_start_inv s R0 HR) as Hinv.
  assert (seq 0 (_items s)
          = seq 0 (ncols R0) ++ seq (0 + ncols R0) (_items s - ncols R0))
    as -> by (rewrite <- seq_app; f_equal; lia).
  destruct (loop_runs_within _ _ _ _ _ _ _ _ (ncols R0) [] _ Hinv)
    as (w1 & fits & Hloop & Hlen & Hinv1); [simpl; lia|simpl; lia| |].
  { intros i X Hi. apply Hsolve. simpl in Hi. lia. }
  simpl in Hloop, Hinv1.
  destruct (_items s - ncols R0) as [|k] eqn:Hk; [lia|].
  assert (for_each (seq 0 (ncols R0) ++ seq (0 + ncols R0) (Datatypes.S k))
            (fit_item (working_ref s R0)) (loop_start s R0)
          = (Raise IndexError, w1)) as Hrun.
  { rewrite for_each_app, (bind_ok _ _ _ _ _ Hloop). simpl. unfold Py.bind.
    rewrite <- Hlen at 1.
    by rewrite (fit_item_beyond _ _ _ _ _ _ _ _ fits w1 Hinv1) by lia. }
  destruct Hinv1 as [(X & HX & HXR) _ Hne _ _ (_ & Hframe)].
  unfold working_ref in *.
  destruct (decide (fmt R0 = CSC)) as [Hf|Hf].
  - exists w1, X. split_and!; [|done|done].
    by rewrite (bind_raise _ _ _ _ _ Hrun).
  - exists w1, R0. split_and!; [| |apply same_values_refl].
    + by rewrite (bind_raise _ _ _ _ _ Hrun).
    + rewrite Hframe by lia. unfold loop_start. rewrite decide_False by done.
      simpl. rewrite <- app_assoc. by apply lookup_app_l_Some.
Qed.

End UpdateMore.

Section PredictMore.

Context `{Scalar V, Solver V}.
Implicit Types (w : world V) (R W P : matrix V).

Lemma same_values_row A B i : same_values A B → row A i = row B i.
Proof.
  intros HAB. unfold row. rewrite (same_values_ncols _ _ HAB).
  apply list_fmap_ext. intros _ j _. apply HAB.
Qed.

Lemma lookup_prediction_invalid {C} R W (q : Z * Z * C) :
  ¬ valid_query R W q →
  lookup_prediction (product R W) q.1.1 q.1.2 = Raise IndexError.
Proof.
  intros Hq. unfold lookup_prediction, nrows, ncols.
  rewrite shape_product. simpl. unfold check_index.
  repeat case_decide; try done; by destruct Hq.
Qed.

(** One query outside the known range makes the whole loop raise. *)
Lemma collect_raises {C} R W (user_item : list (Z * Z * C)) : ∀ predictions,
  Exists (λ q, ¬ valid_query R W q) user_item →
  collect (product R W) user_item predictions = Raise IndexError.
Proof.
  induction user_item as [|[[u i] ctx] qs IH]; intros acc Hq.
  - by apply Exists_nil in Hq.
  - simpl.
    destruct (lookup_prediction (product R W) u i) as [x|e] eqn:Hx.
    + apply IH. apply Exists_cons in Hq as [Hq|Hq]; [|done].
      pose proof (lookup_prediction_invalid R W (u, i, ctx) Hq) as Hbad.
      simpl in Hbad. by rewrite Hbad in Hx.
    + unfold lookup_prediction in Hx.
      repeat case_match; congruence.
Qed.

(** X5. A batch with one query whose user or item is outside the known
    range yields no prediction at all: [_predict] raises [IndexError],
    after the product has been formed, wherever the query stands in the
    batch. *)
Theorem predict_raises_on_unknown_pair {C} (user_item : list (Z * Z * C)) w r R W :
  heap w !! _ratings w = Some R →
  _weights w = Some r → heap w !! r = Some W →
  ncols R = nrows W →
  Exists (λ q, ¬ valid_query R W q) user_item →
  _predict user_item w = (Raise IndexError, record (MatMul R W) w).
Proof.
  intros HR Hr HW Hdim Hq. unfold _predict.
  rewrite (bind_ok _ _ (_ratings w) w w) by done.
  rewrite (bind_ok _ _ _ _ _ (weights_run w r Hr)).
  rewrite (bind_ok _ _ _ _ _ (matmul_run w _ _ R W HR HW Hdim)).
  unfold lift_result. by rewrite collect_raises.
Qed.

(** X6. [_predict] only reads: whatever the batch and whether it
    returns or raises, the matrices, the weights, the rating matrix,
    the number of items and the estimator are as before; at most one
    product is computed. *)
Theorem predict_reads_only {C} (user_item : list (Z * Z * C)) w :
  heap (_predict user_item w).2 = heap w ∧
  _items (_predict user_item w).2 = _items w ∧
  _ratings (_predict user_item w).2 = _ratings w ∧
  _weights (_predict user_item w).2 = _weights w ∧
  model (_predict user_item w).2 = model w ∧
  (calls (_predict user_item w).2 = calls w ∨
   ∃ A B, calls (_predict user_item w).2 = calls w ++ [MatMul A B]).
Proof.
  unfold _predict, weights, matmul, load, lift_result.
  unfold mbind, py_bind, Py.bind, gets, modify. simpl.
  destruct (_weights w) as [r|] eqn:Hr; simpl; [|by split_and!; [..|left]].
  destruct (heap w !! _ratings w) as [R|]; simpl; [|by split_and!; [..|left]].
  destruct (heap w !! r) as [W|]; simpl; [|by split_and!; [..|left]].
  case_decide; simpl; by split_and!; [..|right; exists R, W].
Qed.

End PredictMore.

(** *** What training leaves alone, whether it returns or raises *)

Section Settled.

Context `{Scalar V, Solver V}.

(** The store as the parent class left it. *)
Variable s : world V.

Implicit Types (w : world V) (r : ref) (A : matrix V).

(** [settled w]: the attributes of [self] that training reads are those
    of [s], no call has been forgotten, and every object of [s] other
    than the rating matrix is as it was. *)
Definition settled w : Prop :=
  params (model w) = params (model s) ∧
  _items w = _items s ∧
  _ratings w = _ratings s ∧
  length (heap s) ≤ length (heap w) ∧
  calls s `prefix_of` calls w ∧
  ∀ l, l < length (heap s) → l ≠ _ratings s → heap w !! l = heap s !! l.

(** The objects training may write to: the rating matrix and the
    objects it allocated itself. *)
Definition writable r : Prop := r = _ratings s ∨ length (heap s) ≤ r.

(** While the loop runs the weights are an object of the second kind. *)
Definition training w : Prop :=
  settled w ∧ ∃ r, _weights w = Some r ∧ length (heap s) ≤ r < length (heap w).

Lemma settled_start : settled s.
Proof. by split_and!. Qed.

Lemma training_insert w r A :
  writable r → training w → training (set_heap (<[r := A]> (heap w)) w).
Proof.
  intros Hr [(Hps & Hn & Hrl & Hlen & Hcalls & Hframe) Hw].
  split; [split_and!|]; simpl; try done.
  - by rewrite length_insert.
  - intros l Hl Hne. rewrite list_lookup_insert_ne; [by apply Hframe|].
    destruct Hr as [->|Hr]; [done|lia].
  - by rewrite length_insert.
Qed.

Lemma training_alloc w A : training w → training (set_heap (heap w ++ [A]) w).
Proof.
  intros [(Hps & Hn & Hrl & Hlen & Hcalls & Hframe) (r & Hr & Hfresh)].
  split; [split_and!|]; simpl; try done.
  - rewrite length_app. lia.
  - intros l Hl Hne. rewrite lookup_app_l by lia. by apply Hframe.
  - exists r. split; [done|]. rewrite length_app. simpl. lia.
Qed.

Lemma training_record w e : training w → training (record e w).
Proof.
  intros [(Hps & Hn & Hrl & Hlen & Hcalls & Hframe) Hw].
  split; [split_and!|]; simpl; try done. by apply prefix_app_r.
Qed.

Lemma training_set_model w c :
  training w → training (set_model (Estimator (params (model w)) c) w).
Proof. by intros [(Hps & Hn & Hrl & Hlen & Hcalls & Hframe) Hw]. Qed.

Lemma training_set_weights w r :
  length (heap s) ≤ r < length (heap w) → settled w →
  training (set_weights (Some r) w).
Proof.
  intros Hr (Hps & Hn & Hrl & Hlen & Hcalls & Hframe).
  split; [by split_and!|]. by exists r.
Qed.

Lemma training_new A :
  triple training (new A) (λ r w, training w ∧ length (heap s) ≤ r) (λ _, training).
Proof.
  intros w Hw. simpl. split; [by apply training_alloc|].
  by destruct Hw as [(_ & _ & _ & Hlen & _) _].
Qed.

Lemma training_to f r :
  writable r →
  triple training (to f r) (λ r' w, training w ∧ writable r') (λ _, training).
Proof.
  intros Hr w Hw. unfold to, load, mbind, py_bind, Py.bind.
  destruct (heap w !! r) as [A|]; [|done]. case_decide; simpl.
  - done.
  - split; [by apply training_alloc|]. right.
    by destruct Hw as [(_ & _ & _ & Hlen & _) _].
Qed.

Lemma training_to_fresh f r :
  length (heap s) ≤ r →
  triple training (to f r)
    (λ r' w, training w ∧ length (heap s) ≤ r' < length (heap w))
    (λ _, training).
Proof.
  intros Hr w Hw. unfold to, load, mbind, py_bind, Py.bind.
  destruct (heap w !! r) as [A|] eqn:HA; [|done]. case_decide; simpl.
  - split; [done|]. apply lookup_lt_Some in HA. lia.
  - split; [by apply training_alloc|]. rewrite length_app. simpl.
    destruct Hw as [(_ & _ & _ & Hlen & _) _]. lia.
Qed.

Lemma training_column_toarray r j :
  triple training (column_toarray r j) (λ _, training) (λ _, training).
Proof.
  intros w Hw. unfold column_toarray, load, mbind, py_bind, Py.bind.
  destruct (heap w !! r) as [A|]; [|done]. by case_decide.
Qed.

Lemma training_assign_column_scalar r j x :
  writable r →
  triple training (assign_column_scalar r j x) (λ _, training) (λ _, training).
Proof.
  intros Hr w Hw. unfold assign_column_scalar, load, mbind, py_bind, Py.bind.
  destruct (heap w !! r) as [A|]; [|done]. case_decide; [|done].
  by apply training_insert.
Qed.

Lemma training_assign_column r j c :
  writable r →
  triple training (assign_column r j c) (λ _, training) (λ _, training).
Proof.
  intros Hr w Hw. unfold assign_column, load, mbind, py_bind, Py.bind.
  destruct (heap w !! r) as [A|]; [|done]. repeat case_decide; try done.
  by apply training_insert.
Qed.

Lemma training_assign_column_sparse r j B :
  writable r →
  triple training (assign_column_sparse r j B) (λ _, training) (λ _, training).
Proof.
  intros Hr w Hw. unfold assign_column_sparse, load, mbind, py_bind, Py.bind.
  destruct (heap w !! r) as [A|]; [|done]. repeat case_decide; try done.
  by apply training_insert.
Qed.

Lemma training_assign_item r i j x :
  writable r →
  triple training (assign_item r i j x) (λ _, training) (λ _, training).
Proof.
  intros Hr w Hw. unfold assign_item, load, mbind, py_bind, Py.bind.
  destruct (heap w !! r) as [A|]; [|done]. case_decide; [|done].
  by apply training_insert.
Qed.

Lemma training_fit r y :
  triple training (fit r y) (λ _, training) (λ _, training).
Proof.
  intros w Hw. unfold fit, load, lift_result, mbind, py_bind, Py.bind.
  destruct (heap w !! r) as [A|]; [|done]. simpl.
  destruct (elastic_net _ _ _) as [c|e]; simpl.
  - by apply (training_set_model (record (Fit A y) w)), training_record.
  - by apply training_record.
Qed.

Lemma training_sparse_coef :
  triple training sparse_coef_ (λ _, training) (λ _, training).
Proof.
  intros w Hw. unfold sparse_coef_, mbind, py_bind, Py.bind. simpl.
  by destruct (coef_ (model w)).
Qed.

Lemma training_weights :
  triple training weights (λ r w, training w ∧ length (heap s) ≤ r)
    (λ _, training).
Proof.
  intros w Hw. unfold weights, mbind, py_bind, Py.bind. simpl.
  destruct Hw as [Hset (r & Hr & Hfresh)]. rewrite Hr.
  split; [|lia]. split; [done|]. by exists r.
Qed.

Lemma training_fit_item ratings item_id :
  writable ratings →
  triple training (fit_item ratings item_id) (λ _, training) (λ _, training).
Proof.
  intros Hr. unfold fit_item.
  eapply triple_bind; [apply training_column_toarray|]. intros target.
  eapply triple_bind; [by apply training_assign_column_scalar|]. intros ?.
  eapply triple_bind; [apply training_fit|]. intros ?.
  eapply triple_bind; [apply training_sparse_coef|]. intros coef.
  eapply triple_bind; [apply training_weights|]. intros W.
  apply triple_pure_pre; intros HW.
  eapply triple_bind; [apply training_assign_column_sparse; by right|]. intros ?.
  eapply triple_bind; [apply training_assign_item; by right|]. intros ?.
  by apply training_assign_column.
Qed.

Lemma training_train :
  triple (λ w, w = s) train (λ _, training) (λ _, training).
Proof.
  intros w ->. unfold train.
  rewrite (bind_ok _ _ (_items s) s s) by done.
  rewrite (bind_ok _ _ (length (heap s)) s
             (set_heap (heap s ++ [dok_matrix (_items s, _items s)]) s)) by done.
  rewrite (bind_ok _ _ tt _ (with_weights s)) by done.
  rewrite (bind_ok _ _ (_ratings s) (with_weights s) (with_weights s)) by done.
  assert (training (with_weights s)) as Hstart.
  { split; [split_and!|]; simpl; try done.
    - rewrite length_app. lia.
    - intros l Hl _. by rewrite lookup_app_l.
    - exists (length (heap s)). split; [done|]. rewrite length_app. simpl. lia. }
  assert (triple training
            (ratings ← tocsc (_ratings s);
             for_each (seq 0 (_items s)) (fit_item ratings);;
             W ← weights; W' ← tocsr W; modify (set_weights (Some W')))
            (λ _, training) (λ _, training)) as Hrest;
    [|exact (Hrest _ Hstart)].
  eapply triple_bind; [apply training_to; by left|]. intros ratings.
  apply triple_pure_pre; intros Hr.
  eapply (triple_bind _ _ _ (λ _, training)).
  { apply (triple_for_each (λ _, training)).
    intros ? i ? ?. by apply training_fit_item. }
  intros ?.
  eapply triple_bind; [apply training_weights|]. intros W.
  apply triple_pure_pre; intros HW.
  eapply triple_bind; [by apply training_to_fresh|]. intros W'.
  intros w [[Hw _] HW']. by apply training_set_weights.
Qed.

End Settled.

Section UpdateAndPredict.

Context `{Scalar V, Solver V, Parent V Args}.
Implicit Types (s w : world V) (R W X : matrix V).

(** X7. Whether [update] returns or raises once the parent class has
    returned, it has changed neither the hyperparameters, nor the
    number of items, nor which object is the rating matrix; it has
    forgotten no call; and every object the parent class left, other
    than the rating matrix, is as it was. *)
Theorem update_writes_only_rating_matrix (args : Args) w s :
  super_update args w = (Ok tt, s) →
  params (model (update args w).2) = params (model s) ∧
  _items (update args w).2 = _items s ∧
  _ratings (update args w).2 = _ratings s ∧
  calls s `prefix_of` calls (update args w).2 ∧
  ∀ l A, l ≠ _ratings s → heap s !! l = Some A →
         heap (update args w).2 !! l = Some A.
Proof.
  intros Hs. rewrite (update_unfold _ _ _ Hs).
  pose proof (training_train s s eq_refl) as Htr.
  assert (training s (train s).2) as [(Hps & Hn & Hrl & _ & Hcalls & Hframe) _].
  { by destruct (train s) as [[[]|e] w']. }
  split_and!; try done.
  intros l A Hl HA. rewrite Hframe; [done| |done].
  by apply lookup_lt_Some in HA.
Qed.

(** X8. Training and then predicting: after a completed [update] on a
    rating matrix with one column per item, [_predict] returns for
    every batch of known users and items, and each prediction is the
    dot product of the user's row of the ratings, as they were before
    training, with the item's column of the weights just computed. *)
Theorem update_then_predict {C} (args : Args) w s w' R0
    (user_item : list (Z * Z * C)) :
  super_update args w = (Ok tt, s) →
  heap s !! _ratings s = Some R0 →
  ncols R0 = _items s →
  update args w = (Ok tt, w') →
  Forall (λ q, (0 ≤ q.1.1 < Z.of_nat (nrows R0))%Z ∧
               (0 ≤ q.1.2 < Z.of_nat (_items s))%Z) user_item →
  ∃ r W w'',
    _weights w' = Some r ∧ heap w' !! r = Some W ∧
    _predict user_item w' =
      (Ok ((λ q, dot (row R0 (Z.to_nat q.1.1)) (column W (Z.to_nat q.1.2)))
             <$> user_item), w'').
Proof.
  intros Hs HR Hn Hrun Hq. rewrite (update_unfold _ _ _ Hs) in Hrun.
  destruct (train_returns s R0 w' HR Hrun) as (fits & Htr).
  destruct Htr as [(r & W & Hr & HW & Hf & HWs & _) _ _ (Hrl & _)
                     (R & HR' & HRR & _) _].
  exists r, W, (record (MatMul R W) w'). split_and!; [done..|].
  rewrite <- Hrl in HR'.
  assert (ncols W = _items s) as Hc by (unfold ncols; by rewrite HWs).
  rewrite (predict_run user_item w' r R W HR' Hr HW).
  - do 2 f_equal. apply list_fmap_ext. intros k [[u i] c] Hk.
    apply (Forall_lookup_1 _ _ _ _ Hq) in Hk. simpl in *.
    unfold prediction. rewrite !wrap_nonneg by lia.
    by rewrite (same_values_row _ _ _ HRR).
  - rewrite (same_values_ncols _ _ HRR), Hn. unfold nrows. by rewrite HWs.
  - eapply Forall_impl; [exact Hq|]. intros [[u i] c] [Hu Hi]. simpl in *.
    unfold valid_query, valid_index. simpl.
    rewrite (same_values_nrows _ _ HRR), Hc. lia.
Qed.

End UpdateAndPredict.

Section UpdateEdge.

Context `{Scalar V, Solver V, Parent V Args}.
Implicit Types (s w : world V) (R W X : matrix V).

(** X24. With no item registered, [update] returns without calling the
    solver: the weights are an empty matrix with no row and no column,
    and the rating matrix is the very object it was, untouched. *)
Theorem update_without_items (args : Args) w s R0 :
  super_update args w = (Ok tt, s) →
  heap s !! _ratings s = Some R0 →
  _items s = 0 →
  ∃ w' r W,
    update args w = (Ok tt, w') ∧
    calls w' = calls s ∧
    _weights w' = Some r ∧ heap w' !! r = Some W ∧
    shape W = (0, 0) ∧ cells W = ∅ ∧
    heap w' !! _ratings s = Some R0.
Proof.
  intros Hs HR Hn. rewrite (update_unfold _ _ _ Hs), (train_unfold s R0 HR).
  pose proof (lookup_lt_Some _ _ _ HR) as Hlt.
  rewrite Hn. simpl seq.
  rewrite (bind_ok _ _ tt (loop_start s R0) (loop_start s R0)) by done.
  assert (heap (loop_start s R0) !! length (heap s) = Some (dok_matrix (0, 0)))
    as HW.
  { unfold loop_start, with_weights. rewrite Hn.
    case_decide; simpl; rewrite <- ?app_assoc;
      rewrite lookup_app_r by lia; rewrite Nat.sub_diag; reflexivity. }
  assert (_weights (loop_start s R0) = Some (length (heap s))) as Hwl.
  { unfold loop_start. by case_decide. }
  assert (heap (loop_start s R0) !! _ratings s = Some R0) as HR'.
  { unfold loop_start, with_weights.
    case_decide; simpl; rewrite <- ?app_assoc; by apply lookup_app_l_Some. }
  assert (calls (loop_start s R0) = calls s) as Hcalls.
  { unfold loop_start. by case_decide. }
  unfold finish.
  rewrite (bind_ok _ _ _ _ _ (weights_run _ _ Hwl)).
  unfold tocsr.
  rewrite (bind_ok _ _ _ _ _
             (to_other_format _ _ _ CSR HW ltac:(done))).
  eexists _, (length (heap (loop_start s R0))), (to_format CSR (dok_matrix (0, 0))).
  split; [reflexivity|]. simpl.
  split_and!; [done|done| |done|done|by apply lookup_app_l_Some].
  rewrite lookup_app_r by lia. rewrite Nat.sub_diag. reflexivity.
Qed.

(** X28. A failed training is not rolled back: when [update] raises
    after the parent class has returned, [_weights] no longer refers to
    the weights of the previous training but to a matrix created by the
    failed call. *)
Theorem update_failure_replaces_weights (args : Args) w s e w' :
  super_update args w = (Ok tt, s) →
  update args w = (Raise e, w') →
  ∃ r, _weights w' = Some r ∧ heap s !! r = None ∧ is_Some (heap w' !! r).
Proof.
  intros Hs Hrun. rewrite (update_unfold _ _ _ Hs) in Hrun.
  pose proof (training_train s s eq_refl) as Htr. rewrite Hrun in Htr.
  destruct Htr as [_ (r & Hr & Hfresh)]. exists r.
  split_and!; [done|apply lookup_ge_None; lia|apply lookup_lt_is_Some; lia].
Qed.

(** X29. With a solver that answers with a coefficient per column of
    its design matrix, a call to [update] completes for one item at
    most: every iteration that passes line 61 had a single coefficient
    to store, so the rating matrix has a single column and there is no
    second item. *)
Theorem update_completes_for_one_item_at_most (args : Args) w s w' R0 :
  (∀ ps X y c, elastic_net ps X y = Ok c → length c = ncols X) →
  super_update args w = (Ok tt, s) →
  heap s !! _ratings s = Some R0 →
  update args w = (Ok tt, w') →
  _items s ≤ 1 ∧ (_items s = 1 → ncols R0 = 1).
Proof.
  intros Hlaw Hs HR Hrun. rewrite (update_unfold _ _ _ Hs) in Hrun.
  destruct (train_returns s R0 w' HR Hrun) as (fits & Htr).
  destruct Htr as [(r & W & _ & _ & _ & _ & Hfits & _) Hlen _ _ _ _].
  assert (∀ i, i < _items s → i < ncols R0 ∧ ncols R0 = 1) as Hone.
  { intros i Hi.
    destruct (lookup_lt_is_Some_2 fits i ltac:(lia)) as [[[X y] c] Hf].
    destruct (Hfits i _ Hf) as (Hic & HX & _ & Hc & Hlenc & _). simpl in *.
    split; [done|]. apply Hlaw in Hc.
    rewrite (same_values_ncols _ _ HX) in Hc. unfold zeroed, ncols in Hc.
    simpl in Hc. unfold ncols. lia. }
  split.
  - destruct (_items s) as [|[|k]] eqn:Hk; [lia|lia|].
    destruct (Hone 1 ltac:(lia)). lia.
  - intros Hsingle. by destruct (Hone 0 ltac:(lia)).
Qed.

End UpdateEdge.
(** ** The theorems at concrete inputs *)

Module Examples.

Local Open Scope Z_scope.

(** *** [split_ratings] on ten ratings *)

Definition ten_ratings : list (nat * Z) :=
  [(1%nat, 10); (2%nat, 20); (3%nat, 30); (4%nat, 40); (5%nat, 50);
   (6%nat, 60); (7%nat, 70); (8%nat, 80); (9%nat, 90); (10%nat, 100)].

(** A shuffle that reverses its list. *)
Definition reversing_shuffle (g : unit) (xs : list (nat * Z)) : list (nat * Z) * unit :=
  (reverse xs, g).

Definition ten_world : DataUtils.world (K:=nat) (Val:=Z) (G:=unit) :=
  DataUtils.World [DataUtils.Dict ten_ratings] tt.

Lemma ten_ratings_nodup : NoDup ten_ratings.*1.
Proof. apply (bool_decide_unpack _). by vm_compute. Qed.

Lemma three_tenths_unit : unit_proportion three_tenths.
Proof. split; reflexivity. Qed.

Lemma reversing_shuffle_permutes g xs : (reversing_shuffle g xs).1 ≡ₚ xs.
Proof. simpl. apply reverse_Permutation. Qed.

Lemma split_ratings_in_order_witness :
  ∃ k split_1 split_2 w',
    floor_of_float (PrimFloat.mul three_tenths
                      (DataUtils.float_of_len (length ten_ratings)))
      = Some (Z.of_nat k) ∧
    DataUtils.split_ratings reversing_shuffle 0%nat three_tenths false ten_world
      = (Ok (split_1, split_2), w') ∧
    DataUtils.heap w' !! split_1 = Some (DataUtils.OrderedDict (take k ten_ratings)) ∧
    DataUtils.heap w' !! split_2 = Some (DataUtils.OrderedDict (drop k ten_ratings)) ∧
    length (take k ten_ratings) = k ∧
    length (drop k ten_ratings) = (length ten_ratings - k)%nat ∧
    take k ten_ratings ++ drop k ten_ratings = ten_ratings ∧
    NoDup (take k ten_ratings ++ drop k ten_ratings).*1 ∧
    (length ten_ratings = 10%nat → three_tenths = three_tenths → k = 3%nat).
Proof.
  apply (split_ratings_in_order reversing_shuffle ten_world 0%nat ten_ratings
           three_tenths).
  - reflexivity.
  - exact ten_ratings_nodup.
  - exact three_tenths_unit.
  - reflexivity.
Defined.

Lemma split_ratings_partitions_witness :
  ∃ k split_1 split_2 w' d1 d2,
    floor_of_float (PrimFloat.mul three_tenths
                      (DataUtils.float_of_len (length ten_ratings)))
      = Some (Z.of_nat k) ∧
    DataUtils.split_ratings reversing_shuffle 0%nat three_tenths true ten_world
      = (Ok (split_1, split_2), w') ∧
    DataUtils.heap w' !! split_1 = Some (DataUtils.OrderedDict d1) ∧
    DataUtils.heap w' !! split_2 = Some (DataUtils.OrderedDict d2) ∧
    length d1 = k ∧
    length d2 = (length ten_ratings - k)%nat ∧
    d1 ++ d2 ≡ₚ ten_ratings ∧
    NoDup (d1 ++ d2).*1 ∧
    (∀ key, key ∈ d1.*1 → key ∉ d2.*1).
Proof.
  apply (split_ratings_partitions reversing_shuffle ten_world 0%nat ten_ratings
           three_tenths true).
  - exact reversing_shuffle_permutes.
  - reflexivity.
  - exact ten_ratings_nodup.
  - exact three_tenths_unit.
  - reflexivity.
Defined.

Lemma split_ratings_keeps_input_witness :
  DataUtils.heap
    (DataUtils.split_ratings reversing_shuffle 0%nat three_tenths true ten_world).2
    !! 0%nat
  = Some (DataUtils.Dict ten_ratings).
Proof.
  apply (split_ratings_keeps_input reversing_shuffle ten_world 0%nat ten_ratings
           three_tenths true).
  reflexivity.
Defined.

(** *** The recommender on three users and three items *)

Import Slim.

#[local] Instance Z_scalar : Scalar Z := {| zero := 0; add := Z.add; mul := Z.mul |}.

(** A solver that answers with the correlation of every column of the
    design matrix with the target. *)
#[local] Instance correlation : Solver Z :=
  {| elastic_net := λ _ X y, Ok ((λ j, dot (column X j) y) <$> seq 0 (ncols X)) |}.

(** A solver that always fails. *)
Definition failing : Solver Z := {| elastic_net := λ _ _ _, Raise FitError |}.

(** A parent class whose [update] changes nothing. *)
#[local] Instance idle_parent : Parent Z unit := {| super_update := λ _, mret tt |}.

(** The ratings {(0,0): 5, (1,1): 4, (2,2): 3, (0,1): 2}. *)
Definition ratings_3x3 (f : format) : matrix Z :=
  Matrix f (3, 3)%nat
    (list_to_map [((0, 0)%nat, 5); ((1, 1)%nat, 4); ((2, 2)%nat, 3); ((0, 1)%nat, 2)]).

(** A recommender with three items before its first training: the
    estimator has the parameters of lines 37-46 and there are no
    weights. *)
Definition fresh (f : format) : world Z :=
  World [ratings_3x3 f] 3%nat 0%nat None
    (Estimator (Hyper 1 1 true false false true Random 100 1 0) None) [].

(** The ratings of three users for one item, {(0,0): 5, (2,0): 3}, and
    a recommender with that item only. *)
Definition ratings_3x1 (f : format) : matrix Z :=
  Matrix f (3, 1)%nat (list_to_map [((0, 0)%nat, 5); ((2, 0)%nat, 3)]).

Definition single (f : format) : world Z :=
  World [ratings_3x1 f] 1%nat 0%nat None
    (Estimator (Hyper 1 1 true false false true Random 100 1 0) None) [].

Definition trained_single (f : format) : world Z := (update tt (single f)).2.

(** With one item the coefficients are a single one, and the training
    completes. *)
Lemma update_single_returns f : update tt (single f) = (Ok tt, trained_single f).
Proof. destruct f; vm_compute; reflexivity. Qed.

Lemma correlation_per_column ps (X : matrix Z) y :
  ∃ c, elastic_net ps X y = Ok c ∧ length c = ncols X.
Proof. eexists. split; [reflexivity|]. by rewrite length_fmap, length_seq. Qed.

Lemma update_weights_square_zero_diagonal_witness :
  ∃ r W, _weights (trained_single CSC) = Some r ∧
         heap (trained_single CSC) !! r = Some W ∧
         shape W = (_items (trained_single CSC), _items (trained_single CSC)) ∧
         ∀ i, (i < _items (trained_single CSC))%nat → getitem W i i = zero.
Proof.
  apply (update_weights_square_zero_diagonal tt (single CSC) (single CSC)).
  - reflexivity.
  - eexists. reflexivity.
  - apply update_single_returns.
Defined.

Lemma update_keeps_rating_matrix_witness :
  ∃ R, heap (trained_single CSC) !! _ratings (trained_single CSC) = Some R ∧
       shape R = shape (ratings_3x1 CSC) ∧
       ∀ user_id item_id,
         getitem R user_id item_id = getitem (ratings_3x1 CSC) user_id item_id.
Proof.
  apply (update_keeps_rating_matrix tt (single CSC) (single CSC)).
  - reflexivity.
  - reflexivity.
  - apply update_single_returns.
Defined.

Lemma update_raises_storing_coefficients_witness :
  ∃ w' working X r W,
    update tt (fresh CSC) = (Raise ValueError, w') ∧
    heap w' !! working = Some X ∧
    shape X = shape (ratings_3x3 CSC) ∧
    (∀ u j, (u < nrows (ratings_3x3 CSC))%nat →
       getitem X u j = if decide (j = 0%nat) then zero
                       else getitem (ratings_3x3 CSC) u j) ∧
    (fmt (ratings_3x3 CSC) = CSC → working = _ratings w') ∧
    _weights w' = Some r ∧ heap w' !! r = Some W ∧
    shape W = (_items (fresh CSC), _items (fresh CSC)) ∧
    (∀ j i, getitem W j i = zero).
Proof.
  apply (update_raises_storing_coefficients tt (fresh CSC) (fresh CSC)
           (ratings_3x3 CSC)).
  - reflexivity.
  - reflexivity.
  - simpl. lia.
  - unfold ncols. simpl. lia.
  - intros X _. apply correlation_per_column.
Defined.


(** The solver fails in the first iteration: the stored matrix, in
    CSC format, is left with its first column zeroed, and when the
    matrix is stored in another format the copy the loop worked on is
    left so while the stored matrix is untouched. *)
Lemma solver_failure_leaves_column_zeroed :
  (∃ w' R,
     @update Z Z_scalar failing unit idle_parent tt (fresh CSC) = (Raise FitError, w') ∧
     heap w' !! _ratings w' = Some R ∧
     getitem R 0 0 = 0 ∧ getitem (ratings_3x3 CSC) 0 0 = 5) ∧
  (∃ w' X,
     @update Z Z_scalar failing unit idle_parent tt (fresh DOK) = (Raise FitError, w') ∧
     heap w' !! 2%nat = Some X ∧ getitem X 0 0 = 0 ∧
     heap w' !! _ratings w' = Some (ratings_3x3 DOK)).
Proof.
  split.
  - eexists _, _. split_and!; [vm_compute; reflexivity|vm_compute; reflexivity| |];
      vm_compute; reflexivity.
  - eexists _, _. split_and!; [vm_compute; reflexivity|vm_compute; reflexivity| |];
      vm_compute; reflexivity.
Qed.

Lemma failing_fails (X : matrix Z) :
  same_values X (zeroed (ratings_3x3 CSC) 0) →
  elastic_net (Solver := failing) (params (model (fresh CSC))) X
    (column (ratings_3x3 CSC) 0) = Raise FitError.
Proof. intros _. reflexivity. Qed.

Lemma nothing_before_first i' (X : matrix Z) :
  (i' < 0)%nat → same_values X (zeroed (ratings_3x3 CSC) i') →
  ∃ c, elastic_net (Solver := failing) (params (model (fresh CSC))) X
         (column (ratings_3x3 CSC) i') = Ok c ∧
       length c = 1%nat.
Proof. intros Hi. lia. Qed.

Lemma update_raises_with_column_zeroed_witness :
  ∃ w' working X,
    @update Z Z_scalar failing unit idle_parent tt (fresh CSC)
      = (Raise FitError, w') ∧
    heap w' !! working = Some X ∧
    shape X = shape (ratings_3x3 CSC) ∧
    (∀ u j, (u < nrows (ratings_3x3 CSC))%nat →
       getitem X u j = if decide (j = 0%nat) then zero
                       else getitem (ratings_3x3 CSC) u j) ∧
    (fmt (ratings_3x3 CSC) = CSC → working = _ratings w') ∧
    (fmt (ratings_3x3 CSC) ≠ CSC →
       heap w' !! _ratings w' = Some (ratings_3x3 CSC)).
Proof.
  apply (@update_raises_with_column_zeroed Z Z_scalar failing unit idle_parent
           tt (fresh CSC) (fresh CSC) (ratings_3x3 CSC) 0%nat FitError).
  - reflexivity.
  - reflexivity.
  - simpl. lia.
  - unfold ncols. simpl. lia.
  - exact nothing_before_first.
  - exact failing_fails.
Defined.

(** *** Prediction with known weights *)

Definition weights_3x3 : matrix Z :=
  Matrix CSR (3, 3)%nat (list_to_map [((0, 1)%nat, 10); ((1, 0)%nat, 10)]).

Definition serving : world Z :=
  World [ratings_3x3 CSR; weights_3x3] 3%nat 0%nat (Some 1%nat)
    (Estimator (Hyper 1 1 true false false true Random 100 1 0) None) [].

Definition queries : list (Z * Z * unit) := [((0, 2), tt); ((1, 0), tt); ((0, 1), tt)].

Lemma predict_is_product_entry_witness :
  ∃ w',
    _predict queries serving =
      (Ok ((λ q, dot (row (ratings_3x3 CSR) (Z.to_nat q.1.1))
                     (column weights_3x3 (Z.to_nat q.1.2))) <$> queries), w') ∧
    Forall (λ q, getitem (product (ratings_3x3 CSR) weights_3x3)
                   (Z.to_nat q.1.1) (Z.to_nat q.1.2) =
                 dot (row (ratings_3x3 CSR) (Z.to_nat q.1.1))
                     (column weights_3x3 (Z.to_nat q.1.2)))
      queries ∧
    calls w' = calls serving ++ [MatMul (ratings_3x3 CSR) weights_3x3] ∧
    heap w' = heap serving.
Proof.
  apply (predict_is_product_entry queries serving 1%nat).
  - reflexivity.
  - reflexivity.
  - reflexivity.
  - reflexivity.
  - repeat constructor; simpl; lia.
Defined.

Lemma predict_keeps_query_order_witness :
  ∃ predictions w',
    _predict queries serving = (Ok predictions, w') ∧
    length predictions = length queries ∧
    ∀ k q, queries !! k = Some q →
      predictions !! k =
        Some (prediction (ratings_3x3 CSR) weights_3x3 q.1.1 q.1.2).
Proof.
  apply (predict_keeps_query_order queries serving 1%nat).
  - reflexivity.
  - reflexivity.
  - reflexivity.
  - reflexivity.
  - repeat constructor; unfold valid_index; simpl; lia.
Defined.

End Examples.
(** ** Facts about [read_movielens100k] *)

Import DataUtils MovieLens.

Section DictFacts.

Context {K Val : Type} `{EqDecision K}.
Implicit Types (d : list (K * Val)).

Lemma setitem_items_known key val d :
  key ∈ d.*1 → (setitem_items key val d).*1 = d.*1.
Proof.
  induction d as [|[k v] d IH]; simpl; intros Hin.
  - by apply elem_of_nil in Hin.
  - case_decide as Hk; simpl; [done|]. f_equal. apply IH.
    apply elem_of_cons in Hin as [->|Hin]; done.
Qed.

Lemma setitem_items_nodup key val d :
  NoDup d.*1 → NoDup (setitem_items key val d).*1.
Proof.
  intros Hnd. destruct (decide (key ∈ d.*1)) as [Hin|Hin].
  - by rewrite setitem_items_known.
  - rewrite setitem_items_fresh, fmap_app by done. simpl.
    apply NoDup_app. split_and!; [done| |apply NoDup_singleton].
    intros k Hk ->%list_elem_of_singleton. done.
Qed.

(** What a dict holds after [d[key] = val]. *)
Lemma elem_of_setitem_items key val d k v :
  NoDup d.*1 →
  (k, v) ∈ setitem_items key val d ↔
  (k = key ∧ v = val) ∨ (k ≠ key ∧ (k, v) ∈ d).
Proof.
  induction d as [|[k0 v0] d IH]; simpl; intros Hnd.
  - rewrite list_elem_of_singleton. split.
    + intros [= -> ->]. by left.
    + intros [[-> ->]|[_ Hin]]; [done|]. by apply elem_of_nil in Hin.
  - apply NoDup_cons in Hnd as [Hk0 Hnd]. case_decide as Hk; subst.
    + rewrite !elem_of_cons. split.
      * intros [[= -> ->]|Hin]; [by left|]. right. split; [|by right].
        intros ->. apply Hk0. by apply (list_elem_of_fmap_2 fst _ (key, v)).
      * intros [[-> ->]|[Hne [[= -> ->]|Hin]]]; [by left|done|by right].
    + rewrite !elem_of_cons, (IH Hnd). split.
      * intros [[= -> ->]|[[-> ->]|[Hne Hin]]].
        -- right. split; [done|by left].
        -- by left.
        -- right. split; [done|by right].
      * intros [[-> ->]|[Hne [[= -> ->]|Hin]]].
        -- right. by left.
        -- by left.
        -- right. right. by split.
Qed.

End DictFacts.

Section ReadMovielensFacts.

Context {Rt : Type}.
Implicit Types (data : list (line Rt)) (r : line Rt).

Local Open Scope Z_scope.

(** *** [np.unique] *)

Lemma elem_of_insert_sorted x y l : y ∈ insert_sorted x l ↔ y = x ∨ y ∈ l.
Proof.
  induction l as [|z l IH]; simpl.
  - rewrite list_elem_of_singleton. split; [by left|].
    intros [->|Hin]; [done|]. by apply elem_of_nil in Hin.
  - destruct (Z.ltb_spec x z) as [Hlt|Hge].
    + by rewrite elem_of_cons.
    + destruct (Z.eqb_spec x z) as [->|Hne].
      * rewrite elem_of_cons. split; [by right|]. intros [->|Hin]; [by left|done].
      * rewrite !elem_of_cons, IH. split.
        -- intros [->|[->|Hin]]; [right; by left|by left|right; by right].
        -- intros [->|[->|Hin]]; [right; by left|by left|right; by right].
Qed.

Lemma elem_of_np_unique x xs : x ∈ np_unique xs ↔ x ∈ xs.
Proof.
  unfold np_unique. induction xs as [|y xs IH]; simpl; [done|].
  by rewrite elem_of_insert_sorted, elem_of_cons, IH.
Qed.

(** A list in strictly increasing order. *)
Definition increasing (l : list Z) : Prop :=
  ∀ i j x y, (i < j)%nat → l !! i = Some x → l !! j = Some y → x < y.

Lemma increasing_cons x l :
  increasing (x :: l) ↔ (∀ y, y ∈ l → x < y) ∧ increasing l.
Proof.
  split.
  - intros Hinc. split.
    + intros y [j Hj]%list_elem_of_lookup.
      by apply (Hinc 0%nat (Datatypes.S j) x y ltac:(lia)).
    + intros i j a b Hij Ha Hb.
      by apply (Hinc (Datatypes.S i) (Datatypes.S j) a b ltac:(lia)).
  - intros [Hx Hinc] [|i] [|j] a b Hij Ha Hb; simpl in *; try lia.
    + injection Ha as <-. apply Hx. by apply list_elem_of_lookup_2 in Hb.
    + by apply (Hinc i j a b ltac:(lia)).
Qed.

Lemma increasing_insert_sorted x l : increasing l → increasing (insert_sorted x l).
Proof.
  induction l as [|z l IH]; simpl; intros Hinc.
  - intros [|i] [|j] a b Hij Ha Hb; simpl in *; try lia; done.
  - destruct (Z.ltb_spec x z) as [Hlt|Hge].
    + apply increasing_cons. split; [|done].
      apply increasing_cons in Hinc as [Hz _].
      intros y [->|Hy]%elem_of_cons; [done|]. specialize (Hz y Hy). lia.
    + destruct (Z.eqb_spec x z) as [->|Hne]; [done|].
      apply increasing_cons in Hinc as [Hz Hinc]. apply increasing_cons. split.
      * intros y [->|Hy]%elem_of_insert_sorted; [lia|by apply Hz].
      * by apply IH.
Qed.

Lemma increasing_np_unique xs : increasing (np_unique xs).
Proof.
  unfold np_unique. induction xs as [|y xs IH]; simpl.
  - by intros [|i] [|j].
  - by apply increasing_insert_sorted.
Qed.

Lemma increasing_nodup l : increasing l → NoDup l.
Proof.
  intros Hinc. apply NoDup_alt. intros i j x Hi Hj.
  destruct (Nat.lt_total i j) as [Hlt|[->|Hlt]]; [|done|].
  - pose proof (Hinc i j x x Hlt Hi Hj). lia.
  - pose proof (Hinc j i x x Hlt Hj Hi). lia.
Qed.

(** *** The dicts *)

Lemma no_features_from (keys : list Z) : ∀ d : list (Z * ndarray),
  NoDup (d.*1 ++ keys) →
  foldl (λ d key, setitem_items key (np_zeros 0) d) d keys
  = d ++ ((λ key, (key, np_zeros 0)) <$> keys).
Proof.
  induction keys as [|key keys IH]; intros d Hnd; simpl.
  - by rewrite app_nil_r.
  - assert (key ∉ d.*1) as Hkey.
    { apply NoDup_app in Hnd as (_ & Hdis & _). intros Hin.
      apply (Hdis key Hin). by left. }
    rewrite setitem_items_fresh by done. rewrite IH.
    + by rewrite <- app_assoc.
    + rewrite fmap_app. simpl. by rewrite <- app_assoc.
Qed.

Lemma no_features_unique keys :
  NoDup keys → no_features keys = (λ key, (key, np_zeros 0)) <$> keys.
Proof. intros Hnd. unfold no_features. by rewrite no_features_from. Qed.

Lemma no_features_keys xs : (no_features (np_unique xs)).*1 = np_unique xs.
Proof.
  rewrite no_features_unique by apply increasing_nodup, increasing_np_unique.
  rewrite <- list_fmap_compose. by rewrite list_fmap_id.
Qed.

(** The key and the value the loop stores for a line of the table. *)
Definition key_of r : Z * Z := (int64 (user_id r - 1), int64 (item_id r - 1)).

Definition value_of r : Rt * ndarray := (rating r, np_zeros 0).

Definition zero_based data : list (line Rt) := shift_item_id (shift_user_id data).

Lemma zero_based_lookup data j :
  zero_based data !! j =
    (λ r, Line (int64 (user_id r - 1)) (int64 (item_id r - 1)) (rating r) (timestamp r))
      <$> data !! j.
Proof.
  unfold zero_based, shift_item_id, shift_user_id.
  rewrite !list_lookup_fmap. by destruct (data !! j).
Qed.

Lemma fill_ratings_zero_based data :
  fill_ratings (zero_based data) =
    foldl (λ ratings r, setitem_items (key_of r) (value_of r) ratings) [] data.
Proof.
  unfold fill_ratings, zero_based, shift_item_id, shift_user_id.
  generalize (@nil (Z * Z * (Rt * ndarray))).
  induction data as [|r data IH]; intros acc; simpl; [done|]. by rewrite IH.
Qed.

Lemma fill_ratings_snoc data r :
  fill_ratings (zero_based (data ++ [r])) =
    setitem_items (key_of r) (value_of r) (fill_ratings (zero_based data)).
Proof. rewrite !fill_ratings_zero_based. by rewrite foldl_app. Qed.

Lemma fill_ratings_nodup data : NoDup (fill_ratings (zero_based data)).*1.
Proof.
  induction data as [|r data IH] using rev_ind.
  - constructor.
  - rewrite fill_ratings_snoc. by apply setitem_items_nodup.
Qed.

(** The loop leaves, for every key, the value of the last line with
    that key. *)
Lemma elem_of_fill_ratings data key v :
  (key, v) ∈ fill_ratings (zero_based data) ↔
  ∃ j r, data !! j = Some r ∧ key = key_of r ∧ v = value_of r ∧
         ∀ j' r', (j < j')%nat → data !! j' = Some r' → key_of r' ≠ key.
Proof.
  induction data as [|r0 data IH] using rev_ind.
  - split; [by intros ?%elem_of_nil|]. by intros (j & r & ? & _).
  - rewrite fill_ratings_snoc, elem_of_setitem_items by apply fill_ratings_nodup.
    rewrite IH. split.
    + intros [[-> ->]|(Hne & j & r & Hj & -> & -> & Hlast)].
      * exists (length data), r0. split_and!; try done.
        -- by apply list_lookup_middle.
        -- intros j' r' Hlt Hj'. apply lookup_lt_Some in Hj'.
           rewrite length_app in Hj'. simpl in Hj'. lia.
      * exists j, r. split_and!; try done.
        -- by apply lookup_app_l_Some.
        -- intros j' r' Hlt Hj'.
           destruct (decide (j' < length data)%nat) as [Hin|Hout].
           ++ rewrite lookup_app_l in Hj' by done. by apply (Hlast j').
           ++ apply lookup_lt_Some in Hj' as Hlen.
              rewrite length_app in Hlen. simpl in Hlen.
              assert (j' = length data) as -> by lia.
              rewrite list_lookup_middle in Hj' by done. by injection Hj' as <-.
    + intros (j & r & Hj & -> & -> & Hlast).
      destruct (decide (j < length data)%nat) as [Hin|Hout].
      * right. rewrite lookup_app_l in Hj by done. split.
        -- intros Heq. apply (Hlast (length data) r0); [done| |done].
           by apply list_lookup_middle.
        -- exists j, r. split_and!; try done.
           intros j' r' Hlt Hj'. apply (Hlast j' r' Hlt).
           by apply lookup_app_l_Some.
      * left. apply lookup_lt_Some in Hj as Hlen.
        rewrite length_app in Hlen. simpl in Hlen.
        assert (j = length data) as -> by lia.
        rewrite list_lookup_middle in Hj by done. by injection Hj as <-.
Qed.

(** The keys of [ratings] are the keys of the lines. *)
Lemma elem_of_fill_ratings_keys data key :
  key ∈ (fill_ratings (zero_based data)).*1 ↔ key ∈ key_of <$> data.
Proof.
  induction data as [|r0 data IH] using rev_ind; [done|].
  rewrite fill_ratings_snoc, fmap_app, elem_of_app. simpl.
  rewrite list_elem_of_singleton, <- IH.
  destruct (decide (key_of r0 ∈ (fill_ratings (zero_based data)).*1)) as [Hin|Hin].
  - rewrite setitem_items_known by done. split; [by left|].
    intros [Hkey|Hkey]; [done|by subst].
  - rewrite setitem_items_fresh, fmap_app, elem_of_app by done. simpl.
    by rewrite list_elem_of_singleton.
Qed.

Lemma read_movielens100k_run data :
  Z.of_nat (length data) = 100000 →
  read_movielens100k data =
    Returned (no_features (np_unique (user_id <$> zero_based data)))
             (no_features (np_unique (item_id <$> zero_based data)))
             (fill_ratings (zero_based data)).
Proof.
  intros Hlen. unfold read_movielens100k. fold (zero_based data).
  rewrite decide_True; [done|].
  unfold zero_based, shift_item_id, shift_user_id. by rewrite !length_fmap.
Qed.

Lemma user_id_zero_based data : user_id <$> zero_based data = (λ r, (key_of r).1) <$> data.
Proof.
  unfold zero_based, shift_item_id, shift_user_id.
  rewrite <- !list_fmap_compose. done.
Qed.

Lemma item_id_zero_based data : item_id <$> zero_based data = (λ r, (key_of r).2) <$> data.
Proof.
  unfold zero_based, shift_item_id, shift_user_id.
  rewrite <- !list_fmap_compose. done.
Qed.

Lemma fill_ratings_from data : ∀ d : list (Z * Z * (Rt * ndarray)),
  NoDup (d.*1 ++ (key_of <$> data)) →
  foldl (λ ratings r, setitem_items (key_of r) (value_of r) ratings) d data
  = d ++ ((λ r, (key_of r, value_of r)) <$> data).
Proof.
  induction data as [|r data IH]; intros d Hnd; simpl.
  - by rewrite app_nil_r.
  - assert (key_of r ∉ d.*1) as Hkey.
    { apply NoDup_app in Hnd as (_ & Hdis & _). intros Hin.
      apply (Hdis _ Hin). by left. }
    rewrite setitem_items_fresh by done. rewrite IH.
    + by rewrite <- app_assoc.
    + rewrite fmap_app. simpl. by rewrite <- app_assoc.
Qed.

Lemma int64_sub_one x : 1 ≤ x ≤ 2 ^ 63 → int64 (x - 1) = x - 1.
Proof. intros Hx. unfold int64. rewrite Z.mod_small; lia. Qed.

(** X19. The users and the items returned are exactly those with a
    rating: an identifier is a key of [users] when it is the user of
    some key of [ratings], and a key of [items] when it is the item of
    some key of [ratings]. *)
Theorem read_movielens100k_registers_rated_ids data :
  Z.of_nat (length data) = 100000 →
  ∃ users items ratings,
    read_movielens100k data = Returned users items ratings ∧
    (∀ u, u ∈ users.*1 ↔ ∃ i, (u, i) ∈ ratings.*1) ∧
    (∀ i, i ∈ items.*1 ↔ ∃ u, (u, i) ∈ ratings.*1).
Proof.
  intros Hlen. eexists _, _, _. split; [by apply read_movielens100k_run|].
  rewrite !no_features_keys, user_id_zero_based, item_id_zero_based. split.
  - intros u. rewrite elem_of_np_unique, list_elem_of_fmap. split.
    + intros (r & -> & Hr). exists (key_of r).2.
      apply elem_of_fill_ratings_keys. rewrite list_elem_of_fmap.
      exists r. split; [|done]. by destruct (key_of r).
    + intros (i & (r & Hkey & Hr)%elem_of_fill_ratings_keys%list_elem_of_fmap).
      exists r. split; [|done]. by rewrite <- Hkey.
  - intros i. rewrite elem_of_np_unique, list_elem_of_fmap. split.
    + intros (r & -> & Hr). exists (key_of r).1.
      apply elem_of_fill_ratings_keys. rewrite list_elem_of_fmap.
      exists r. split; [|done]. by destruct (key_of r).
    + intros (u & (r & Hkey & Hr)%elem_of_fill_ratings_keys%list_elem_of_fmap).
      exists r. split; [|done]. by rewrite <- Hkey.
Qed.

(** X20. The three results are mappings with the shape the docstring
    gives: the users and the items come in increasing order of
    identifier, each once and with an empty feature array, no pair is
    twice a key of [ratings], and every rating has an empty context. *)
Theorem read_movielens100k_results_well_formed data :
  Z.of_nat (length data) = 100000 →
  ∃ users items ratings,
    read_movielens100k data = Returned users items ratings ∧
    increasing users.*1 ∧ increasing items.*1 ∧ NoDup ratings.*1 ∧
    Forall (λ kv, kv.2 = np_zeros 0) users ∧
    Forall (λ kv, kv.2 = np_zeros 0) items ∧
    Forall (λ kv, kv.2.2 = np_zeros 0) ratings.
Proof.
  intros Hlen. eexists _, _, _. split; [by apply read_movielens100k_run|].
  rewrite !no_features_keys.
  rewrite !no_features_unique by apply increasing_nodup, increasing_np_unique.
  split_and!.
  - apply increasing_np_unique.
  - apply increasing_np_unique.
  - apply fill_ratings_nodup.
  - apply Forall_fmap. by apply Forall_true.
  - apply Forall_fmap. by apply Forall_true.
  - apply Forall_forall. intros [key v] Hin.
    apply elem_of_fill_ratings in Hin as (j & r & _ & _ & -> & _). done.
Qed.

(** X21. When a pair of user and item occurs on several lines, the
    rating of the last of them is the one kept: [ratings] maps a key to
    a value exactly when some line has that key, shifted to start from
    zero, and that rating, and no later line has the same key. *)
Theorem read_movielens100k_last_rating_wins data :
  Z.of_nat (length data) = 100000 →
  ∃ users items ratings,
    read_movielens100k data = Returned users items ratings ∧
    ∀ u i x, ((u, i), x) ∈ ratings ↔
      ∃ j r, data !! j = Some r ∧
             u = int64 (user_id r - 1) ∧ i = int64 (item_id r - 1) ∧
             x = (rating r, np_zeros 0) ∧
             ∀ j' r', (j < j')%nat → data !! j' = Some r' →
               ¬ (int64 (user_id r' - 1) = u ∧ int64 (item_id r' - 1) = i).
Proof.
  intros Hlen. eexists _, _, _. split; [by apply read_movielens100k_run|].
  intros u i x. rewrite elem_of_fill_ratings. split.
  - intros (j & r & Hj & [= -> ->] & -> & Hlast). exists j, r.
    split_and!; try done. intros j' r' Hlt Hj' [Hu Hi].
    apply (Hlast j' r' Hlt Hj'). unfold key_of. by rewrite Hu, Hi.
  - intros (j & r & Hj & -> & -> & -> & Hlast). exists j, r.
    split_and!; try done. intros j' r' Hlt Hj' [= Hu Hi].
    by apply (Hlast j' r' Hlt Hj').
Qed.

(** X22. Identifiers that count from one in the file come out counting
    from zero: when every user of the table is between 1 and
    [num_users] and every item between 1 and [num_items], every key
    returned is the identifier of the file less one, without
    wrap-around, so users are below [num_users] and items below
    [num_items], and every line has its key in [ratings]. *)
Theorem read_movielens100k_zero_based data num_users num_items :
  Z.of_nat (length data) = 100000 →
  num_users ≤ 2 ^ 63 → num_items ≤ 2 ^ 63 →
  Forall (λ r, 1 ≤ user_id r ≤ num_users ∧ 1 ≤ item_id r ≤ num_items) data →
  ∃ users items ratings,
    read_movielens100k data = Returned users items ratings ∧
    Forall (λ u, 0 ≤ u < num_users) users.*1 ∧
    Forall (λ i, 0 ≤ i < num_items) items.*1 ∧
    Forall (λ key, 0 ≤ key.1 < num_users ∧ 0 ≤ key.2 < num_items) ratings.*1 ∧
    Forall (λ r, (user_id r - 1, item_id r - 1) ∈ ratings.*1) data.
Proof.
  intros Hlen Hnu Hni Hdata. eexists _, _, _.
  split; [by apply read_movielens100k_run|].
  assert (∀ r, r ∈ data → key_of r = (user_id r - 1, item_id r - 1) ∧
                          0 ≤ user_id r - 1 < num_users ∧
                          0 ≤ item_id r - 1 < num_items) as Hkey.
  { intros r Hr. apply (proj1 (Forall_forall _ _) Hdata) in Hr as [Hu Hi].
    unfold key_of. rewrite !int64_sub_one by lia. split; [done|lia]. }
  rewrite !no_features_keys, user_id_zero_based, item_id_zero_based. split_and!.
  - apply Forall_forall. intros u (r & -> & Hr)%elem_of_np_unique%list_elem_of_fmap.
    destruct (Hkey r Hr) as (-> & Hu & _). done.
  - apply Forall_forall. intros i (r & -> & Hr)%elem_of_np_unique%list_elem_of_fmap.
    destruct (Hkey r Hr) as (-> & _ & Hi). done.
  - apply Forall_forall.
    intros key (r & -> & Hr)%elem_of_fill_ratings_keys%list_elem_of_fmap.
    destruct (Hkey r Hr) as (-> & Hu & Hi). done.
  - apply Forall_forall. intros r Hr. apply elem_of_fill_ratings_keys.
    destruct (Hkey r Hr) as (<- & _). by apply list_elem_of_fmap_2.
Qed.

(** X23. When no pair of user and item occurs twice in the table,
    [ratings] has one item per line, in the order of the file: 100000
    ratings, the [k]-th being that of line [k]. *)
Theorem read_movielens100k_keeps_file_order data :
  Z.of_nat (length data) = 100000 →
  NoDup ((λ r, (int64 (user_id r - 1), int64 (item_id r - 1))) <$> data) →
  ∃ users items ratings,
    read_movielens100k data = Returned users items ratings ∧
    Z.of_nat (length ratings) = 100000 ∧
    ratings =
      (λ r, ((int64 (user_id r - 1), int64 (item_id r - 1)), (rating r, np_zeros 0)))
        <$> data.
Proof.
  intros Hlen Hnd. eexists _, _, _. split; [by apply read_movielens100k_run|].
  rewrite fill_ratings_zero_based, fill_ratings_from by done.
  split; [|done]. simpl. by rewrite length_fmap.
Qed.

End ReadMovielensFacts.

(** *** Splitting the ratings read *)

Section SplitMovielens.

Context {Rt G : Type}.

Local Open Scope Z_scope.
Context (np_random_shuffle :
           G → list (Z * Z * (Rt * ndarray)) → list (Z * Z * (Rt * ndarray)) * G).

Lemma length_setitem_items_le {K Val} `{EqDecision K} (key : K) (val : Val) d :
  (length (setitem_items key val d) ≤ Datatypes.S (length d))%nat.
Proof.
  induction d as [|[k v] d IH]; simpl; [lia|]. case_decide; simpl; lia.
Qed.

Lemma length_fill_ratings (data : list (line Rt)) :
  (length (fill_ratings (zero_based data)) ≤ length data)%nat.
Proof.
  induction data as [|r data IH] using rev_ind; [done|].
  rewrite fill_ratings_snoc, length_app. simpl.
  pose proof (length_setitem_items_le (key_of r) (value_of r)
                (fill_ratings (zero_based data))). lia.
Qed.

(** X26. Reading and then splitting: the ratings [read_movielens100k]
    returns meet what [split_ratings] needs, so for a proportion
    between 0 and 1 the split returns two groups which together hold
    every rating read once, with [int(proportion * n)] of them in the
    first. *)
Theorem read_movielens100k_then_split (data : list (line Rt)) users items ratings
    w r p shuffle :
  (∀ g xs, (np_random_shuffle g xs).1 ≡ₚ xs) →
  read_movielens100k data = Returned users items ratings →
  heap w !! r = Some (Dict ratings) →
  unit_proportion p →
  ∃ k split_1 split_2 w' d1 d2,
    split_end p (length ratings) = Ok (Z.of_nat k) ∧
    split_ratings np_random_shuffle r p shuffle w = (Ok (split_1, split_2), w') ∧
    heap w' !! split_1 = Some (OrderedDict d1) ∧
    heap w' !! split_2 = Some (OrderedDict d2) ∧
    length d1 = k ∧
    d1 ++ d2 ≡ₚ ratings ∧
    NoDup (d1 ++ d2).*1.
Proof.
  intros Hperm Hread Hr Hp.
  assert (Z.of_nat (length data) = 100000) as Hlen.
  { destruct (decide (Z.of_nat (length data) = 100000)) as [|Hne]; [done|].
    unfold read_movielens100k in Hread. rewrite decide_False in Hread; [done|].
    unfold shift_item_id, shift_user_id. by rewrite !length_fmap. }
  rewrite (read_movielens100k_run data Hlen) in Hread.
  injection Hread as _ _ <-.
  set (ratings := fill_ratings (zero_based data)) in *.
  assert (NoDup ratings.*1) as Hnd by apply fill_ratings_nodup.
  assert (Z.of_nat (length ratings) < 2 ^ 53) as Hn.
  { pose proof (length_fill_ratings data). subst ratings. lia. }
  destruct (split_end_unit p (length ratings) Hp Hn) as (k & Hk & _ & Hk0).
  set (xs := (split_order np_random_shuffle shuffle (rng w) ratings).1).
  assert (xs ≡ₚ ratings) as Hxs.
  { subst xs. unfold split_order. destruct shuffle; [apply Hperm|done]. }
  assert (NoDup xs.*1) as Hndx by (by rewrite Hxs).
  assert (length xs = length ratings) as Hlenx by (by rewrite Hxs).
  exists (Z.to_nat k), (length (heap w)), (Datatypes.S (length (heap w))).
  eexists. exists (take (Z.to_nat k) xs), (drop (Z.to_nat k) xs). split_and!.
  - by rewrite Z2Nat.id by lia.
  - by apply (split_ratings_run np_random_shuffle w r ratings p shuffle k).
  - simpl. rewrite lookup_app_r by lia. by rewrite Nat.sub_diag.
  - simpl. rewrite lookup_app_r by lia.
    by replace (Datatypes.S (length (heap w)) - length (heap w))%nat with 1%nat by lia.
  - rewrite length_take. lia.
  - by rewrite take_drop.
  - by rewrite take_drop.
Qed.

End SplitMovielens.

(** ** The further properties at concrete inputs *)

Module MoreExamples.

Import Examples.

Local Open Scope Z_scope.

(** *** The recommender *)

Import Slim.

#[local] Existing Instance Z_scalar.
#[local] Existing Instance correlation.
#[local] Existing Instance idle_parent.

Lemma correlation_answers_single f i (X : matrix Z) :
  (i < _items (single f))%nat → same_values X (zeroed (ratings_3x1 f) i) →
  ∃ c, elastic_net (params (model (single f))) X (column (ratings_3x1 f) i) = Ok c ∧
       length c = 1%nat.
Proof.
  intros Hi HX. eexists. split; [reflexivity|].
  rewrite length_fmap, length_seq. by rewrite (same_values_ncols _ _ HX).
Qed.

Lemma update_returns_when_solver_answers_witness :
  ∃ w', update tt (single CSC) = (Ok tt, w').
Proof.
  apply (update_returns_when_solver_answers tt (single CSC) (single CSC)
           (ratings_3x1 CSC)).
  - reflexivity.
  - reflexivity.
  - simpl. unfold ncols. simpl. lia.
  - exact (correlation_answers_single CSC).
Defined.

Lemma update_weights_are_new_object_witness :
  ∃ r W, _weights (trained_single DOK) = Some r ∧
         heap (trained_single DOK) !! r = Some W ∧ fmt W = CSR ∧
         heap (single DOK) !! r = None ∧
         ∀ r0 W0, _weights (single DOK) = Some r0 → r0 ≠ _ratings (single DOK) →
                  heap (single DOK) !! r0 = Some W0 →
                  heap (trained_single DOK) !! r0 = Some W0.
Proof.
  apply (update_weights_are_new_object tt (single DOK) (single DOK) (trained_single DOK)
           (ratings_3x1 DOK)).
  - reflexivity.
  - reflexivity.
  - apply update_single_returns.
Defined.

(** A recommender with a second item that has no column yet. *)
Definition one_item_ahead : world Z :=
  World [ratings_3x1 CSC] 2%nat 0%nat None
    (Estimator (Hyper 1 1 true false false true Random 100 1 0) None) [].

Lemma correlation_answers_ahead i (X : matrix Z) :
  (i < ncols (ratings_3x1 CSC))%nat → same_values X (zeroed (ratings_3x1 CSC) i) →
  ∃ c, elastic_net (params (model one_item_ahead)) X
         (column (ratings_3x1 CSC) i) = Ok c ∧
       length c = 1%nat.
Proof.
  intros Hi HX. eexists. split; [reflexivity|].
  rewrite length_fmap, length_seq. by rewrite (same_values_ncols _ _ HX).
Qed.

Lemma update_raises_when_columns_missing_witness :
  ∃ w' R,
    update tt one_item_ahead = (Raise IndexError, w') ∧
    heap w' !! _ratings one_item_ahead = Some R ∧
    same_values R (ratings_3x1 CSC).
Proof.
  apply (update_raises_when_columns_missing tt one_item_ahead one_item_ahead
           (ratings_3x1 CSC)).
  - reflexivity.
  - reflexivity.
  - simpl. unfold ncols. simpl. lia.
  - exact correlation_answers_ahead.
Defined.

(** A batch whose second query asks for a user that is not known. *)
Definition queries_unknown_user : list (Z * Z * unit) :=
  [((0, 2), tt); ((3, 0), tt); ((0, 1), tt)].

Lemma predict_raises_on_unknown_pair_witness :
  _predict queries_unknown_user serving =
    (Raise IndexError, record (MatMul (ratings_3x3 CSR) weights_3x3) serving).
Proof.
  apply (predict_raises_on_unknown_pair queries_unknown_user serving 1%nat).
  - reflexivity.
  - reflexivity.
  - reflexivity.
  - reflexivity.
  - apply Exists_cons_tl, Exists_cons_hd.
    unfold valid_query, valid_index. simpl. unfold nrows. simpl. lia.
Defined.

Lemma update_writes_only_rating_matrix_witness :
  params (model (update tt (fresh DOK)).2) = params (model (fresh DOK)) ∧
  _items (update tt (fresh DOK)).2 = _items (fresh DOK) ∧
  _ratings (update tt (fresh DOK)).2 = _ratings (fresh DOK) ∧
  calls (fresh DOK) `prefix_of` calls (update tt (fresh DOK)).2 ∧
  ∀ l A, l ≠ _ratings (fresh DOK) → heap (fresh DOK) !! l = Some A →
         heap (update tt (fresh DOK)).2 !! l = Some A.
Proof.
  apply (update_writes_only_rating_matrix tt (fresh DOK) (fresh DOK)).
  reflexivity.
Defined.

(** Two users ask for the one item. *)
Definition queries_single : list (Z * Z * unit) := [((0, 0), tt); ((2, 0), tt)].

Lemma update_then_predict_witness :
  ∃ r W w'',
    _weights (trained_single CSC) = Some r ∧ heap (trained_single CSC) !! r = Some W ∧
    _predict queries_single (trained_single CSC) =
      (Ok ((λ q, dot (row (ratings_3x1 CSC) (Z.to_nat q.1.1))
                     (column W (Z.to_nat q.1.2))) <$> queries_single), w'').
Proof.
  apply (update_then_predict tt (single CSC) (single CSC) (trained_single CSC)
           (ratings_3x1 CSC) queries_single).
  - reflexivity.
  - reflexivity.
  - reflexivity.
  - apply update_single_returns.
  - repeat constructor; simpl; unfold nrows; simpl; lia.
Defined.

(** A recommender with three users and no item. *)
Definition no_items : world Z :=
  World [Matrix CSC (3, 0)%nat ∅] 0%nat 0%nat None
    (Estimator (Hyper 1 1 true false false true Random 100 1 0) None) [].

Lemma update_without_items_witness :
  ∃ w' r W,
    update tt no_items = (Ok tt, w') ∧
    calls w' = calls no_items ∧
    _weights w' = Some r ∧ heap w' !! r = Some W ∧
    shape W = (0, 0)%nat ∧ cells W = ∅ ∧
    heap w' !! _ratings no_items = Some (Matrix CSC (3, 0)%nat ∅).
Proof.
  apply (update_without_items tt no_items no_items (Matrix CSC (3, 0)%nat ∅)).
  - reflexivity.
  - reflexivity.
  - reflexivity.
Defined.

(** The store a training that fails at the first item leaves. *)
Definition failed_once : world Z :=
  (@update Z Z_scalar failing unit idle_parent tt (fresh CSC)).2.

Lemma update_failing_raises :
  @update Z Z_scalar failing unit idle_parent tt (fresh CSC)
  = (Raise FitError, failed_once).
Proof. vm_compute. reflexivity. Qed.

Lemma update_failure_replaces_weights_witness :
  ∃ r, _weights failed_once = Some r ∧ heap (fresh CSC) !! r = None ∧
       is_Some (heap failed_once !! r).
Proof.
  apply (@update_failure_replaces_weights Z Z_scalar failing unit idle_parent
           tt (fresh CSC) (fresh CSC) FitError failed_once).
  - reflexivity.
  - exact update_failing_raises.
Defined.

Lemma correlation_length ps (X : matrix Z) y c :
  elastic_net ps X y = Ok c → length c = ncols X.
Proof. intros [= <-]. by rewrite length_fmap, length_seq. Qed.

Lemma update_completes_for_one_item_at_most_witness :
  (_items (single CSC) ≤ 1)%nat ∧
  (_items (single CSC) = 1%nat → ncols (ratings_3x1 CSC) = 1%nat).
Proof.
  apply (update_completes_for_one_item_at_most tt (single CSC) (single CSC)
           (trained_single CSC) (ratings_3x1 CSC)).
  - exact correlation_length.
  - reflexivity.
  - reflexivity.
  - apply update_single_returns.
Defined.

(** *** [split_ratings] *)

Import DataUtils.

Lemma split_ratings_rejects_nan_witness :
  split_ratings reversing_shuffle 0%nat PrimFloat.nan true ten_world =
    (Raise ValueError, with_results ten_world).
Proof.
  apply (split_ratings_rejects_nan reversing_shuffle ten_world 0%nat ten_ratings
           PrimFloat.nan true).
  - reflexivity.
  - reflexivity.
Defined.

Lemma split_ratings_rejects_infinite_witness :
  split_ratings reversing_shuffle 0%nat PrimFloat.infinity false ten_world =
    (Raise (match ten_ratings with [] => ValueError | _ => OverflowError end),
     with_results ten_world).
Proof.
  apply (split_ratings_rejects_infinite reversing_shuffle ten_world 0%nat ten_ratings
           PrimFloat.infinity false false).
  - reflexivity.
  - reflexivity.
  - reflexivity.
Defined.

Lemma split_ratings_zero_proportion_witness :
  ∃ split_1 split_2 w',
    split_ratings reversing_shuffle 0%nat PrimFloat.zero true ten_world
      = (Ok (split_1, split_2), w') ∧
    heap w' !! split_1 = Some (OrderedDict []) ∧
    heap w' !! split_2 =
      Some (OrderedDict (split_order reversing_shuffle true (rng ten_world) ten_ratings).1).
Proof.
  apply (split_ratings_zero_proportion reversing_shuffle ten_world 0%nat ten_ratings
           PrimFloat.zero true false).
  - exact reversing_shuffle_permutes.
  - reflexivity.
  - exact ten_ratings_nodup.
  - reflexivity.
  - reflexivity.
Defined.

(** The float -0.5. *)
Definition minus_half : float := (-0x1p-1)%float.

Lemma split_ratings_negative_proportion_witness :
  split_ratings reversing_shuffle 0%nat minus_half false ten_world =
    (Raise OverflowError, with_results ten_world) ∨
  ∃ split_1 split_2 w',
    split_ratings reversing_shuffle 0%nat minus_half false ten_world
      = (Ok (split_1, split_2), w') ∧
    heap w' !! split_1 = Some (OrderedDict []) ∧
    heap w' !! split_2 =
      Some (OrderedDict (split_order reversing_shuffle false (rng ten_world) ten_ratings).1).
Proof.
  apply (split_ratings_negative_proportion reversing_shuffle ten_world 0%nat ten_ratings
           minus_half false 4503599627370496%positive (-53)).
  - exact reversing_shuffle_permutes.
  - reflexivity.
  - exact ten_ratings_nodup.
  - reflexivity.
  - reflexivity.
Defined.

Definition empty_world : world (K:=nat) (Val:=Z) (G:=unit) := World [Dict []] tt.

Lemma three_tenths_finite : finite_float three_tenths.
Proof. by vm_compute. Qed.

Lemma split_ratings_empty_mapping_witness :
  ∃ split_1 split_2 w',
    split_ratings reversing_shuffle 0%nat three_tenths true empty_world
      = (Ok (split_1, split_2), w') ∧
    heap w' !! split_1 = Some (OrderedDict []) ∧
    heap w' !! split_2 = Some (OrderedDict []).
Proof.
  apply (split_ratings_empty_mapping reversing_shuffle empty_world 0%nat
           three_tenths true).
  - exact reversing_shuffle_permutes.
  - reflexivity.
  - exact three_tenths_finite.
Defined.

Definition ten_split : world (K:=nat) (Val:=Z) (G:=unit) :=
  (split_ratings reversing_shuffle 0%nat three_tenths false ten_world).2.

Lemma ten_split_returns :
  split_ratings reversing_shuffle 0%nat three_tenths false ten_world
  = (Ok (1%nat, 2%nat), ten_split).
Proof. vm_compute. reflexivity. Qed.

Lemma split_ratings_returns_new_objects_witness :
  1%nat ≠ 2%nat ∧
  heap ten_world !! 1%nat = None ∧ heap ten_world !! 2%nat = None ∧
  ∀ l o, heap ten_world !! l = Some o → heap ten_split !! l = Some o.
Proof.
  apply (split_ratings_returns_new_objects reversing_shuffle ten_world 0%nat
           three_tenths false 1%nat 2%nat ten_split).
  exact ten_split_returns.
Defined.

Lemma split_ratings_shuffled_order_witness :
  ∃ k split_1 split_2 w',
    split_end three_tenths (length ten_ratings) = Ok (Z.of_nat k) ∧
    split_ratings reversing_shuffle 0%nat three_tenths true ten_world
      = (Ok (split_1, split_2), w') ∧
    heap w' !! split_1 =
      Some (OrderedDict (take k (reversing_shuffle (rng ten_world) ten_ratings).1)) ∧
    heap w' !! split_2 =
      Some (OrderedDict (drop k (reversing_shuffle (rng ten_world) ten_ratings).1)) ∧
    rng w' = (reversing_shuffle (rng ten_world) ten_ratings).2.
Proof.
  apply (split_ratings_shuffled_order reversing_shuffle ten_world 0%nat ten_ratings
           three_tenths).
  - exact reversing_shuffle_permutes.
  - reflexivity.
  - exact ten_ratings_nodup.
  - exact three_tenths_unit.
  - reflexivity.
Defined.

Lemma split_ratings_twice_witness :
  ∃ k1 k2 first rest w1 train validation w2,
    split_ratings reversing_shuffle 0%nat three_tenths false ten_world
      = (Ok (first, rest), w1) ∧
    split_ratings reversing_shuffle first three_tenths false w1
      = (Ok (train, validation), w2) ∧
    heap w2 !! train = Some (OrderedDict (take k2 (take k1 ten_ratings))) ∧
    heap w2 !! validation = Some (OrderedDict (drop k2 (take k1 ten_ratings))) ∧
    heap w2 !! rest = Some (OrderedDict (drop k1 ten_ratings)) ∧
    heap w2 !! first = Some (OrderedDict (take k1 ten_ratings)) ∧
    heap w2 !! 0%nat = Some (Dict ten_ratings) ∧
    take k2 (take k1 ten_ratings) ++ drop k2 (take k1 ten_ratings)
      ++ drop k1 ten_ratings = ten_ratings.
Proof.
  apply (split_ratings_twice reversing_shuffle ten_world 0%nat ten_ratings
           three_tenths three_tenths).
  - reflexivity.
  - exact ten_ratings_nodup.
  - exact three_tenths_unit.
  - exact three_tenths_unit.
  - reflexivity.
Defined.

Lemma split_ratings_whole_proportion_witness :
  ∃ split_1 split_2 w',
    split_ratings reversing_shuffle 0%nat PrimFloat.one true ten_world
      = (Ok (split_1, split_2), w') ∧
    heap w' !! split_1 =
      Some (OrderedDict (split_order reversing_shuffle true (rng ten_world) ten_ratings).1) ∧
    heap w' !! split_2 = Some (OrderedDict []).
Proof.
  apply (split_ratings_whole_proportion reversing_shuffle ten_world 0%nat ten_ratings
           true).
  - exact reversing_shuffle_permutes.
  - reflexivity.
  - exact ten_ratings_nodup.
  - reflexivity.
Defined.

(** *** [read_movielens100k] *)

(** A table in which user 1 rates item 1 a hundred thousand times. *)
Definition one_pair : list (line Z) :=
  replicate (Z.to_nat 100000) (Line 1 1 5 0).

(** A table in which a hundred thousand users rate item 1 once each. *)
Definition one_item : list (line Z) :=
  (λ j, Line (Z.of_nat j + 1) 1 5 0) <$> seq 0 (Z.to_nat 100000).

Lemma one_pair_length : Z.of_nat (length one_pair) = 100000.
Proof. unfold one_pair. rewrite length_replicate. by apply Z2Nat.id. Qed.

Lemma one_item_length : Z.of_nat (length one_item) = 100000.
Proof. unfold one_item. rewrite length_fmap, length_seq. by apply Z2Nat.id. Qed.

Lemma one_pair_in_range :
  Forall (λ r : line Z, 1 ≤ user_id r ≤ 943 ∧ 1 ≤ item_id r ≤ 1682) one_pair.
Proof. apply Forall_replicate. simpl. lia. Qed.

Lemma one_item_distinct :
  NoDup ((λ r : line Z, (int64 (user_id r - 1), int64 (item_id r - 1))) <$> one_item).
Proof.
  unfold one_item. rewrite <- list_fmap_compose.
  apply NoDup_fmap_2_strong; [|apply NoDup_seq].
  intros i j Hi%elem_of_seq Hj%elem_of_seq Heq. simpl in Heq.
  injection Heq as Heq. rewrite !int64_sub_one in Heq by lia. lia.
Qed.

Lemma read_movielens100k_registers_rated_ids_witness :
  ∃ users items ratings,
    read_movielens100k one_pair = Returned users items ratings ∧
    (∀ u, u ∈ users.*1 ↔ ∃ i, (u, i) ∈ ratings.*1) ∧
    (∀ i, i ∈ items.*1 ↔ ∃ u, (u, i) ∈ ratings.*1).
Proof.
  apply (read_movielens100k_registers_rated_ids one_pair).
  exact one_pair_length.
Defined.

Lemma read_movielens100k_results_well_formed_witness :
  ∃ users items ratings,
    read_movielens100k one_item = Returned users items ratings ∧
    increasing users.*1 ∧ increasing items.*1 ∧ NoDup ratings.*1 ∧
    Forall (λ kv, kv.2 = np_zeros 0) users ∧
    Forall (λ kv, kv.2 = np_zeros 0) items ∧
    Forall (λ kv, kv.2.2 = np_zeros 0) ratings.
Proof.
  apply (read_movielens100k_results_well_formed one_item).
  exact one_item_length.
Defined.

Lemma read_movielens100k_last_rating_wins_witness :
  ∃ users items ratings,
    read_movielens100k one_pair = Returned users items ratings ∧
    ∀ u i x, ((u, i), x) ∈ ratings ↔
      ∃ j r, one_pair !! j = Some r ∧
             u = int64 (user_id r - 1) ∧ i = int64 (item_id r - 1) ∧
             x = (rating r, np_zeros 0) ∧
             ∀ j' r', (j < j')%nat → one_pair !! j' = Some r' →
               ¬ (int64 (user_id r' - 1) = u ∧ int64 (item_id r' - 1) = i).
Proof.
  apply (read_movielens100k_last_rating_wins one_pair).
  exact one_pair_length.
Defined.

Lemma read_movielens100k_zero_based_witness :
  ∃ users items ratings,
    read_movielens100k one_pair = Returned users items ratings ∧
    Forall (λ u, 0 ≤ u < 943) users.*1 ∧
    Forall (λ i, 0 ≤ i < 1682) items.*1 ∧
    Forall (λ key, 0 ≤ key.1 < 943 ∧ 0 ≤ key.2 < 1682) ratings.*1 ∧
    Forall (λ r, (user_id r - 1, item_id r - 1) ∈ ratings.*1) one_pair.
Proof.
  apply (read_movielens100k_zero_based one_pair 943 1682).
  - exact one_pair_length.
  - lia.
  - lia.
  - exact one_pair_in_range.
Defined.

Lemma read_movielens100k_keeps_file_order_witness :
  ∃ users items ratings,
    read_movielens100k one_item = Returned users items ratings ∧
    Z.of_nat (length ratings) = 100000 ∧
    ratings =
      (λ r, ((int64 (user_id r - 1), int64 (item_id r - 1)), (rating r, np_zeros 0)))
        <$> one_item.
Proof.
  apply (read_movielens100k_keeps_file_order one_item).
  - exact one_item_length.
  - exact one_item_distinct.
Defined.

(** The ratings read from [one_pair], held in a store, and a shuffle
    that reverses its list. *)
Definition one_pair_ratings : list (Z * Z * (Z * ndarray)) :=
  fill_ratings (zero_based one_pair).

Definition one_pair_world : world (K:=Z * Z) (Val:=Z * ndarray) (G:=unit) :=
  World [Dict one_pair_ratings] tt.

Definition reversing (g : unit) (xs : list (Z * Z * (Z * ndarray)))
  : list (Z * Z * (Z * ndarray)) * unit :=
  (reverse xs, g).

Lemma reversing_permutes g xs : (reversing g xs).1 ≡ₚ xs.
Proof. simpl. apply reverse_Permutation. Qed.

Lemma one_pair_read :
  read_movielens100k one_pair =
    Returned (no_features (np_unique (user_id <$> zero_based one_pair)))
             (no_features (np_unique (item_id <$> zero_based one_pair)))
             one_pair_ratings.
Proof. exact (read_movielens100k_run one_pair one_pair_length). Qed.

Lemma read_movielens100k_then_split_witness :
  ∃ k split_1 split_2 w' d1 d2,
    split_end three_tenths (length one_pair_ratings) = Ok (Z.of_nat k) ∧
    split_ratings reversing 0%nat three_tenths true one_pair_world
      = (Ok (split_1, split_2), w') ∧
    heap w' !! split_1 = Some (OrderedDict d1) ∧
    heap w' !! split_2 = Some (OrderedDict d2) ∧
    length d1 = k ∧
    d1 ++ d2 ≡ₚ one_pair_ratings ∧
    NoDup (d1 ++ d2).*1.
Proof.
  apply (read_movielens100k_then_split reversing one_pair
           (no_features (np_unique (user_id <$> zero_based one_pair)))
           (no_features (np_unique (item_id <$> zero_based one_pair)))
           one_pair_ratings one_pair_world 0%nat three_tenths true).
  - exact reversing_permutes.
  - exact one_pair_read.
  - reflexivity.
  - exact three_tenths_unit.
Defined.

End MoreExamples.
